(** * Grokfast gradient filters: a shallow embedding of [grokfast.py]

    The four filters of [grokfast.py] ([gradfilter_ma], [gradfilter_ema],
    [smoother], [gradfilter_kalman]) and the filter selection of the
    training loop in [main_transformer.py] are embedded as Rocq functions.

    Modelling conventions.
    - Numbers.  Tensor elements and the float hyper-parameters are real
      numbers ([R]); rounding, infinities and NaN are not modelled, and a
      division by zero, which the source answers with an infinity or NaN,
      is the total division of [R].  The one division by a tensor is
      [K = P_pred / S] of [gradfilter_kalman]; [kalman_divides] names the
      calls in which no element of [S] is zero.  Where a property hangs on
      floating point itself, the update lines are also given for one
      element over binary64 floats ([float_arith]), the arithmetic of a
      float64 tensor and of Python's [float].
    - Tensors.  A tensor is its element function [Idx -> R] over a type of
      positions [Idx]; every arithmetic operation of the source is
      elementwise (a Python scalar is broadcast), so shapes play no part.
      A scalar parameter is a tensor over [unit].
    - The module.  [m.named_parameters()] is the ordered list of
      (name, parameter) pairs; a parameter carries [requires_grad], its
      value [data] and its gradient [grad] ([None] in Python is [None]).
    - Mutation and exceptions.  The source mutates gradients and the state
      dictionary in place and may raise in the middle of its loop.  Every
      filter therefore returns an [outcome]: the module as the call leaves it,
      the state dictionary as the call leaves it, and the exception raised,
      if any.  A mutation made before a [raise] stays visible.
    - Dictionaries are [gmap string _]; [d[n]] on a missing key raises
      [KeyError]. *)

From Stdlib Require Import Floats.
From Stdlib Require Import Reals Lra Psatz FunctionalExtensionality.
From stdpp Require Import gmap strings list fin_maps.

(** ** Python exceptions raised by the modelled code *)

Inductive exn : Type :=
| KeyError (key : string)
| ValueError (msg : string)
| ZeroDivisionError
| TypeError.

(** What a call leaves behind.  [out_model]: the module after the in-place
    gradient updates.  [out_state]: the dictionary [grads] is bound to inside
    the call when the call ends ([None] when the call raised before it had
    one); when the caller supplied the dictionary this is the caller's own
    object.  [out_raised]: [None] when the call returned (it then returned
    [out_state]), [Some e] when it raised [e]. *)
Record outcome (M S : Type) : Type := Outcome {
  out_model : M;
  out_state : option S;
  out_raised : option exn
}.
Arguments Outcome {M S} _ _ _.
Arguments out_model {M S} _.
Arguments out_state {M S} _.
Arguments out_raised {M S} _.

(** ** [collections.deque] with [maxlen] *)

Section Deque.
Context {A : Type}.

Record deque : Type := Deque {
  maxlen : option nat;
  items : list A
}.

(** [deque(maxlen=w)]: an empty deque; a negative [maxlen] raises. *)
Definition deque_new (w : Z) : exn + deque :=
  if (w <? 0)%Z then inl (ValueError "maxlen must be non-negative")
  else inr (Deque (Some (Z.to_nat w)) []).

(** [d.append(x)]: push on the right, then discard from the left whatever
    exceeds [maxlen] (with [maxlen = 0] the new item itself goes). *)
Definition deque_append (d : deque) (x : A) : deque :=
  match maxlen d with
  | None => Deque None (items d ++ [x])
  | Some w => Deque (Some w) (drop (length (items d ++ [x]) - w) (items d ++ [x]))
  end.

Definition deque_len (d : deque) : nat := length (items d).
End Deque.
Arguments deque A : clear implicits.

(** ** Tensors, parameters, modules *)

Section Filters.
Context {Idx : Type}.
Local Open Scope R_scope.

Definition Tensor : Type := Idx -> R.

Definition tfull (c : R) : Tensor := fun _ => c.
Definition tadd (a b : Tensor) : Tensor := fun i => a i + b i.
Definition tsub (a b : Tensor) : Tensor := fun i => a i - b i.
Definition tmul (a b : Tensor) : Tensor := fun i => a i * b i.
Definition tdiv (a b : Tensor) : Tensor := fun i => a i / b i.
(** tensor [*] float, tensor [/] float, float [*] tensor, float [-] tensor *)
Definition tscale (a : Tensor) (c : R) : Tensor := fun i => a i * c.
Definition tdivs (a : Tensor) (c : R) : Tensor := fun i => a i / c.
Definition smul (c : R) (a : Tensor) : Tensor := fun i => c * a i.
Definition ssub (c : R) (a : Tensor) : Tensor := fun i => c - a i.

Record Param : Type := mkParam {
  requires_grad : bool;
  data : Tensor;
  grad : option Tensor
}.

(** [m.named_parameters()] *)
Definition NNModule : Type := list (string * Param).

(** The guard [p.requires_grad and p.grad is not None]; it yields the
    gradient the body then works on. *)
Definition selected (p : Param) : option Tensor :=
  if requires_grad p then grad p else None.

(** [p.grad.data = g] *)
Definition set_grad (p : Param) (g : Tensor) : Param :=
  mkParam (requires_grad p) (data p) (Some g).

(** [{n: f(p) for n, p in m.named_parameters()
        if p.requires_grad and p.grad is not None}]:
    entries are written in order, a later one replaces an earlier one. *)
Definition comprehension_from {V : Type} (f : Param -> Tensor -> V)
    (acc : gmap string V) (m : NNModule) : gmap string V :=
  fold_left (fun acc np =>
               match selected np.2 with
               | Some g => <[np.1 := f np.2 g]> acc
               | None => acc
               end) m acc.

Definition comprehension {V : Type} (f : Param -> Tensor -> V)
    (m : NNModule) : gmap string V :=
  comprehension_from f ∅ m.

(** [for n, p in m.named_parameters():
       if p.requires_grad and p.grad is not None: body]
    The body sees the name, the parameter, its gradient and the state; it
    gives back the parameter and the state as it leaves them and the
    exception it raised, if any.  A raise ends the loop. *)
Fixpoint for_params {S : Type}
    (body : string -> Param -> Tensor -> S -> Param * S * option exn)
    (m : NNModule) (st : S) : NNModule * S * option exn :=
  match m with
  | [] => ([], st, None)
  | (n, p) :: rest =>
      match selected p with
      | Some g =>
          match body n p g st with
          | (p', st', Some e) => ((n, p') :: rest, st', Some e)
          | (p', st', None) =>
              let '(rest', st'', r) := for_params body rest st' in
              ((n, p') :: rest', st'', r)
          end
      | None =>
          let '(rest', st', r) := for_params body rest st in
          ((n, p) :: rest', st', r)
      end
  end.

(** ** [gradfilter_ma] *)

(** [sum(grads[n])]: Python's [sum] starts from the integer 0. *)
Definition tsum (l : list Tensor) : Tensor := fold_left tadd l (tfull 0).

(** Lines 25-30: the aggregate of the window, by [filter_type]. *)
Definition aggregate (filter_type : string) (d : deque Tensor) : exn + Tensor :=
  if String.eqb filter_type "mean" then
    if Nat.eqb (deque_len d) 0 then inl ZeroDivisionError
    else inr (tdivs (tsum (items d)) (INR (deque_len d)))
  else if String.eqb filter_type "sum" then
    inr (tsum (items d))
  else inl (ValueError ("Unrecognized filter_type " ++ filter_type)).

(** Lines 21-31, for one parameter. *)
Definition ma_body (window_size : Z) (lamb : R) (filter_type : string)
    (warmup trigger : bool)
    (n : string) (p : Param) (g : Tensor) (grads : gmap string (deque Tensor))
    : Param * gmap string (deque Tensor) * option exn :=
  match grads !! n with
  | None => (p, grads, Some (KeyError n))
  | Some d =>
      let d' := deque_append d g in
      let grads' := <[n := d']> grads in
      if negb warmup || (Z.of_nat (deque_len d') =? window_size)%Z && negb trigger then
        match aggregate filter_type d' with
        | inl e => (p, grads', Some e)
        | inr avg => (set_grad p (tadd g (tscale avg lamb)), grads', None)
        end
      else (p, grads', None)
  end.

(** Line 17: one [deque(maxlen=window_size)] per selected parameter. *)
Definition ma_init (window_size : Z) (m : NNModule)
    : exn + gmap string (deque Tensor) :=
  if existsb (fun np => bool_decide (is_Some (selected np.2))) m then
    match deque_new window_size with
    | inl e => inl e
    | inr d => inr (comprehension (fun _ _ => d) m)
    end
  else inr ∅.

Definition gradfilter_ma (m : NNModule) (grads : option (gmap string (deque Tensor)))
    (window_size : Z) (lamb : R) (filter_type : string) (warmup trigger : bool)
    : outcome NNModule (gmap string (deque Tensor)) :=
  match match grads with Some g => inr g | None => ma_init window_size m end with
  | inl e => Outcome m None (Some e)
  | inr g =>
      let '(m', g', r) :=
        for_params (ma_body window_size lamb filter_type warmup trigger) m g in
      Outcome m' (Some g') r
  end.

(** ** [gradfilter_ema] *)

Definition ema_body (alpha lamb : R) (trigger : bool)
    (n : string) (p : Param) (g : Tensor) (grads : gmap string Tensor)
    : Param * gmap string Tensor * option exn :=
  if negb trigger then
    match grads !! n with
    | None => (p, grads, Some (KeyError n))
    | Some acc =>
        let acc' := tadd (tscale acc alpha) (tscale g (1 - alpha)) in
        (set_grad p (tdivs (tadd g (tscale acc' lamb)) (1 + lamb)),
         <[n := acc']> grads, None)
    end
  else (p, grads, None).

Definition gradfilter_ema (m : NNModule) (grads : option (gmap string Tensor))
    (alpha lamb : R) (trigger : bool) : outcome NNModule (gmap string Tensor) :=
  let g := match grads with
           | Some g => g
           | None => comprehension (fun _ gr => gr) m
           end in
  let '(m', g', r) := for_params (ema_body alpha lamb trigger) m g in
  Outcome m' (Some g') r.

(** ** [smoother] *)

(** Lines 70-71; the loop state is the local dictionary [z]. *)
Definition smoother_body (beta pp : R)
    (n : string) (p : Param) (g : Tensor) (z : gmap string Tensor)
    : Param * gmap string Tensor * option exn :=
  match z !! n with
  | None => (p, z, Some (KeyError n))
  | Some zn =>
      let zn' := tadd zn (smul beta (tsub (data p) zn)) in
      (set_grad p (tsub g (smul pp (tsub (data p) zn'))), <[n := zn']> z, None)
  end.

(** Line 65: [z], rebuilt from the parameter values on every call. *)
Definition smoother_z (m : NNModule) : gmap string Tensor :=
  comprehension (fun p _ => data p) m.

Definition smoother (m : NNModule) (grads : option (gmap string Tensor))
    (beta pp : R) : outcome NNModule (gmap string Tensor) :=
  let g := match grads with
           | Some g => g
           | None => comprehension (fun _ gr => gr) m
           end in
  let '(m', _, r) := for_params (smoother_body beta pp) m (smoother_z m) in
  Outcome m' (Some g) r.

(** ** [gradfilter_kalman] *)

(** The inner dictionary [{"x": ..., "P": ...}]. *)
Record KalmanEntry : Type := KEntry { kx : Tensor; kP : Tensor }.

(** Lines 92-110, for one parameter.  [K = P_pred / S] is the division of
    [R]: where an element of [S] is zero the source yields NaN or an
    infinity there, which this body does not show ([kalman_divides] below
    names the calls that are free of it). *)
Definition kalman_body (process_noise measurement_noise lamb : R)
    (n : string) (p : Param) (g : Tensor) (grads : gmap string KalmanEntry)
    : Param * gmap string KalmanEntry * option exn :=
  match grads !! n with
  | None => (p, grads, Some (KeyError n))
  | Some e =>
      let x_pred := kx e in
      let P_pred := tadd (kP e) (tfull process_noise) in
      let y := tsub g x_pred in
      let S := tadd P_pred (tfull measurement_noise) in
      let K := tdiv P_pred S in
      let x := tadd x_pred (tmul K y) in
      let P := tmul (ssub 1 K) P_pred in
      (set_grad p (tadd g (tscale x lamb)), <[n := KEntry x P]> grads, None)
  end.

Definition kalman_init (measurement_noise : R) (m : NNModule)
    : gmap string KalmanEntry :=
  comprehension (fun _ _ => KEntry (tfull 0) (tscale (tfull 1) measurement_noise)) m.

Definition gradfilter_kalman (m : NNModule) (grads : option (gmap string KalmanEntry))
    (process_noise measurement_noise lamb : R)
    : outcome NNModule (gmap string KalmanEntry) :=
  let g := match grads with
           | Some g => g
           | None => kalman_init measurement_noise m
           end in
  let '(m', g', r) :=
    for_params (kalman_body process_noise measurement_noise lamb) m g in
  Outcome m' (Some g') r.

(** ** The filter selection of [train] ([main_transformer.py], lines 156-168) *)

Record Args : Type := mkArgs {
  args_filter : string;
  args_window_size : Z;
  args_lamb : R;
  args_alpha : R;
  args_beta : R;
  args_pp : R;
  args_process_noise : R;
  args_measurement_noise : R;
  args_two_stage : bool;
  args_starting_point : Z
}.

(** The variable [grads] of [train]: [None], or what the selected filter
    returned on the step before.  [args.filter] is fixed for a run, so the
    loop never hands a filter the state of another kind; the model answers
    that case with [TypeError] ([smoother], which never reads its state,
    passes it through). *)
Inductive FilterState : Type :=
| MAState (g : gmap string (deque Tensor))
| TensorState (g : gmap string Tensor)
| KalmanState (g : gmap string KalmanEntry).

Definition lift_outcome {S : Type} (inj : S -> FilterState)
    (o : outcome NNModule S) : outcome NNModule FilterState :=
  Outcome (out_model o) (inj <$> out_state o) (out_raised o).

Definition filter_step (args : Args) (i : Z) (model : NNModule)
    (grads : option FilterState) : outcome NNModule FilterState :=
  let trigger := if args_two_stage args then (i <? args_starting_point args)%Z else false in
  if String.eqb (args_filter args) "none" then Outcome model grads None
  else if String.eqb (args_filter args) "ma" then
    match grads with
    | None =>
        lift_outcome MAState
          (gradfilter_ma model None (args_window_size args) (args_lamb args)
             "mean" true trigger)
    | Some (MAState g) =>
        lift_outcome MAState
          (gradfilter_ma model (Some g) (args_window_size args) (args_lamb args)
             "mean" true trigger)
    | Some _ => Outcome model grads (Some TypeError)
    end
  else if String.eqb (args_filter args) "ema" then
    match grads with
    | None =>
        lift_outcome TensorState
          (gradfilter_ema model None (args_alpha args) (args_lamb args) trigger)
    | Some (TensorState g) =>
        lift_outcome TensorState
          (gradfilter_ema model (Some g) (args_alpha args) (args_lamb args) trigger)
    | Some _ => Outcome model grads (Some TypeError)
    end
  else if String.eqb (args_filter args) "smoother" then
    match grads with
    | None =>
        lift_outcome TensorState
          (smoother model None (args_beta args) (args_pp args))
    | Some (TensorState g) =>
        lift_outcome TensorState
          (smoother model (Some g) (args_beta args) (args_pp args))
    | Some st =>
        let o := smoother model (Some ∅) (args_beta args) (args_pp args) in
        Outcome (out_model o) (Some st) (out_raised o)
    end
  else if String.eqb (args_filter args) "kalman" then
    match grads with
    | None =>
        lift_outcome KalmanState
          (gradfilter_kalman model None (args_process_noise args)
             (args_measurement_noise args) (args_lamb args))
    | Some (KalmanState g) =>
        lift_outcome KalmanState
          (gradfilter_kalman model (Some g) (args_process_noise args)
             (args_measurement_noise args) (args_lamb args))
    | Some _ => Outcome model grads (Some TypeError)
    end
  else
    Outcome model grads
      (Some (ValueError ("Invalid update filter type `" ++ args_filter args ++ "`"))).

(** ** Vocabulary of the statements *)

(** [grads[n]] when [grads] may be [None]: the state entry of a name. *)
Definition entry {V : Type} (grads : option (gmap string V)) (n : string)
    : option V :=
  match grads with
  | Some st => st !! n
  | None => None
  end.

(** A loop body is local when it writes no dictionary entry but its own
    parameter's. *)
Definition body_local {V : Type}
    (body : string -> Param -> Tensor -> gmap string V ->
            Param * gmap string V * option exn) : Prop :=
  forall n p g st n', n' ≠ n -> (body n p g st).1.2 !! n' = st !! n'.

(** ** Repeated calls on the same gradients

    [kalman_calls m Q R lamb k]: the variable [grads] of the training loop
    after [k] calls of [gradfilter_kalman], the backward pass having put
    the gradients of [m] in place before each call; [None] before the
    first call. *)
Fixpoint kalman_calls (m : NNModule) (process_noise measurement_noise lamb : R)
    (k : nat) : option (gmap string KalmanEntry) :=
  match k with
  | O => None
  | S k' =>
      out_state (gradfilter_kalman m
                   (kalman_calls m process_noise measurement_noise lamb k')
                   process_noise measurement_noise lamb)
  end.

(** One Kalman step on the entry of a parameter (lines 95-107), and the
    entry after [k] steps from the initial one of lines 85-86. *)
Definition kalman_update (process_noise measurement_noise : R) (g : Tensor)
    (e : KalmanEntry) : KalmanEntry :=
  let P_pred := tadd (kP e) (tfull process_noise) in
  let K := tdiv P_pred (tadd P_pred (tfull measurement_noise)) in
  KEntry (tadd (kx e) (tmul K (tsub g (kx e)))) (tmul (ssub 1 K) P_pred).

Fixpoint kalman_iter (process_noise measurement_noise : R) (g : Tensor) (k : nat)
    : KalmanEntry :=
  match k with
  | O => KEntry (tfull 0) (tscale (tfull 1) measurement_noise)
  | S k' =>
      kalman_update process_noise measurement_noise g
        (kalman_iter process_noise measurement_noise g k')
  end.

(** Element [i] of the estimate [x] and of the variance [P] stored for the
    parameter [n] after [k] calls.  Before the first call there is no state;
    the values given then are the ones the first call starts from,
    [zeros_like] and [ones_like * measurement_noise]. *)
Definition kalman_estimate (m : NNModule) (process_noise measurement_noise lamb : R)
    (n : string) (k : nat) (i : Idx) : R :=
  match entry (kalman_calls m process_noise measurement_noise lamb k) n with
  | Some e => kx e i
  | None => 0
  end.

Definition kalman_variance (m : NNModule) (process_noise measurement_noise lamb : R)
    (n : string) (k : nat) (i : Idx) : R :=
  match entry (kalman_calls m process_noise measurement_noise lamb k) n with
  | Some e => kP e i
  | None => 1 * measurement_noise
  end.

End Filters.

(** The fixed point [(-Q + sqrt(Q^2 + 4QR)) / 2] of the variance recursion. *)
Definition kalman_fixed_point (q r : R) : R :=
  ((- q + sqrt (q * q + 4 * q * r)) / 2)%R.

Arguments Tensor Idx : clear implicits.
Arguments Param Idx : clear implicits.
Arguments NNModule Idx : clear implicits.
Arguments KalmanEntry Idx : clear implicits.
Arguments FilterState Idx : clear implicits.

(** ** Concrete inputs: one scalar parameter *)

(** A scalar tensor: one element, at the only position of [unit]. *)
Definition scalar (c : R) : Tensor unit := tfull c.

(** A module with a single trainable scalar parameter ["w"] whose gradient
    is [c] (its value plays no part in the filters but [smoother]). *)
Definition scalar_module (c : R) : NNModule unit :=
  [("w", mkParam true (scalar 0) (Some (scalar c)))].

(** A module with a trainable scalar ["w"] and a frozen scalar ["b"]. *)
Definition frozen_module (c : R) : NNModule unit :=
  [("w", mkParam true (scalar 0) (Some (scalar c)));
   ("b", mkParam false (scalar 0) None)].

(** The scenario of three calls of [gradfilter_ma] on gradient 1.0 with
    [window_size = 2], [lamb = 1.0], mean, warmup, no trigger. *)
Definition ma_call_1 : outcome (NNModule unit) (gmap string (deque (Tensor unit))) :=
  gradfilter_ma (scalar_module 1) None 2 1 "mean" true false.
Definition ma_call_2 : outcome (NNModule unit) (gmap string (deque (Tensor unit))) :=
  gradfilter_ma (scalar_module 1) (out_state ma_call_1) 2 1 "mean" true false.
Definition ma_call_3 : outcome (NNModule unit) (gmap string (deque (Tensor unit))) :=
  gradfilter_ma (scalar_module 1) (out_state ma_call_2) 2 1 "mean" true false.

(** ** Per-parameter readings of a call that returns *)

Section Readings.
Context {Idx : Type}.
Local Open Scope R_scope.

(** The condition of line 24, on the buffer after the append. *)
Definition ma_filters (window_size : Z) (warmup trigger : bool)
    (d : deque (Tensor Idx)) : bool :=
  negb warmup || (Z.of_nat (deque_len d) =? window_size)%Z && negb trigger.

(** Lines 24-31: the parameter as [gradfilter_ma] leaves it, given the buffer
    after the append. *)
Definition ma_grad (window_size : Z) (lamb : R) (filter_type : string)
    (warmup trigger : bool) (p : Param Idx) (g : Tensor Idx)
    (d : deque (Tensor Idx)) : Param Idx :=
  if ma_filters window_size warmup trigger d then
    match aggregate filter_type d with
    | inr avg => set_grad p (tadd g (tscale avg lamb))
    | inl _ => p
    end
  else p.

(** Line 49 and line 50 of [gradfilter_ema]. *)
Definition ema_acc (alpha : R) (g acc : Tensor Idx) : Tensor Idx :=
  tadd (tscale acc alpha) (tscale g (1 - alpha)).

Definition ema_grad (lamb : R) (p : Param Idx) (g acc : Tensor Idx) : Param Idx :=
  set_grad p (tdivs (tadd g (tscale acc lamb)) (1 + lamb)).

(** Line 110 of [gradfilter_kalman]. *)
Definition kalman_grad (lamb : R) (p : Param Idx) (g : Tensor Idx)
    (e : KalmanEntry Idx) : Param Idx :=
  set_grad p (tadd g (tscale (kx e) lamb)).

(** The module a returning loop leaves: every selected parameter with a
    state entry [e] becomes [out p g (upd g e)], the others stay. *)
Definition call_image {V : Type} (out : Param Idx -> Tensor Idx -> V -> Param Idx)
    (upd : Tensor Idx -> V -> V) (st : gmap string V) (m : NNModule Idx)
    : NNModule Idx :=
  map (fun np =>
         (np.1, match selected np.2, st !! np.1 with
                | Some g, Some e => out np.2 g (upd g e)
                | _, _ => np.2
                end)) m.

(** [ma_calls m ... k]: the variable [grads] after [k] calls of
    [gradfilter_ma], the gradients of [m] in place before each call. *)
Fixpoint ma_calls (m : NNModule Idx) (window_size : Z) (lamb : R)
    (filter_type : string) (warmup trigger : bool) (k : nat)
    : option (gmap string (deque (Tensor Idx))) :=
  match k with
  | O => None
  | S k' =>
      out_state (gradfilter_ma m
                   (ma_calls m window_size lamb filter_type warmup trigger k')
                   window_size lamb filter_type warmup trigger)
  end.

(** A parameter with its gradient multiplied by [c]. *)
Definition scale_grad (c : R) (np : string * Param Idx) : string * Param Idx :=
  (np.1, match selected np.2 with
         | Some g => set_grad np.2 (tscale g c)
         | None => np.2
         end).

End Readings.

(** ** The states a call starts from, and the divisor of the Kalman gain *)

Section Starts.
Context {Idx : Type}.
Local Open Scope R_scope.

(** Lines 16-17 of [gradfilter_ma]: the dictionary the loop starts from,
    the caller's or a fresh one (whose creation may raise). *)
Definition ma_start (window_size : Z) (m : NNModule Idx)
    (grads : option (gmap string (deque (Tensor Idx))))
    : exn + gmap string (deque (Tensor Idx)) :=
  match grads with Some g => inr g | None => ma_init window_size m end.




End Starts.

(** ** One element of the update lines, over any arithmetic

    The update lines of [gradfilter_kalman], [gradfilter_ema] and
    [gradfilter_ma] (sum mode) for one tensor element, over an arithmetic
    given by its operations.  Over the reals they are the elementwise
    content of [kalman_body], [ema_body] and [ma_body].  Over binary64
    floats they are what the source computes on an element of a float64
    tensor with Python [float] hyper-parameters: every operation of these
    lines is then one correctly rounded IEEE 754 operation. *)

Record arithmetic (F : Type) : Type := Arith {
  a_add : F -> F -> F;
  a_sub : F -> F -> F;
  a_mul : F -> F -> F;
  a_div : F -> F -> F;
  a_zero : F;
  a_one : F
}.
Arguments Arith {F} _ _ _ _ _ _.
Arguments a_add {F} _ _ _.
Arguments a_sub {F} _ _ _.
Arguments a_mul {F} _ _ _.
Arguments a_div {F} _ _ _.
Arguments a_zero {F} _.
Arguments a_one {F} _.

Definition real_arith : arithmetic R := Arith Rplus Rminus Rmult Rdiv 0%R 1%R.

Definition float_arith : arithmetic float :=
  Arith PrimFloat.add PrimFloat.sub PrimFloat.mul PrimFloat.div 0%float 1%float.

Section Element.
Context {F : Type} (ar : arithmetic F).

(** Lines 95-110 of [gradfilter_kalman] on the element [x], [P] of an
    entry and the element [grad] of the gradient: the new [x], the new [P]
    and the new gradient. *)
Definition kalman_element (x P grad process_noise measurement_noise lamb : F)
    : F * F * F :=
  let x_pred := x in
  let P_pred := a_add ar P process_noise in
  let y := a_sub ar grad x_pred in
  let S := a_add ar P_pred measurement_noise in
  let K := a_div ar P_pred S in
  let x' := a_add ar x_pred (a_mul ar K y) in
  let P' := a_mul ar (a_sub ar (a_one ar) K) P_pred in
  (x', P', a_add ar grad (a_mul ar x' lamb)).

(** The same on a first call: lines 85-86 make [x] an element of
    [zeros_like] and [P] an element of [ones_like * measurement_noise]. *)
Definition kalman_first_element (grad process_noise measurement_noise lamb : F)
    : F * F * F :=
  kalman_element (a_zero ar) (a_mul ar (a_one ar) measurement_noise)
    grad process_noise measurement_noise lamb.

(** Lines 49-50 of [gradfilter_ema]: the new accumulator and the new
    gradient. *)
Definition ema_element (acc grad alpha lamb : F) : F * F :=
  let acc' := a_add ar (a_mul ar acc alpha)
                       (a_mul ar grad (a_sub ar (a_one ar) alpha)) in
  (acc', a_div ar (a_add ar grad (a_mul ar acc' lamb)) (a_add ar (a_one ar) lamb)).

(** The same on a first call: line 44 seeds the accumulator with the
    gradient. *)
Definition ema_first_element (grad alpha lamb : F) : F * F :=
  ema_element grad grad alpha lamb.

(** Lines 28 and 31 of [gradfilter_ma] ([filter_type = "sum"]) on the
    elements [window] of the buffer after the append: the new gradient. *)
Definition ma_sum_element (window : list F) (grad lamb : F) : F :=
  a_add ar grad (a_mul ar (fold_left (a_add ar) window (a_zero ar)) lamb).

End Element.

(** ** The data set of [main_old.py] ([multiplication_mod_p_data])

    Integer tensors are lists of [Z]; the wrap-around of 64-bit integers is
    not modelled (the products stay far below it for the values of [p] in
    use). *)

(** [torch.arange(lo, hi)]: [lo, lo+1, ..., hi-1]; [hi < lo] is a
    [RuntimeError] ([None]). *)
Definition arange (lo hi : Z) : option (list Z) :=
  if (hi <? lo)%Z then None else Some (seqZ lo (hi - lo)).

(** [torch.cartesian_prod(x, y)]: the pairs, those of the first [x] first. *)
Definition cartesian_prod (xs ys : list Z) : list (Z * Z) :=
  flat_map (fun x => map (fun y => (x, y)) ys) xs.

(** The five rows [x], [op], [y], [eq], [result] of the stacked tensor. *)
Definition multiplication_mod_p_data (p eq_token op_token : Z)
    : option (list (list Z)) :=
  match arange 0 p, arange 1 p with
  | Some xs, Some ys =>
      let xy := cartesian_prod xs ys in
      let x := xy.*1 in
      let y := xy.*2 in
      let eq := map (fun _ => 1 * eq_token)%Z x in
      let op := map (fun _ => 1 * op_token)%Z x in
      let result := zip_with (fun a b => (a ^ 2 + a * b + b ^ 2) mod p)%Z x y in
      Some [x; op; y; eq; result]
  | _, _ => None
  end.

(** ** The learning-rate factor and the saving schedule of the training loops *)

(** [lambda update: 1 if update > 10 else update / 10] *)
Definition lr_lambda (update : Z) : R :=
  if (update >? 10)%Z then 1%R else (IZR update / 10)%R.

(** [do_save] of [main_transformer.py] (lines 244-247); [num_epochs] is
    [int(args.budget) // steps_per_epoch]. *)
Definition do_save (save_weights : bool) (e num_epochs : Z) : bool :=
  if save_weights then
    (e <=? 100)%Z || ((e >? 100)%Z && ((e + 1) mod 100 =? 0)%Z)
    || (e =? num_epochs - 1)%Z
  else ((e + 10) mod 100 =? 0)%Z.

(** ** [compute_sparsity] of [main_old.py]

    A parameter is here the finite list of its elements, so that [numel]
    and the count of zeros exist. *)
Definition count_zeros (t : list R) : nat :=
  length (List.filter (fun x => if Req_dec_T x 0 then true else false) t).

Definition compute_sparsity (params : list (list R)) : exn + R :=
  let total_params := fold_left (fun acc t => acc + length t)%nat params 0%nat in
  let zero_params := fold_left (fun acc t => acc + count_zeros t)%nat params 0%nat in
  if Nat.eqb total_params 0 then inl ZeroDivisionError
  else inr (INR zero_params / INR total_params)%R.

(** ** The label suffix of [main_old.py] (lines 368-382)

    The formatted pieces ([window_size_str], [alpha_str], ...) are taken as
    given strings. *)
Definition filter_suffix (filter_kind window_size_str alpha_str lamb_str beta_str
    pp_str kalman_str : string) : exn + string :=
  if String.eqb filter_kind "none" then inr ""%string
  else if String.eqb filter_kind "ma" then inr (window_size_str ++ lamb_str)%string
  else if String.eqb filter_kind "ema" then inr (alpha_str ++ lamb_str)%string
  else if String.eqb filter_kind "smoother" then inr (beta_str ++ pp_str)%string
  else if String.eqb filter_kind "kalman" then inr (kalman_str ++ lamb_str)%string
  else inl (ValueError ("Unrecognized filter type " ++ filter_kind)%string).

(** The choices of [--filter] on the old command line (line 344). *)
Definition filter_choices : list string :=
  ["none"; "ma"; "ema"; "fir"; "smoother"; "kalman"]%string.

(** ** The command line built by [test_mlp_LoRA.py] (lines 49-57)

    A configuration value is a [bool] or anything else, kept as its
    [str(value)]. *)
Inductive config_value : Type :=
| CBool (b : bool)
| CValue (repr : string).

Definition cmd_of_entry (kv : string * config_value) : list string :=
  match kv.2 with
  | CBool true => [("--" ++ kv.1)%string]
  | CBool false => []
  | CValue repr => [("--" ++ kv.1)%string; repr]
  end.

Definition experiment_cmd (config : list (string * config_value)) : list string :=
  fold_left (fun cmd kv => cmd ++ cmd_of_entry kv) config
    ["python"; "main_mlp_LoRA.py"]%string.

(** * Properties *)

(** ** Tensors and the parameter loop *)

Section LoopFacts.
Context {Idx : Type}.
Implicit Types (p : Param Idx) (g : Tensor Idx) (m : NNModule Idx).

Lemma tensor_ext (a b : Tensor Idx) : (forall i, a i = b i) -> a = b.
Proof. intros H. now apply functional_extensionality. Qed.

Lemma set_grad_same p g : selected p = Some g -> set_grad p g = p.
Proof.
  destruct p as [rg d gr]; unfold selected, set_grad; simpl.
  destruct rg; [intros ->; reflexivity | discriminate].
Qed.

Lemma set_grad_pointwise p g g' :
  selected p = Some g -> (forall i, g' i = g i) -> set_grad p g' = p.
Proof.
  intros Hsel Hpt. rewrite (tensor_ext g' g Hpt). now apply set_grad_same.
Qed.

Lemma selected_grad p g : selected p = Some g -> grad p = Some g.
Proof. unfold selected. destruct (requires_grad p); [tauto | discriminate]. Qed.

(** A loop whose body hands every parameter back as it got it leaves the
    module as it was, whether it ends by exhaustion or by a raise. *)
Lemma for_params_model_id {S : Type}
    (body : string -> Param Idx -> Tensor Idx -> S -> Param Idx * S * option exn) m :
  (forall n p g st, selected p = Some g -> (body n p g st).1.1 = p) ->
  forall st, (for_params body m st).1.1 = m.
Proof.
  intros Hbody. induction m as [|[n p] rest IH]; intros st; simpl; [reflexivity|].
  destruct (selected p) as [g|] eqn:Hsel.
  - specialize (Hbody n p g st Hsel).
    destruct (body n p g st) as [[p' st'] [e|]]; simpl in *; subst p'; [reflexivity|].
    specialize (IH st'). destruct (for_params body rest st') as [[rest' st''] r].
    simpl in *. now subst rest'.
  - specialize (IH st). destruct (for_params body rest st) as [[rest' st'] r].
    simpl in *. now subst rest'.
Qed.
End LoopFacts.

(** ** Zero gain *)

Section ZeroGain.
Context {Idx : Type}.
Implicit Types (p : Param Idx) (g : Tensor Idx) (m : NNModule Idx).
Local Open Scope R_scope.





(** The update lines of the bodies are the element functions over the
    reals, element by element. *)
Lemma kalman_body_elements (q r lamb : R) n p g (st : gmap string (KalmanEntry Idx)) e :
  st !! n = Some e ->
  kalman_body q r lamb n p g st =
    (set_grad p (fun i => (kalman_element real_arith (kx e i) (kP e i) (g i) q r lamb).2),
     <[n := KEntry
              (fun i => (kalman_element real_arith (kx e i) (kP e i) (g i) q r lamb).1.1)
              (fun i => (kalman_element real_arith (kx e i) (kP e i) (g i) q r lamb).1.2)]>
       st,
     None).
Proof. intros He. unfold kalman_body. rewrite He. reflexivity. Qed.

Lemma kalman_init_elements (q r lamb : R) g (i : Idx) :
  kalman_element real_arith
    (kx (KEntry (tfull 0) (tscale (tfull 1) r)) i)
    (kP (KEntry (tfull 0) (tscale (tfull 1) r)) i) (g i) q r lamb
  = kalman_first_element real_arith (g i) q r lamb.
Proof. reflexivity. Qed.

Lemma ema_body_elements (alpha lamb : R) n p g (st : gmap string (Tensor Idx)) acc :
  st !! n = Some acc ->
  ema_body alpha lamb false n p g st =
    (set_grad p (fun i => (ema_element real_arith (acc i) (g i) alpha lamb).2),
     <[n := fun i => (ema_element real_arith (acc i) (g i) alpha lamb).1]> st,
     None).
Proof. intros Hacc. unfold ema_body. unfold Tensor in *. rewrite Hacc. reflexivity. Qed.

Lemma fold_tadd_element (l : list (Tensor Idx)) (a : Tensor Idx) (i : Idx) :
  fold_left tadd l a i = fold_left Rplus (map (fun t => t i) l) (a i).
Proof.
  revert a. induction l as [|t l IH]; intros a; simpl; [reflexivity|].
  now rewrite IH.
Qed.

Lemma tsum_element (l : list (Tensor Idx)) (i : Idx) :
  tsum l i = fold_left Rplus (map (fun t => t i) l) 0.
Proof. unfold tsum. now rewrite fold_tadd_element. Qed.

Lemma ma_body_sum_elements W (lamb : R) warmup trigger n p g
    (st : gmap string (deque (Tensor Idx))) d :
  st !! n = Some d ->
  negb warmup || (Z.of_nat (deque_len (deque_append d g)) =? W)%Z && negb trigger = true ->
  ma_body W lamb "sum" warmup trigger n p g st =
    (set_grad p (fun i => ma_sum_element real_arith
                            (map (fun t => t i) (items (deque_append d g))) (g i) lamb),
     <[n := deque_append d g]> st, None).
Proof.
  intros Hd Hcond. unfold ma_body. rewrite Hd. cbn zeta. rewrite Hcond.
  unfold aggregate. simpl. do 3 f_equal. apply tensor_ext; intros i.
  unfold tadd, tscale, ma_sum_element. simpl. now rewrite tsum_element.
Qed.
End ZeroGain.

(** ** Dictionary comprehensions and loops that change nothing *)

Section Comprehension.
Context {Idx : Type} {V : Type}.
Implicit Types (p : Param Idx) (g : Tensor Idx) (m : NNModule Idx).
Variable f : Param Idx -> Tensor Idx -> V.

Lemma comprehension_frame_from m n (acc : gmap string V) :
  (forall p, (n, p) ∈ m -> selected p = None) ->
  comprehension_from f acc m !! n = acc !! n.
Proof.
  unfold comprehension_from.
  revert acc. induction m as [|[n' p'] rest IH]; intros acc Hno; simpl; [reflexivity|].
  rewrite IH by (intros p Hin; apply Hno; now right).
  destruct (selected p') as [g|] eqn:Hsel; [|reflexivity].
  destruct (decide (n' = n)) as [->|Hne].
  - rewrite (Hno p') in Hsel by left. discriminate.
  - now rewrite lookup_insert_ne.
Qed.

Lemma comprehension_lookup_from m n p g (acc : gmap string V) :
  NoDup m.*1 -> (n, p) ∈ m -> selected p = Some g ->
  comprehension_from f acc m !! n = Some (f p g).
Proof.
  revert acc. induction m as [|[n' p'] rest IH]; intros acc Hnd Hin Hsel.
  - inversion Hin.
  - simpl in Hnd. apply NoDup_cons in Hnd as [Hnotin Hnd].
    change (comprehension_from f acc ((n', p') :: rest))
      with (comprehension_from f
              match selected p' with Some g0 => <[n' := f p' g0]> acc | None => acc end
              rest).
    apply elem_of_cons in Hin as [Heq|Hin].
    + injection Heq as -> ->.
      rewrite comprehension_frame_from.
      * rewrite Hsel. apply lookup_insert_eq.
      * intros p0 Hin0. exfalso. apply Hnotin.
        apply list_elem_of_fmap. now exists (n', p0).
    + now apply IH.
Qed.

Lemma comprehension_lookup m n p g :
  NoDup m.*1 -> (n, p) ∈ m -> selected p = Some g ->
  comprehension f m !! n = Some (f p g).
Proof. apply comprehension_lookup_from. Qed.

Lemma comprehension_frame m n :
  (forall p, (n, p) ∈ m -> selected p = None) ->
  comprehension f m !! n = None.
Proof.
  intros H. unfold comprehension.
  etransitivity; [apply (comprehension_frame_from m n ∅ H)|]. apply lookup_empty.
Qed.
End Comprehension.

Section Noop.
Context {Idx : Type}.
Implicit Types (p : Param Idx) (g : Tensor Idx) (m : NNModule Idx).

(** A body that, in state [st], hands back parameter and state untouched
    and raises nothing, makes the whole loop do nothing. *)
Lemma for_params_noop {S : Type}
    (body : string -> Param Idx -> Tensor Idx -> S -> Param Idx * S * option exn)
    m (st : S) :
  (forall n p g, (n, p) ∈ m -> selected p = Some g -> body n p g st = (p, st, None)) ->
  for_params body m st = (m, st, None).
Proof.
  induction m as [|[n p] rest IH]; intros Hbody; simpl; [reflexivity|].
  assert (for_params body rest st = (rest, st, None)) as Hrest
    by (apply IH; intros n' p' g' Hin; apply Hbody; now right).
  destruct (selected p) as [g|] eqn:Hsel.
  - rewrite (Hbody n p g) by (left || assumption). now rewrite Hrest.
  - now rewrite Hrest.
Qed.

(** A unique name among the parameters of a module. *)
Lemma unique_name_unselected m k n p :
  NoDup m.*1 -> m !! k = Some (n, p) -> selected p = None ->
  forall p', (n, p') ∈ m -> selected p' = None.
Proof.
  unfold NNModule in *. intros Hnd Hk Hsel p' Hin.
  apply list_elem_of_lookup in Hin as [k' Hk'].
  assert (k = k') as <-.
  { apply (NoDup_lookup (m.*1) k k' n Hnd); rewrite list_lookup_fmap.
    - now rewrite Hk.
    - now rewrite Hk'. }
  rewrite Hk in Hk'. now injection Hk' as <-.
Qed.
End Noop.

(** ** What the loop does to parameters it does not select *)

Section Frame.
Context {Idx : Type}.
Implicit Types (p : Param Idx) (g : Tensor Idx) (m : NNModule Idx).

(** The loop with a state that every body application hands back. *)
Lemma for_params_fixed_state {S : Type}
    (body : string -> Param Idx -> Tensor Idx -> S -> Param Idx * S * option exn)
    m (st : S) :
  (forall n p g, (n, p) ∈ m -> selected p = Some g ->
                 (body n p g st).1.2 = st /\ (body n p g st).2 = None) ->
  for_params body m st =
    (map (fun np => (np.1, match selected np.2 with
                           | Some g => (body np.1 np.2 g st).1.1
                           | None => np.2
                           end)) m, st, None).
Proof.
  induction m as [|[n p] rest IH]; intros Hbody; simpl; [reflexivity|].
  assert (Hrest : for_params body rest st = (map _ rest, st, None))
    by (apply IH; intros n' p' g' Hin; apply Hbody; now right).
  destruct (selected p) as [g|] eqn:Hsel.
  - destruct (Hbody n p g) as [Hst Hr]; [left|assumption|].
    destruct (body n p g st) as [[p' st'] r]; simpl in *; subst st' r.
    now rewrite Hrest.
  - now rewrite Hrest.
Qed.

(** An unselected parameter comes out of the loop as it went in, at its
    place, whatever the body does and however the loop ends. *)
Lemma for_params_unselected_kept {S : Type}
    (body : string -> Param Idx -> Tensor Idx -> S -> Param Idx * S * option exn)
    m k n p :
  m !! k = Some (n, p) -> selected p = None ->
  forall st, (for_params body m st).1.1 !! k = Some (n, p).
Proof.
  unfold NNModule in *.
  revert k. induction m as [|[n' p'] rest IH]; intros k Hk Hsel st; [inversion Hk|].
  simpl. destruct k as [|k]; simpl in Hk.
  - injection Hk as -> ->. rewrite Hsel.
    now destruct (for_params body rest st) as [[rest' st'] r].
  - destruct (selected p') as [g|].
    + destruct (body n' p' g st) as [[p'' st'] [e|]]; simpl; [assumption|].
      specialize (IH k Hk Hsel st').
      now destruct (for_params body rest st') as [[rest' st''] r].
    + specialize (IH k Hk Hsel st).
      now destruct (for_params body rest st) as [[rest' st'] r].
Qed.

(** Taking an unselected parameter out of the module changes neither the
    state the loop ends in nor whether and what it raises. *)
Lemma for_params_delete_unselected {S : Type}
    (body : string -> Param Idx -> Tensor Idx -> S -> Param Idx * S * option exn)
    m k n p :
  m !! k = Some (n, p) -> selected p = None ->
  forall st, (for_params body (delete k m) st).1.2 = (for_params body m st).1.2 /\
             (for_params body (delete k m) st).2 = (for_params body m st).2.
Proof.
  unfold NNModule in *.
  revert k. induction m as [|[n' p'] rest IH]; intros k Hk Hsel st; [inversion Hk|].
  destruct k as [|k]; simpl in Hk.
  - injection Hk as -> ->. simpl. rewrite Hsel.
    now destruct (for_params body rest st) as [[rest' st'] r].
  - simpl. destruct (selected p') as [g|].
    + destruct (body n' p' g st) as [[p'' st'] [e|]]; simpl; [easy|].
      specialize (IH k Hk Hsel st').
      destruct (for_params body (delete k rest) st') as [[? ?] ?].
      now destruct (for_params body rest st') as [[? ?] ?].
    + specialize (IH k Hk Hsel st).
      destruct (for_params body (delete k rest) st) as [[? ?] ?].
      now destruct (for_params body rest st) as [[? ?] ?].
Qed.

Lemma for_params_state_frame {V : Type}
    (body : string -> Param Idx -> Tensor Idx -> gmap string V ->
            Param Idx * gmap string V * option exn) m n0 :
  body_local body ->
  (forall p, (n0, p) ∈ m -> selected p = None) ->
  forall st, (for_params body m st).1.2 !! n0 = st !! n0.
Proof.
  intros Hloc. induction m as [|[n p] rest IH]; intros Hno st; simpl; [reflexivity|].
  assert (Hrest : forall st', (for_params body rest st').1.2 !! n0 = st' !! n0)
    by (apply IH; intros p' Hin; apply Hno; now right).
  destruct (selected p) as [g|] eqn:Hsel.
  - assert (n0 ≠ n) as Hne.
    { intros ->. rewrite (Hno p) in Hsel by left. discriminate. }
    specialize (Hloc n p g st n0 Hne).
    destruct (body n p g st) as [[p' st'] [e|]]; simpl in *; [assumption|].
    specialize (Hrest st').
    destruct (for_params body rest st') as [[rest' st''] r]. simpl in *. congruence.
  - specialize (Hrest st).
    now destruct (for_params body rest st) as [[rest' st'] r].
Qed.

Lemma ma_body_local W lamb ft warmup trigger :
  body_local (@ma_body Idx W lamb ft warmup trigger).
Proof.
  intros n p g st n' Hne. unfold ma_body.
  destruct (st !! n) as [d|]; [|reflexivity].
  destruct (negb warmup || _ && negb trigger);
    [destruct (aggregate ft _)|]; simpl; now rewrite lookup_insert_ne.
Qed.

Lemma ema_body_local alpha lamb trigger :
  body_local (@ema_body Idx alpha lamb trigger).
Proof.
  intros n p g st n' Hne. unfold ema_body.
  destruct (negb trigger); [|reflexivity].
  destruct (st !! n) as [acc|]; [|reflexivity]. simpl. now rewrite lookup_insert_ne.
Qed.

Lemma kalman_body_local (q r lamb : R) :
  body_local (@kalman_body Idx q r lamb).
Proof.
  intros n p g st n' Hne. unfold kalman_body.
  destruct (st !! n) as [e|]; [|reflexivity]. simpl. now rewrite lookup_insert_ne.
Qed.

(** The comprehension does not see an unselected parameter. *)
Lemma comprehension_delete_unselected {V : Type} (f : Param Idx -> Tensor Idx -> V)
    m k n p :
  m !! k = Some (n, p) -> selected p = None ->
  comprehension f (delete k m) = comprehension f m.
Proof.
  unfold NNModule in *. unfold comprehension, comprehension_from.
  generalize (∅ : gmap string V).
  revert k. induction m as [|[n' p'] rest IH]; intros k acc Hk Hsel; [inversion Hk|].
  destruct k as [|k]; simpl in Hk.
  - injection Hk as -> ->. simpl. now rewrite Hsel.
  - simpl. now apply IH.
Qed.

Lemma existsb_delete_unselected m k n p :
  m !! k = Some (n, p) -> selected p = None ->
  existsb (fun np => bool_decide (is_Some (selected np.2))) (delete k m) =
  existsb (fun np => bool_decide (is_Some (selected np.2))) m.
Proof.
  unfold NNModule in *.
  revert k. induction m as [|[n' p'] rest IH]; intros k Hk Hsel; [inversion Hk|].
  destruct k as [|k]; simpl in Hk.
  - injection Hk as -> ->. simpl. rewrite Hsel.
    rewrite bool_decide_eq_false_2; [reflexivity|]. now intros [? ?].
  - simpl. f_equal. now apply IH.
Qed.
End Frame.

(** ** The exponential filter: trigger and seed *)

Section Exponential.
Context {Idx : Type}.
Implicit Types (p : Param Idx) (g : Tensor Idx) (m : NNModule Idx).
Local Open Scope R_scope.

(** C5.  With [trigger = true], [gradfilter_ema] called with an existing
    state does nothing at all, for every [alpha] and [lamb]: the module
    (every gradient) and the state dictionary (every accumulator) come back
    as they were, and nothing is raised. *)
Theorem C5_ema_trigger_bypass m (st : gmap string (Tensor Idx)) (alpha lamb : R) :
  gradfilter_ema m (Some st) alpha lamb true = Outcome m (Some st) None.
Proof.
  unfold gradfilter_ema.
  rewrite (for_params_noop (ema_body alpha lamb true) m st); [reflexivity|].
  intros n p g _ _. reflexivity.
Qed.

(** On the seed state the blend gives the accumulator back. *)
Lemma ema_blend_seed g (alpha : R) :
  tadd (tscale g alpha) (tscale g (1 - alpha)) = g.
Proof. apply tensor_ext; intros i. unfold tadd, tscale. ring. Qed.

Lemma ema_first_call_state m (alpha lamb : R) :
  NoDup m.*1 ->
  out_state (gradfilter_ema m None alpha lamb false)
    = Some (comprehension (fun _ gr => gr) m) /\
  out_raised (gradfilter_ema m None alpha lamb false) = None.
Proof.
  intros Hnd. unfold gradfilter_ema.
  rewrite for_params_fixed_state; [split; reflexivity|].
  intros n p g Hin Hsel. unfold ema_body; simpl.
  rewrite (comprehension_lookup (fun _ gr => gr) m n p g Hnd Hin Hsel). simpl.
  split; [|reflexivity].
  rewrite ema_blend_seed. apply insert_id.
  exact (comprehension_lookup (fun _ gr => gr) m n p g Hnd Hin Hsel).
Qed.

(** C6 (as amended).  On the first call of [gradfilter_ema] (no state,
    [trigger = false]) the call returns; line 44 seeds the accumulator of a
    parameter with its raw input gradient [g], and line 49 then blends the
    seed with [g] once: the accumulator stored is, element by element,
    [g * alpha + g * (1 - alpha)].  Over the reals that is [g] again, for
    every [alpha]. *)
Theorem C6_ema_first_call_seed m (alpha lamb : R) n p g :
  NoDup m.*1 -> (n, p) ∈ m -> selected p = Some g ->
  out_raised (gradfilter_ema m None alpha lamb false) = None /\
  comprehension (fun _ gr => gr) m !! n = Some g /\
  exists st acc,
    out_state (gradfilter_ema m None alpha lamb false) = Some st /\
    st !! n = Some acc /\
    (forall i, acc i = (ema_first_element real_arith (g i) alpha lamb).1) /\
    acc = g.
Proof.
  intros Hnd Hin Hsel.
  destruct (ema_first_call_state m alpha lamb Hnd) as [Hst Hr].
  pose proof (comprehension_lookup (fun _ gr => gr) m n p g Hnd Hin Hsel) as Hseed.
  split; [exact Hr|]. split; [exact Hseed|].
  exists (comprehension (fun _ gr => gr) m), g.
  split; [exact Hst|]. split; [exact Hseed|]. split; [|reflexivity].
  intros i. unfold ema_first_element, ema_element. simpl. ring.
Qed.
End Exponential.

(** ** The smoother *)

Section Smoother.
Context {Idx : Type}.
Implicit Types (p : Param Idx) (g : Tensor Idx) (m : NNModule Idx).
Local Open Scope R_scope.

Lemma smoother_shadow_fixed p (beta : R) :
  tadd (data p) (smul beta (tsub (data p) (data p))) = data p.
Proof. apply tensor_ext; intros i. unfold tadd, smul, tsub. ring. Qed.

Lemma smoother_pushback_zero p (pp : R) :
  smul pp (tsub (data p) (data p)) = tfull 0.
Proof. apply tensor_ext; intros i. unfold smul, tsub, tfull. ring. Qed.

Lemma smoother_body_noop m (beta pp : R) n p g :
  NoDup m.*1 -> (n, p) ∈ m -> selected p = Some g ->
  smoother_body beta pp n p g (smoother_z m) = (p, smoother_z m, None).
Proof.
  intros Hnd Hin Hsel.
  pose proof (comprehension_lookup (fun q _ => data q) m n p g Hnd Hin Hsel) as Hz.
  unfold smoother_body, smoother_z. rewrite Hz.
  rewrite smoother_shadow_fixed, smoother_pushback_zero.
  rewrite insert_id by exact Hz.
  rewrite (set_grad_pointwise p g (tsub g (tfull 0)) Hsel); [reflexivity|].
  intros i. unfold tsub, tfull. ring.
Qed.

(** C3.  [smoother] is an identity filter.  For a module with distinct
    parameter names, every [beta] and [pp] and every state (absent on the
    first call, present later): [z], rebuilt inside the call, holds each
    selected parameter's value; the shadow update writes that same value
    back; the push-back term [pp * (value - z)] is zero; the loop leaves
    module and [z] as they were and raises nothing; and the call returns the
    module unchanged together with the state it was given, or on the first
    call the snapshot of the current gradients. *)
Theorem C3_smoother_is_identity m (grads : option (gmap string (Tensor Idx)))
    (beta pp : R) :
  NoDup m.*1 ->
  (forall n p g, (n, p) ∈ m -> selected p = Some g ->
      smoother_z m !! n = Some (data p) /\
      (forall zn', (smoother_body beta pp n p g (smoother_z m)).1.2 !! n = Some zn' ->
                   zn' = data p /\ smul pp (tsub (data p) zn') = tfull 0) /\
      smoother_body beta pp n p g (smoother_z m) = (p, smoother_z m, None)) /\
  for_params (smoother_body beta pp) m (smoother_z m) = (m, smoother_z m, None) /\
  smoother m grads beta pp =
    Outcome m (Some (match grads with
                     | Some st => st
                     | None => comprehension (fun _ gr => gr) m
                     end)) None /\
  (forall n p g, (n, p) ∈ m -> selected p = Some g ->
      comprehension (fun _ gr => gr) m !! n = Some g).
Proof.
  intros Hnd.
  assert (Hloop : for_params (smoother_body beta pp) m (smoother_z m)
                  = (m, smoother_z m, None)).
  { apply for_params_noop. intros n p g Hin Hsel.
    now apply smoother_body_noop. }
  split; [|split; [exact Hloop|split]].
  - intros n p g Hin Hsel.
    pose proof (comprehension_lookup (fun q _ => data q) m n p g Hnd Hin Hsel) as Hz.
    pose proof (smoother_body_noop m beta pp n p g Hnd Hin Hsel) as Hbody.
    split; [exact Hz|]. split; [|exact Hbody].
    intros zn' Hzn'. rewrite Hbody in Hzn'. simpl in Hzn'.
    unfold smoother_z in Hzn'. assert (zn' = data p) as -> by congruence.
    split; [reflexivity|]. apply smoother_pushback_zero.
  - unfold smoother. now rewrite Hloop.
  - intros n p g Hin Hsel.
    exact (comprehension_lookup (fun _ gr => gr) m n p g Hnd Hin Hsel).
Qed.
End Smoother.

(** ** Parameters without a gradient *)

Section Skipped.
Context {Idx : Type}.
Implicit Types (p : Param Idx) (g : Tensor Idx) (m : NNModule Idx).

Lemma loop_skips {V : Type}
    (body : string -> Param Idx -> Tensor Idx -> gmap string V ->
            Param Idx * gmap string V * option exn) m k n p st :
  body_local body ->
  NoDup m.*1 -> m !! k = Some (n, p) -> selected p = None ->
  (for_params body m st).1.1 !! k = Some (n, p) /\
  (for_params body m st).1.2 !! n = st !! n /\
  (for_params body (delete k m) st).1.2 = (for_params body m st).1.2 /\
  (for_params body (delete k m) st).2 = (for_params body m st).2.
Proof.
  intros Hloc Hnd Hk Hsel.
  split; [now apply for_params_unselected_kept|].
  split; [apply for_params_state_frame; [exact Hloc|];
          now apply (unique_name_unselected m k n p)|].
  now apply (for_params_delete_unselected body m k n p).
Qed.

(** C10.  A parameter that is not trainable or has no gradient is skipped
    by every filter.  For a module with distinct names and such a parameter
    [p] named [n] at place [k], each of the four operations (whatever the
    state and the settings, and however the call ends): leaves [p] in the
    module as it was; leaves the state entry of [n] as it was (none is
    created when the state was absent or had none); and ends with the same
    state and the same raised-or-returned status as the call on the module
    without [p], so the parameter's presence is not an error. *)
Theorem C10_unselected_parameter_skipped m k n p :
  NoDup m.*1 -> m !! k = Some (n, p) -> selected p = None ->
  (forall grads W lamb ft warmup trigger,
      let r := gradfilter_ma m grads W lamb ft warmup trigger in
      let r' := gradfilter_ma (delete k m) grads W lamb ft warmup trigger in
      out_model r !! k = Some (n, p) /\ entry (out_state r) n = entry grads n /\
      out_state r' = out_state r /\ out_raised r' = out_raised r) /\
  (forall grads alpha lamb trigger,
      let r := gradfilter_ema m grads alpha lamb trigger in
      let r' := gradfilter_ema (delete k m) grads alpha lamb trigger in
      out_model r !! k = Some (n, p) /\ entry (out_state r) n = entry grads n /\
      out_state r' = out_state r /\ out_raised r' = out_raised r) /\
  (forall grads beta pp,
      let r := smoother m grads beta pp in
      let r' := smoother (delete k m) grads beta pp in
      out_model r !! k = Some (n, p) /\ entry (out_state r) n = entry grads n /\
      out_state r' = out_state r /\ out_raised r' = out_raised r) /\
  (forall grads (q0 r0 lamb : R),
      let r := gradfilter_kalman m grads q0 r0 lamb in
      let r' := gradfilter_kalman (delete k m) grads q0 r0 lamb in
      out_model r !! k = Some (n, p) /\ entry (out_state r) n = entry grads n /\
      out_state r' = out_state r /\ out_raised r' = out_raised r).
Proof.
  intros Hnd Hk Hsel.
  pose proof (unique_name_unselected m k n p Hnd Hk Hsel) as Hname.
  split; [|split; [|split]].
  - intros grads W lamb ft warmup trigger. unfold gradfilter_ma.
    assert (Hinit : ma_init W (delete k m) = ma_init W m).
    { unfold ma_init. rewrite (existsb_delete_unselected m k n p Hk Hsel).
      destruct (existsb _ m); [|reflexivity].
      destruct (deque_new W) as [e|d]; [reflexivity|].
      now rewrite (comprehension_delete_unselected _ m k n p Hk Hsel). }
    rewrite Hinit.
    set (st0 := match grads with Some g => inr g | None => _ end).
    assert (Hentry : forall st, st0 = inr st -> st !! n = entry grads n).
    { subst st0. destruct grads as [g|]; intros st Heq.
      - now injection Heq as ->.
      - unfold ma_init in Heq.
        destruct (existsb _ m); [destruct (deque_new W); [discriminate|]|];
          injection Heq as <-; simpl.
        + now apply comprehension_frame.
        + apply lookup_empty. }
    destruct st0 as [e|st] eqn:Hst0; simpl.
    + repeat split; try assumption.
      subst st0. destruct grads; [discriminate|reflexivity].
    + destruct (loop_skips (ma_body W lamb ft warmup trigger) m k n p st
                  (ma_body_local W lamb ft warmup trigger) Hnd Hk Hsel)
        as (H1 & H2 & H3 & H4).
      destruct (for_params _ (delete k m) st) as [[? ?] ?].
      destruct (for_params _ m st) as [[? ?] ?]. simpl in *.
      rewrite H2, (Hentry st eq_refl). repeat split; congruence.
  - intros grads alpha lamb trigger. unfold gradfilter_ema.
    rewrite (comprehension_delete_unselected _ m k n p Hk Hsel).
    set (st := match grads with Some g => g | None => _ end).
    assert (Hentry : st !! n = entry grads n).
    { subst st. destruct grads; [reflexivity|]. now apply comprehension_frame. }
    destruct (loop_skips (ema_body alpha lamb trigger) m k n p st
                (ema_body_local alpha lamb trigger) Hnd Hk Hsel)
      as (H1 & H2 & H3 & H4).
    destruct (for_params _ (delete k m) st) as [[? ?] ?].
    destruct (for_params _ m st) as [[? ?] ?]. simpl in *.
    rewrite H2, Hentry. repeat split; congruence.
  - intros grads beta pp. unfold smoother.
    rewrite (comprehension_delete_unselected _ m k n p Hk Hsel).
    set (st := match grads with Some g => g | None => _ end).
    assert (Hentry : st !! n = entry grads n).
    { subst st. destruct grads; [reflexivity|]. now apply comprehension_frame. }
    unfold smoother_z.
    rewrite (comprehension_delete_unselected _ m k n p Hk Hsel).
    pose proof (for_params_unselected_kept (smoother_body beta pp) m k n p Hk Hsel
                  (comprehension (fun q _ => data q) m)) as H1.
    destruct (for_params_delete_unselected (smoother_body beta pp) m k n p Hk Hsel
                (comprehension (fun q _ => data q) m)) as [_ H4].
    destruct (for_params _ (delete k m) _) as [[? ?] ?].
    destruct (for_params _ m _) as [[? ?] ?]. simpl in *.
    repeat split; congruence.
  - intros grads q0 r0 lamb. unfold gradfilter_kalman, kalman_init.
    rewrite (comprehension_delete_unselected _ m k n p Hk Hsel).
    set (st := match grads with Some g => g | None => _ end).
    assert (Hentry : st !! n = entry grads n).
    { subst st. destruct grads; [reflexivity|]. now apply comprehension_frame. }
    destruct (loop_skips (kalman_body q0 r0 lamb) m k n p st
                (kalman_body_local q0 r0 lamb) Hnd Hk Hsel)
      as (H1 & H2 & H3 & H4).
    destruct (for_params _ (delete k m) st) as [[? ?] ?].
    destruct (for_params _ m st) as [[? ?] ?]. simpl in *.
    rewrite H2, Hentry. repeat split; congruence.
Qed.
End Skipped.

(** ** The moving-average filter *)

Section MovingAverage.
Context {Idx : Type}.
Implicit Types (p : Param Idx) (g : Tensor Idx) (m : NNModule Idx).
Local Open Scope R_scope.

Lemma mean_times_length (d : deque (Tensor Idx)) :
  deque_len d ≠ 0%nat ->
  tscale (tdivs (tsum (items d)) (INR (deque_len d))) (INR (deque_len d))
  = tsum (items d).
Proof.
  intros Hlen. apply tensor_ext; intros i. unfold tscale, tdivs. field.
  now apply not_0_INR.
Qed.

(** C8.  On the same window buffer, whenever the mean aggregate exists
    (the buffer is not empty) the sum aggregate is the mean aggregate
    multiplied by the buffer length. *)
Theorem C8_sum_is_mean_times_length (d : deque (Tensor Idx)) (avg : Tensor Idx) :
  aggregate "mean" d = inr avg ->
  aggregate "sum" d = inr (tscale avg (INR (deque_len d))).
Proof.
  unfold aggregate. simpl.
  destruct (Nat.eqb (deque_len d) 0) eqn:Hlen; [discriminate|].
  intros [= <-]. apply Nat.eqb_neq in Hlen.
  now rewrite (mean_times_length d Hlen).
Qed.

(** With warmup on and the trigger set, the body appends the snapshot and
    leaves the gradient alone. *)
Lemma ma_body_trigger_warmup W (lamb : R) ft n p g
    (st : gmap string (deque (Tensor Idx))) d :
  st !! n = Some d ->
  ma_body W lamb ft true true n p g st = (p, <[n := deque_append d g]> st, None).
Proof.
  intros Hd. unfold ma_body. rewrite Hd. simpl.
  now rewrite andb_false_r.
Qed.

Lemma aggregate_unrecognized ft (d : deque (Tensor Idx)) :
  ft ≠ "mean" -> ft ≠ "sum" ->
  aggregate ft d = inl (ValueError ("Unrecognized filter_type " ++ ft)).
Proof.
  intros Hmean Hsum. unfold aggregate.
  apply String.eqb_neq in Hmean, Hsum. now rewrite Hmean, Hsum.
Qed.

Lemma ma_body_unrecognized W (lamb : R) ft warmup trigger n p g
    (st : gmap string (deque (Tensor Idx))) d :
  ft ≠ "mean" -> ft ≠ "sum" -> st !! n = Some d ->
  ma_body W lamb ft warmup trigger n p g st =
    (p, <[n := deque_append d g]> st,
     if negb warmup || (Z.of_nat (deque_len (deque_append d g)) =? W)%Z && negb trigger
     then Some (ValueError ("Unrecognized filter_type " ++ ft)) else None).
Proof.
  intros Hmean Hsum Hd. unfold ma_body. rewrite Hd. simpl.
  destruct (negb warmup || _ && negb trigger); [|reflexivity].
  now rewrite aggregate_unrecognized.
Qed.

Lemma ma_unrecognized_keeps_gradients m grads W (lamb : R) ft warmup trigger :
  ft ≠ "mean" -> ft ≠ "sum" ->
  out_model (gradfilter_ma m grads W lamb ft warmup trigger) = m.
Proof.
  intros Hmean Hsum. unfold gradfilter_ma.
  destruct (match grads with Some g => inr g | None => ma_init W m end) as [e|st];
    [reflexivity|].
  assert (H : (for_params (ma_body W lamb ft warmup trigger) m st).1.1 = m).
  { apply for_params_model_id. intros n p g s _. unfold ma_body.
    destruct (s !! n) as [d|]; [|reflexivity].
    destruct (negb warmup || _ && negb trigger); [|reflexivity].
    now rewrite aggregate_unrecognized. }
  now destruct (for_params _ m st) as [[m' g'] r].
Qed.

(** A first call with a window size that [deque] accepts starts from one
    empty buffer per selected parameter. *)
Lemma ma_init_entries m W :
  NoDup m.*1 -> (0 <= W)%Z ->
  exists st0, ma_init W m = inr st0 /\
    forall n p g, (n, p) ∈ m -> selected p = Some g ->
                  st0 !! n = Some (Deque (Some (Z.to_nat W)) []).
Proof.
  intros Hnd HW. unfold ma_init, deque_new.
  destruct (Z.ltb_spec W 0) as [Hneg|_]; [lia|].
  destruct (existsb _ m) eqn:Hex.
  - eexists; split; [reflexivity|]. intros n p g Hin Hsel.
    exact (comprehension_lookup _ m n p g Hnd Hin Hsel).
  - exists ∅. split; [reflexivity|]. intros n p g Hin Hsel. exfalso.
    assert (existsb (fun np : string * Param Idx =>
                       bool_decide (is_Some (selected np.2))) m = true) as Htrue.
    { apply existsb_exists. exists (n, p). split; [now apply list_elem_of_In|].
      apply bool_decide_eq_true. simpl. rewrite Hsel. now eexists. }
    congruence.
Qed.
End MovingAverage.

(** ** The filter selection *)

Section Dispatch.
Context {Idx : Type}.
Implicit Types (p : Param Idx) (g : Tensor Idx) (m : NNModule Idx).

Lemma filter_step_unrecognized (args : Args) (i : Z) m
    (grads : option (FilterState Idx)) :
  args_filter args ≠ "none" -> args_filter args ≠ "ma" ->
  args_filter args ≠ "ema" -> args_filter args ≠ "smoother" ->
  args_filter args ≠ "kalman" ->
  filter_step args i m grads =
    Outcome m grads
      (Some (ValueError ("Invalid update filter type `" ++ args_filter args ++ "`"))).
Proof.
  intros H1 H2 H3 H4 H5. unfold filter_step.
  apply String.eqb_neq in H1, H2, H3, H4, H5.
  now rewrite H1, H2, H3, H4, H5.
Qed.

Lemma for_params_app_returned {S : Type}
    (body : string -> Param Idx -> Tensor Idx -> S -> Param Idx * S * option exn)
    (pre pre' l : NNModule Idx) (st st1 : S) :
  for_params body pre st = (pre', st1, None) ->
  for_params body (pre ++ l) st =
    let '(l', st2, r) := for_params body l st1 in (pre' ++ l', st2, r).
Proof.
  unfold NNModule in *.
  revert pre' st. induction pre as [|[n p] rest IH]; intros pre' st Hpre.
  - simpl in Hpre. injection Hpre as <- <-. simpl.
    now destruct (for_params body l st) as [[l' st2] r].
  - simpl in Hpre |- *. destruct (selected p) as [g|].
    + destruct (body n p g st) as [[p' st'] [e|]]; [discriminate Hpre|].
      destruct (for_params body rest st') as [[rest' st''] r'] eqn:Hrest.
      injection Hpre as <- <- ->.
      rewrite (IH rest' st' Hrest).
      now destruct (for_params body l st'') as [[l' st2] r].
    + destruct (for_params body rest st) as [[rest' st''] r'] eqn:Hrest.
      injection Hpre as <- <- ->.
      rewrite (IH rest' st Hrest).
      now destruct (for_params body l st'') as [[l' st2] r].
Qed.

(** With an unrecognized mode, a loop over parameters none of which meets
    the condition of line 24 appends every snapshot and raises nothing. *)
Lemma ma_unrecognized_loop_returns W (lamb : R) ft warmup trigger
    (l : NNModule Idx) (st : gmap string (deque (Tensor Idx))) :
  ft ≠ "mean" -> ft ≠ "sum" -> NoDup l.*1 ->
  (forall n p g, (n, p) ∈ l -> selected p = Some g ->
     exists d, st !! n = Some d /\
               ma_filters W warmup trigger (deque_append d g) = false) ->
  exists st',
    for_params (ma_body W lamb ft warmup trigger) l st = (l, st', None) /\
    (forall n p g d, (n, p) ∈ l -> selected p = Some g -> st !! n = Some d ->
        st' !! n = Some (deque_append d g)) /\
    (forall n, (forall p, (n, p) ∈ l -> selected p = None) -> st' !! n = st !! n).
Proof.
  intros Hmean Hsum. unfold NNModule in *.
  revert st. induction l as [|[n0 p0] rest IH]; intros st Hnd Hst.
  - exists st. split; [reflexivity|]. split; [|reflexivity].
    intros n p g d Hin. inversion Hin.
  - simpl in Hnd. apply NoDup_cons in Hnd as [Hfresh Hnd].
    assert (Hother : forall n p, (n, p) ∈ rest -> n ≠ n0).
    { intros n p Hin ->. apply Hfresh. apply list_elem_of_fmap. now exists (n0, p). }
    cbn [for_params]. destruct (selected p0) as [g0|] eqn:Hsel0.
    + destruct (Hst n0 p0 g0) as (d0 & Hd0 & Hcond0); [left|assumption|].
      rewrite (ma_body_unrecognized W lamb ft warmup trigger n0 p0 g0 st d0
                 Hmean Hsum Hd0).
      unfold ma_filters in Hcond0. rewrite Hcond0.
      destruct (IH (<[n0 := deque_append d0 g0]> st) Hnd) as (st' & Hloop & Hent & Hframe).
      { intros n p g Hin Hsel.
        rewrite lookup_insert_ne by (symmetry; eauto).
        apply (Hst n p g); [now right|assumption]. }
      exists st'. rewrite Hloop. split; [reflexivity|]. split.
      * intros n p g d Hin Hsel Hd. apply elem_of_cons in Hin as [Heq|Hin].
        -- injection Heq as -> ->.
           assert (g = g0) as -> by congruence.
           assert (d = d0) as -> by congruence.
           rewrite Hframe by (intros p' Hin'; now destruct (Hother n0 p' Hin')).
           apply lookup_insert_eq.
        -- apply (Hent n p g d Hin Hsel).
           rewrite lookup_insert_ne by (symmetry; eauto). exact Hd.
      * intros n Hno.
        assert (n0 ≠ n) as Hne.
        { intros ->. rewrite (Hno p0) in Hsel0 by left. discriminate. }
        rewrite Hframe by (intros p Hin; apply Hno; now right).
        now rewrite lookup_insert_ne.
    + destruct (IH st Hnd) as (st' & Hloop & Hent & Hframe).
      { intros n p g Hin Hsel. apply (Hst n p g); [now right|assumption]. }
      exists st'. rewrite Hloop. split; [reflexivity|]. split.
      * intros n p g d Hin Hsel Hd. apply elem_of_cons in Hin as [Heq|Hin].
        -- injection Heq as -> ->. congruence.
        -- now apply (Hent n p g d).
      * intros n Hno. apply Hframe. intros p Hin. apply Hno. now right.
Qed.

(** With an unrecognized mode, the loop stops at the first parameter that
    meets the condition of line 24: the snapshots of the parameters before
    it and its own have been appended, and [ValueError] is raised there. *)
Lemma ma_unrecognized_loop_raises W (lamb : R) ft warmup trigger
    (pre post : NNModule Idx) n p g d (st : gmap string (deque (Tensor Idx))) :
  ft ≠ "mean" -> ft ≠ "sum" -> NoDup (pre ++ (n, p) :: post).*1 ->
  (forall n' p' g', (n', p') ∈ pre -> selected p' = Some g' ->
     exists d', st !! n' = Some d' /\
                ma_filters W warmup trigger (deque_append d' g') = false) ->
  selected p = Some g -> st !! n = Some d ->
  ma_filters W warmup trigger (deque_append d g) = true ->
  exists st',
    for_params (ma_body W lamb ft warmup trigger) (pre ++ (n, p) :: post) st =
      (pre ++ (n, p) :: post, st',
       Some (ValueError ("Unrecognized filter_type " ++ ft))) /\
    st' !! n = Some (deque_append d g) /\
    (forall n' p' g' d', (n', p') ∈ pre -> selected p' = Some g' ->
        st !! n' = Some d' -> st' !! n' = Some (deque_append d' g')) /\
    (forall n', n' ≠ n -> (forall p', (n', p') ∈ pre -> selected p' = None) ->
        st' !! n' = st !! n').
Proof.
  intros Hmean Hsum Hnd Hpre Hsel Hd Hcond. unfold NNModule in *.
  rewrite fmap_app in Hnd. apply NoDup_app in Hnd as (Hndpre & Hdisj & _).
  assert (Hfresh : forall p', (n, p') ∈ pre -> False).
  { intros p' Hin. apply (Hdisj n).
    - apply list_elem_of_fmap. now exists (n, p').
    - simpl. left. }
  destruct (ma_unrecognized_loop_returns W lamb ft warmup trigger pre st
              Hmean Hsum Hndpre Hpre) as (st1 & Hloop & Hent & Hframe).
  assert (Hd1 : st1 !! n = Some d).
  { rewrite Hframe; [exact Hd|]. intros p' Hin. destruct (Hfresh p' Hin). }
  exists (<[n := deque_append d g]> st1).
  rewrite (for_params_app_returned _ pre pre ((n, p) :: post) st st1 Hloop).
  cbn [for_params]. rewrite Hsel.
  rewrite (ma_body_unrecognized W lamb ft warmup trigger n p g st1 d Hmean Hsum Hd1).
  unfold ma_filters in Hcond. rewrite Hcond.
  split; [reflexivity|]. split; [apply lookup_insert_eq|]. split.
  - intros n' p' g' d' Hin Hsel' Hd'.
    rewrite lookup_insert_ne by (intros ->; exact (Hfresh p' Hin)).
    now apply (Hent n' p' g' d').
  - intros n' Hne Hno. rewrite lookup_insert_ne by (symmetry; exact Hne).
    now apply Hframe.
Qed.

(** With an unrecognized mode, a selected parameter without a buffer,
    reached before any parameter meets the condition of line 24, ends the
    call with [KeyError]. *)
Lemma ma_unrecognized_loop_key_error W (lamb : R) ft warmup trigger
    (pre post : NNModule Idx) n p g (st : gmap string (deque (Tensor Idx))) :
  ft ≠ "mean" -> ft ≠ "sum" -> NoDup (pre ++ (n, p) :: post).*1 ->
  (forall n' p' g', (n', p') ∈ pre -> selected p' = Some g' ->
     exists d', st !! n' = Some d' /\
                ma_filters W warmup trigger (deque_append d' g') = false) ->
  selected p = Some g -> st !! n = None ->
  exists st',
    for_params (ma_body W lamb ft warmup trigger) (pre ++ (n, p) :: post) st =
      (pre ++ (n, p) :: post, st', Some (KeyError n)) /\
    (forall n' p' g' d', (n', p') ∈ pre -> selected p' = Some g' ->
        st !! n' = Some d' -> st' !! n' = Some (deque_append d' g')) /\
    (forall n', (forall p', (n', p') ∈ pre -> selected p' = None) ->
        st' !! n' = st !! n').
Proof.
  intros Hmean Hsum Hnd Hpre Hsel Hd. unfold NNModule in *.
  rewrite fmap_app in Hnd. apply NoDup_app in Hnd as (Hndpre & Hdisj & _).
  assert (Hfresh : forall p', (n, p') ∈ pre -> False).
  { intros p' Hin. apply (Hdisj n).
    - apply list_elem_of_fmap. now exists (n, p').
    - simpl. left. }
  destruct (ma_unrecognized_loop_returns W lamb ft warmup trigger pre st
              Hmean Hsum Hndpre Hpre) as (st1 & Hloop & Hent & Hframe).
  assert (Hd1 : st1 !! n = None).
  { rewrite Hframe; [exact Hd|]. intros p' Hin. destruct (Hfresh p' Hin). }
  exists st1.
  rewrite (for_params_app_returned _ pre pre ((n, p) :: post) st st1 Hloop).
  cbn [for_params]. rewrite Hsel. unfold ma_body at 1. rewrite Hd1.
  split; [reflexivity|]. split; assumption.
Qed.

(** C9 (as amended).  An unrecognized filter kind makes the training step
    raise [ValueError] before any filter runs: the module and the state
    variable (still absent on the first step) are left as they were.  An
    unrecognized aggregation mode in [gradfilter_ma] never changes a
    gradient, whatever the state and however the call ends.  In a call
    whose state (the caller's, or the one line 17 creates: one empty buffer
    per selected parameter when [window_size] is not negative) has a buffer
    for every parameter the loop reaches, names being distinct, the mode is
    looked at per parameter, after the append, and only where the
    condition of line 24 holds on the new buffer (warmup off, or buffer
    length equal to [window_size] with the trigger off):
    - if no selected parameter meets the condition, the call returns, having
      appended every selected parameter's snapshot to its buffer and touched
      no other entry;
    - otherwise it raises [ValueError "Unrecognized filter_type ..."] at the
      first selected parameter that meets it, having appended the snapshots
      of the selected parameters up to and including that one and touched no
      other entry.
    A selected parameter without a buffer, reached first, ends the call
    with [KeyError] instead. *)
Theorem C9_invalid_configuration :
  (forall (args : Args) (i : Z) m (grads : option (FilterState Idx)),
      args_filter args ≠ "none" -> args_filter args ≠ "ma" ->
      args_filter args ≠ "ema" -> args_filter args ≠ "smoother" ->
      args_filter args ≠ "kalman" ->
      filter_step args i m grads =
        Outcome m grads
          (Some (ValueError
                   ("Invalid update filter type `" ++ args_filter args ++ "`")))) /\
  (forall m grads W (lamb : R) ft warmup trigger,
      ft ≠ "mean" -> ft ≠ "sum" ->
      out_model (gradfilter_ma m grads W lamb ft warmup trigger) = m) /\
  (forall m W,
      NoDup m.*1 -> (0 <= W)%Z ->
      exists st, ma_start W m None = inr st /\
        forall n p g, (n, p) ∈ m -> selected p = Some g ->
                      st !! n = Some (Deque (Some (Z.to_nat W)) [])) /\
  (forall m grads st W (lamb : R) ft warmup trigger,
      ft ≠ "mean" -> ft ≠ "sum" -> NoDup m.*1 ->
      ma_start W m grads = inr st ->
      (forall n p g, (n, p) ∈ m -> selected p = Some g ->
         exists d, st !! n = Some d /\
                   ma_filters W warmup trigger (deque_append d g) = false) ->
      exists st',
        gradfilter_ma m grads W lamb ft warmup trigger = Outcome m (Some st') None /\
        (forall n p g d, (n, p) ∈ m -> selected p = Some g -> st !! n = Some d ->
            st' !! n = Some (deque_append d g)) /\
        (forall n, (forall p, (n, p) ∈ m -> selected p = None) ->
            st' !! n = st !! n)) /\
  (forall (pre post : NNModule Idx) n p g d grads st W (lamb : R) ft warmup trigger,
      ft ≠ "mean" -> ft ≠ "sum" -> NoDup (pre ++ (n, p) :: post).*1 ->
      ma_start W (pre ++ (n, p) :: post) grads = inr st ->
      (forall n' p' g', (n', p') ∈ pre -> selected p' = Some g' ->
         exists d', st !! n' = Some d' /\
                    ma_filters W warmup trigger (deque_append d' g') = false) ->
      selected p = Some g -> st !! n = Some d ->
      ma_filters W warmup trigger (deque_append d g) = true ->
      exists st',
        gradfilter_ma (pre ++ (n, p) :: post) grads W lamb ft warmup trigger =
          Outcome (pre ++ (n, p) :: post) (Some st')
            (Some (ValueError ("Unrecognized filter_type " ++ ft))) /\
        st' !! n = Some (deque_append d g) /\
        (forall n' p' g' d', (n', p') ∈ pre -> selected p' = Some g' ->
            st !! n' = Some d' -> st' !! n' = Some (deque_append d' g')) /\
        (forall n', n' ≠ n -> (forall p', (n', p') ∈ pre -> selected p' = None) ->
            st' !! n' = st !! n')) /\
  (forall (pre post : NNModule Idx) n p g grads st W (lamb : R) ft warmup trigger,
      ft ≠ "mean" -> ft ≠ "sum" -> NoDup (pre ++ (n, p) :: post).*1 ->
      ma_start W (pre ++ (n, p) :: post) grads = inr st ->
      (forall n' p' g', (n', p') ∈ pre -> selected p' = Some g' ->
         exists d', st !! n' = Some d' /\
                    ma_filters W warmup trigger (deque_append d' g') = false) ->
      selected p = Some g -> st !! n = None ->
      exists st',
        gradfilter_ma (pre ++ (n, p) :: post) grads W lamb ft warmup trigger =
          Outcome (pre ++ (n, p) :: post) (Some st') (Some (KeyError n)) /\
        (forall n' p' g' d', (n', p') ∈ pre -> selected p' = Some g' ->
            st !! n' = Some d' -> st' !! n' = Some (deque_append d' g')) /\
        (forall n', (forall p', (n', p') ∈ pre -> selected p' = None) ->
            st' !! n' = st !! n')).
Proof.
  split; [|split; [|split; [|split; [|split]]]].
  - apply filter_step_unrecognized.
  - apply ma_unrecognized_keeps_gradients.
  - intros m W Hnd HW. exact (ma_init_entries m W Hnd HW).
  - intros m grads st W lamb ft warmup trigger Hmean Hsum Hnd Hstart Hst.
    destruct (ma_unrecognized_loop_returns W lamb ft warmup trigger m st
                Hmean Hsum Hnd Hst) as (st' & Hloop & Hent & Hframe).
    exists st'. split; [|split; assumption].
    unfold gradfilter_ma. unfold ma_start in Hstart. rewrite Hstart, Hloop.
    reflexivity.
  - intros pre post n p g d grads st W lamb ft warmup trigger
           Hmean Hsum Hnd Hstart Hpre Hsel Hd Hcond.
    destruct (ma_unrecognized_loop_raises W lamb ft warmup trigger pre post n p g d st
                Hmean Hsum Hnd Hpre Hsel Hd Hcond) as (st' & Hloop & Hn & Hent & Hframe).
    exists st'. split; [|split; [|split]]; try assumption.
    unfold gradfilter_ma. unfold ma_start in Hstart. rewrite Hstart, Hloop.
    reflexivity.
  - intros pre post n p g grads st W lamb ft warmup trigger
           Hmean Hsum Hnd Hstart Hpre Hsel Hd.
    destruct (ma_unrecognized_loop_key_error W lamb ft warmup trigger pre post n p g st
                Hmean Hsum Hnd Hpre Hsel Hd) as (st' & Hloop & Hent & Hframe).
    exists st'. split; [|split]; try assumption.
    unfold gradfilter_ma. unfold ma_start in Hstart. rewrite Hstart, Hloop.
    reflexivity.
Qed.
End Dispatch.

(** ** Calls that return *)

Section Returns.
Context {Idx : Type}.
Implicit Types (p : Param Idx) (g : Tensor Idx) (m : NNModule Idx).
Local Open Scope R_scope.

(** A loop raises nothing when a property of the state that the body
    preserves keeps the body from raising. *)
Lemma for_params_returns {S : Type} (I : S -> Prop)
    (body : string -> Param Idx -> Tensor Idx -> S -> Param Idx * S * option exn) m :
  (forall n p g s, (n, p) ∈ m -> selected p = Some g -> I s ->
                   (body n p g s).2 = None /\ I (body n p g s).1.2) ->
  forall st, I st -> (for_params body m st).2 = None /\ I (for_params body m st).1.2.
Proof.
  induction m as [|[n p] rest IH]; intros Hbody st Hst; simpl; [now split|].
  assert (Hrest : forall s, I s -> (for_params body rest s).2 = None /\
                                   I (for_params body rest s).1.2)
    by (apply IH; intros n' p' g' s Hin; apply Hbody; now right).
  destruct (selected p) as [g|] eqn:Hsel.
  - destruct (Hbody n p g st) as [Hnone Hinv]; [left|assumption|assumption|].
    destruct (body n p g st) as [[p' st'] r]; simpl in *; subst r.
    specialize (Hrest st' Hinv).
    now destruct (for_params body rest st') as [[rest' st''] r'].
  - specialize (Hrest st Hst).
    now destruct (for_params body rest st) as [[rest' st''] r'].
Qed.

(** Appending keeps [maxlen], and leaves a non-empty buffer unless
    [maxlen] is 0. *)
Lemma deque_append_maxlen {A : Type} (d : deque A) (x : A) :
  maxlen (deque_append d x) = maxlen d.
Proof. unfold deque_append. now destruct (maxlen d). Qed.

Lemma deque_append_nonempty {A : Type} (d : deque A) (x : A) :
  maxlen d ≠ Some 0%nat -> deque_len (deque_append d x) ≠ 0%nat.
Proof.
  unfold deque_append, deque_len. destruct (maxlen d) as [w|]; simpl; intros Hw.
  - rewrite length_drop, length_app. simpl.
    assert (w ≠ 0%nat) by congruence. lia.
  - rewrite length_app. simpl. lia.
Qed.

(** With an entry for every selected parameter, [gradfilter_ema] and
    [gradfilter_kalman] return; so does [gradfilter_ma] when the mode is
    ["mean"] or ["sum"] and no buffer has [maxlen = 0]. *)
Lemma gradfilter_ema_returns m (st : gmap string (Tensor Idx)) (alpha lamb : R) trigger :
  (forall n p g, (n, p) ∈ m -> selected p = Some g -> is_Some (st !! n)) ->
  out_raised (gradfilter_ema m (Some st) alpha lamb trigger) = None.
Proof.
  intros Hst. unfold gradfilter_ema.
  destruct (for_params_returns
              (fun s : gmap string (Tensor Idx) =>
                 forall n p g, (n, p) ∈ m -> selected p = Some g -> is_Some (s !! n))
              (ema_body alpha lamb trigger) m) with (st := st) as [Hr _];
    [|exact Hst|now destruct (for_params _ m st) as [[? ?] ?]].
  intros n p g s Hin Hsel Hs. unfold ema_body.
  destruct (negb trigger); [|now split].
  destruct (Hs n p g Hin Hsel) as [acc ->]. simpl. split; [reflexivity|].
  intros n' p' g' Hin' Hsel'. rewrite lookup_insert.
  destruct (decide (n = n')); [now eexists|now apply (Hs n' p' g')].
Qed.

Lemma gradfilter_kalman_returns m (st : gmap string (KalmanEntry Idx)) (q r lamb : R) :
  (forall n p g, (n, p) ∈ m -> selected p = Some g -> is_Some (st !! n)) ->
  out_raised (gradfilter_kalman m (Some st) q r lamb) = None.
Proof.
  intros Hst. unfold gradfilter_kalman.
  destruct (for_params_returns
              (fun s : gmap string (KalmanEntry Idx) =>
                 forall n p g, (n, p) ∈ m -> selected p = Some g -> is_Some (s !! n))
              (kalman_body q r lamb) m) with (st := st) as [Hr _];
    [|exact Hst|now destruct (for_params _ m st) as [[? ?] ?]].
  intros n p g s Hin Hsel Hs. unfold kalman_body.
  destruct (Hs n p g Hin Hsel) as [e ->]. simpl. split; [reflexivity|].
  intros n' p' g' Hin' Hsel'. rewrite lookup_insert.
  destruct (decide (n = n')); [now eexists|now apply (Hs n' p' g')].
Qed.

Lemma gradfilter_ma_returns m (st : gmap string (deque (Tensor Idx))) W (lamb : R)
    ft warmup trigger :
  ft = "mean" \/ ft = "sum" ->
  (forall n p g, (n, p) ∈ m -> selected p = Some g ->
                 exists d, st !! n = Some d /\ maxlen d ≠ Some 0%nat) ->
  out_raised (gradfilter_ma m (Some st) W lamb ft warmup trigger) = None.
Proof.
  intros Hft Hst. unfold gradfilter_ma.
  destruct (for_params_returns
              (fun s : gmap string (deque (Tensor Idx)) =>
                 forall n p g, (n, p) ∈ m -> selected p = Some g ->
                               exists d, s !! n = Some d /\ maxlen d ≠ Some 0%nat)
              (ma_body W lamb ft warmup trigger) m) with (st := st) as [Hr _];
    [|exact Hst|now destruct (for_params _ m st) as [[? ?] ?]].
  intros n p g s Hin Hsel Hs. unfold ma_body.
  destruct (Hs n p g Hin Hsel) as (d & -> & Hd).
  assert (Hkeep : forall n' p' g', (n', p') ∈ m -> selected p' = Some g' ->
            exists d', <[n := deque_append d g]> s !! n' = Some d' /\
                       maxlen d' ≠ Some 0%nat).
  { intros n' p' g' Hin' Hsel'. rewrite lookup_insert.
    destruct (decide (n = n')).
    - eexists; split; [reflexivity|]. now rewrite deque_append_maxlen.
    - now apply (Hs n' p' g'). }
  destruct (negb warmup || _ && negb trigger); [|now split].
  assert (Hagg : exists avg, aggregate ft (deque_append d g) = inr avg).
  { unfold aggregate. destruct Hft as [-> | ->]; simpl; [|now eexists].
    pose proof (deque_append_nonempty d g Hd) as Hne.
    apply Nat.eqb_neq in Hne. rewrite Hne. now eexists. }
  destruct Hagg as [avg ->]. now split.
Qed.

(** The body in the two modes, on the same state: where mean mode adds
    [avg * lamb], sum mode adds [(avg * length) * lamb]. *)
Lemma ma_body_sum_vs_mean W (lamb : R) warmup trigger n p g
    (st : gmap string (deque (Tensor Idx))) d avg :
  st !! n = Some d ->
  aggregate "mean" (deque_append d g) = inr avg ->
  negb warmup || (Z.of_nat (deque_len (deque_append d g)) =? W)%Z && negb trigger = true ->
  ma_body W lamb "mean" warmup trigger n p g st =
    (set_grad p (tadd g (tscale avg lamb)), <[n := deque_append d g]> st, None) /\
  ma_body W lamb "sum" warmup trigger n p g st =
    (set_grad p (tadd g (tscale (tscale avg (INR (deque_len (deque_append d g)))) lamb)),
     <[n := deque_append d g]> st, None).
Proof.
  intros Hd Hmean Hcond. unfold ma_body. rewrite Hd. cbv zeta. rewrite Hcond, Hmean.
  split; [reflexivity|].
  unfold aggregate in *. simpl in *.
  destruct (Nat.eqb (deque_len (deque_append d g)) 0) eqn:Hlen; [discriminate|].
  injection Hmean as <-. apply Nat.eqb_neq in Hlen.
  now rewrite (mean_times_length _ Hlen).
Qed.
End Returns.

(** ** The Kalman filter on a constant gradient *)

Section KalmanScalar.
Local Open Scope R_scope.
Variables q r : R.
Hypothesis Hq : 0 < q.
Hypothesis Hr : 0 < r.

Lemma fixed_point_root :
  0 < kalman_fixed_point q r /\
  kalman_fixed_point q r * kalman_fixed_point q r + q * kalman_fixed_point q r = q * r.
Proof.
  unfold kalman_fixed_point.
  assert (Hrad : 0 <= q * q + 4 * q * r) by nra.
  pose proof (sqrt_sqrt _ Hrad) as Hsq.
  pose proof (sqrt_pos (q * q + 4 * q * r)) as Hpos.
  set (s := sqrt (q * q + 4 * q * r)) in *.
  assert (q < s) by nra.
  split; [lra|]. nra.
Qed.

Lemma fixed_point_below_noise : kalman_fixed_point q r < r.
Proof. destruct fixed_point_root as [Hpos Hroot]. nra. Qed.

Lemma noise_ratio_below_one : 0 < r / (q + r) < 1.
Proof.
  split; [apply Rdiv_lt_0_compat; lra|].
  apply (Rmult_lt_reg_r (q + r)); [lra|]. field_simplify; lra.
Qed.

(** One step of the variance, started above the fixed point: it stays
    above it, goes down, and its distance to it shrinks by the factor
    [r / (q + r)] at least. *)
Lemma variance_step (P : R) :
  kalman_fixed_point q r < P ->
  kalman_fixed_point q r < (1 - (P + q) / (P + q + r)) * (P + q) < P /\
  (1 - (P + q) / (P + q + r)) * (P + q) - kalman_fixed_point q r
    <= r / (q + r) * (P - kalman_fixed_point q r).
Proof.
  destruct fixed_point_root as [Hpos Hroot].
  set (s := kalman_fixed_point q r) in *.
  intros HP.
  replace ((1 - (P + q) / (P + q + r)) * (P + q))
    with (r * (P + q) / (P + q + r)) by (field; lra).
  assert (Hs : s = r * (s + q) / (s + q + r)).
  { apply (Rmult_eq_reg_r (s + q + r)); [|lra]. field_simplify; [|lra]. nra. }
  assert (Hdiff : r * (P + q) / (P + q + r) - s
                  = r / (P + q + r) * (r / (s + q + r)) * (P - s)).
  { rewrite Hs at 1. field. lra. }
  assert (H1 : 0 < r / (P + q + r) <= 1).
  { split; [apply Rdiv_lt_0_compat; lra|].
    apply (Rmult_le_reg_r (P + q + r)); [lra|]. field_simplify; lra. }
  assert (H2 : 0 < r / (s + q + r) <= r / (q + r)).
  { split; [apply Rdiv_lt_0_compat; lra|].
    unfold Rdiv. apply Rmult_le_compat_l; [lra|].
    apply Rinv_le_contravar; lra. }
  split; [split|].
  - assert (0 < r / (P + q + r) * (r / (s + q + r)) * (P - s)); [|lra].
    apply Rmult_lt_0_compat; [apply Rmult_lt_0_compat|]; lra.
  - apply (Rmult_lt_reg_r (P + q + r)); [lra|]. field_simplify; [|lra]. nra.
  - rewrite Hdiff.
    apply Rmult_le_compat_r; [lra|].
    rewrite <- (Rmult_1_l (r / (q + r))).
    apply Rmult_le_compat; lra.
Qed.

(** One step of the estimate with a positive variance: the error to the
    measurement [g] is multiplied by [1 - K], a factor in (0, r / (q + r)). *)
Lemma estimate_step (P x g : R) :
  0 < P ->
  g - (x + (P + q) / (P + q + r) * (g - x)) = (1 - (P + q) / (P + q + r)) * (g - x) /\
  0 < 1 - (P + q) / (P + q + r) < r / (q + r).
Proof.
  intros HP. split; [ring|].
  replace (1 - (P + q) / (P + q + r)) with (r / (P + q + r)) by (field; lra).
  split; [apply Rdiv_lt_0_compat; lra|].
  unfold Rdiv. apply Rmult_lt_compat_l; [lra|].
  apply Rinv_lt_contravar; [|lra]. apply Rmult_lt_0_compat; lra.
Qed.
End KalmanScalar.

Section Geometric.
Local Open Scope R_scope.

(** A sequence within [C * c ^ k] of [l], with [0 <= c < 1], tends to [l]. *)
Lemma geometric_cv (a : nat -> R) (l C c : R) :
  0 < C -> 0 <= c < 1 ->
  (forall k, Rabs (a k - l) <= C * c ^ k) ->
  Un_cv a l.
Proof.
  intros HC Hc Hbound eps Heps.
  destruct (pow_lt_1_zero c) with (y := eps / C) as [N HN].
  - rewrite Rabs_pos_eq; lra.
  - apply Rdiv_lt_0_compat; lra.
  - exists N. intros k Hk. unfold Rdist.
    apply Rle_lt_trans with (C * c ^ k); [apply Hbound|].
    specialize (HN k Hk). rewrite Rabs_pos_eq in HN by (apply pow_le; lra).
    apply (Rmult_lt_compat_l C) in HN; [|exact HC].
    replace (C * (eps / C)) with eps in HN by (field; lra). exact HN.
Qed.
End Geometric.

Section KalmanCalls.
Context {Idx : Type}.
Implicit Types (p : Param Idx) (g : Tensor Idx) (m : NNModule Idx).
Local Open Scope R_scope.

(** A loop whose body rewrites the entry of its own parameter from the old
    entry and the gradient: started on a state that holds, for every selected
    parameter, the entry [F g] of its gradient [g], it raises nothing and
    ends on the state that holds [upd g (F g)]. *)
Lemma for_params_update {V : Type}
    (body : string -> Param Idx -> Tensor Idx -> gmap string V ->
            Param Idx * gmap string V * option exn)
    (upd : Tensor Idx -> V -> V) (F : Tensor Idx -> V) m :
  body_local body ->
  (forall n p g st e, st !! n = Some e ->
      (body n p g st).1.2 = <[n := upd g e]> st /\ (body n p g st).2 = None) ->
  NoDup m.*1 ->
  forall st,
    (forall n p g, (n, p) ∈ m -> selected p = Some g -> st !! n = Some (F g)) ->
    (for_params body m st).2 = None /\
    (forall n p g, (n, p) ∈ m -> selected p = Some g ->
        (for_params body m st).1.2 !! n = Some (upd g (F g))).
Proof.
  intros Hloc Hbody. induction m as [|[n0 p0] rest IH]; intros Hnd st Hst.
  - split; [reflexivity|]. intros n p g Hin. inversion Hin.
  - simpl in Hnd. apply NoDup_cons in Hnd as [Hfresh Hnd]. simpl.
    assert (Hother : forall n p, (n, p) ∈ rest -> n ≠ n0).
    { intros n p Hin ->. apply Hfresh. apply list_elem_of_fmap. now exists (n0, p). }
    destruct (selected p0) as [g0|] eqn:Hsel0.
    + destruct (Hbody n0 p0 g0 st (F g0)) as [Hst' Hnone]; [apply (Hst n0 p0); [left|assumption]|].
      destruct (body n0 p0 g0 st) as [[p0' st'] r0]; simpl in Hst', Hnone; subst st' r0.
      destruct (IH Hnd (<[n0 := upd g0 (F g0)]> st)) as [Hr Hent].
      { intros n p g Hin Hsel. rewrite lookup_insert_ne by (symmetry; eauto).
        apply (Hst n p); [now right|assumption]. }
      pose proof (for_params_state_frame body rest n0 Hloc) as Hframe.
      destruct (for_params body rest (<[n0 := upd g0 (F g0)]> st)) as [[rest' st''] r'] eqn:Hloop.
      simpl in *. split; [exact Hr|].
      intros n p g Hin Hsel. apply elem_of_cons in Hin as [Heq|Hin].
      * injection Heq as -> ->. rewrite Hsel0 in Hsel. injection Hsel as <-.
        specialize (Hframe (fun p' Hin' => False_ind _ (Hother n0 p' Hin' eq_refl))
                      (<[n0 := upd g0 (F g0)]> st)).
        rewrite Hloop in Hframe. simpl in Hframe. rewrite Hframe.
        apply lookup_insert_eq.
      * now apply (Hent n p).
    + destruct (IH Hnd st) as [Hr Hent].
      { intros n p g Hin Hsel. apply (Hst n p); [now right|assumption]. }
      destruct (for_params body rest st) as [[rest' st''] r'] eqn:Hloop.
      simpl in *. split; [exact Hr|].
      intros n p g Hin Hsel. apply elem_of_cons in Hin as [Heq|Hin].
      * injection Heq as -> ->. congruence.
      * now apply (Hent n p).
Qed.

Lemma kalman_body_update (q r lamb : R) n p g (st : gmap string (KalmanEntry Idx)) e :
  st !! n = Some e ->
  kalman_body q r lamb n p g st =
    (set_grad p (tadd g (tscale (kx (kalman_update q r g e)) lamb)),
     <[n := kalman_update q r g e]> st, None).
Proof. intros He. unfold kalman_body. now rewrite He. Qed.

(** The state after [k + 1] calls on the gradients of [m]: no call raises,
    and every selected parameter's entry is the [k + 1]-fold update of the
    initial entry. *)
Lemma kalman_calls_spec m (q r lamb : R) :
  NoDup m.*1 ->
  forall k,
    out_raised (gradfilter_kalman m (kalman_calls m q r lamb k) q r lamb) = None /\
    forall n p g, (n, p) ∈ m -> selected p = Some g ->
      entry (kalman_calls m q r lamb (S k)) n = Some (kalman_iter q r g (S k)).
Proof.
  intros Hnd.
  assert (Hcall : forall k st,
             (forall n p g, (n, p) ∈ m -> selected p = Some g ->
                            st !! n = Some (kalman_iter q r g k)) ->
             (for_params (kalman_body q r lamb) m st).2 = None /\
             (forall n p g, (n, p) ∈ m -> selected p = Some g ->
                 (for_params (kalman_body q r lamb) m st).1.2 !! n
                 = Some (kalman_iter q r g (S k)))).
  { intros k st Hst.
    apply (for_params_update (kalman_body q r lamb) (kalman_update q r)
             (fun g => kalman_iter q r g k) m
             (kalman_body_local q r lamb)); [|exact Hnd|exact Hst].
    intros n p g s e He. now rewrite (kalman_body_update q r lamb n p g s e He). }
  induction k as [|k IH].
  - simpl. unfold gradfilter_kalman.
    destruct (Hcall 0%nat (kalman_init r m)) as [Hr Hent].
    { intros n p g Hin Hsel. unfold kalman_init.
      now rewrite (comprehension_lookup _ m n p g Hnd Hin Hsel). }
    destruct (for_params _ m (kalman_init r m)) as [[m' st'] r']. simpl in *.
    split; assumption.
  - destruct IH as [_ IH].
    change (kalman_calls m q r lamb (S (S k)))
      with (out_state (gradfilter_kalman m (kalman_calls m q r lamb (S k)) q r lamb)).
    destruct (kalman_calls m q r lamb (S k)) as [st|] eqn:Hst.
    + unfold gradfilter_kalman. destruct (Hcall (S k) st IH) as [Hr Hent].
      destruct (for_params _ m st) as [[m' st'] r']. simpl in *.
      split; assumption.
    + simpl in Hst. unfold gradfilter_kalman in Hst.
      destruct (for_params _ m _) as [[? ?] ?]. discriminate Hst.
Qed.
End KalmanCalls.

Section KalmanConvergence.
Context {Idx : Type}.
Implicit Types (p : Param Idx) (g : Tensor Idx) (m : NNModule Idx).
Local Open Scope R_scope.
Variables q r : R.
Hypothesis Hq : 0 < q.
Hypothesis Hr : 0 < r.

(** The variance along the iteration: above the fixed point, decreasing,
    and geometrically close to the fixed point. *)
Lemma iter_variance g (i : Idx) (k : nat) :
  kalman_fixed_point q r < kP (kalman_iter q r g (S k)) i < kP (kalman_iter q r g k) i /\
  kP (kalman_iter q r g k) i - kalman_fixed_point q r
    <= (r - kalman_fixed_point q r) * (r / (q + r)) ^ k.
Proof.
  pose proof (fixed_point_below_noise q r Hq Hr) as Hbelow.
  pose proof (noise_ratio_below_one q r Hq Hr) as Hratio.
  assert (Hinv : kalman_fixed_point q r < kP (kalman_iter q r g k) i /\
                 kP (kalman_iter q r g k) i - kalman_fixed_point q r
                 <= (r - kalman_fixed_point q r) * (r / (q + r)) ^ k).
  { induction k as [|k [IHlt IHle]].
    - simpl. unfold tscale, tfull. lra.
    - destruct (variance_step q r Hq Hr _ IHlt) as [[Hlo Hhi] Hshrink].
      change (kP (kalman_iter q r g (S k)) i)
        with ((1 - (kP (kalman_iter q r g k) i + q) / (kP (kalman_iter q r g k) i + q + r))
              * (kP (kalman_iter q r g k) i + q)).
      split; [exact Hlo|].
      eapply Rle_trans; [exact Hshrink|]. simpl pow.
      replace ((r - kalman_fixed_point q r) * (r / (q + r) * (r / (q + r)) ^ k))
        with (r / (q + r) * ((r - kalman_fixed_point q r) * (r / (q + r)) ^ k)) by ring.
      apply Rmult_le_compat_l; lra. }
  destruct Hinv as [Hlt Hle]. split; [|exact Hle].
  exact (proj1 (variance_step q r Hq Hr _ Hlt)).
Qed.

(** The estimate along the iteration: each step multiplies the error to
    [g] by a factor in (0, 1), and the error is geometrically small. *)
Lemma iter_estimate g (i : Idx) (k : nat) :
  (exists t, 0 < t < 1 /\
             g i - kx (kalman_iter q r g (S k)) i = t * (g i - kx (kalman_iter q r g k) i)) /\
  Rabs (g i - kx (kalman_iter q r g k) i) <= (Rabs (g i) + 1) * (r / (q + r)) ^ k.
Proof.
  pose proof (noise_ratio_below_one q r Hq Hr) as Hratio.
  pose proof (fixed_point_root q r Hq Hr) as [Hpos _].
  assert (Hstep : forall j,
             g i - kx (kalman_iter q r g (S j)) i
             = (1 - (kP (kalman_iter q r g j) i + q) / (kP (kalman_iter q r g j) i + q + r))
               * (g i - kx (kalman_iter q r g j) i) /\
             0 < 1 - (kP (kalman_iter q r g j) i + q) / (kP (kalman_iter q r g j) i + q + r)
               < r / (q + r)).
  { intros j. apply estimate_step; [exact Hq|exact Hr|].
    destruct (iter_variance g i j) as [[Hlo Hhi] _]. lra. }
  split.
  - destruct (Hstep k) as [Heq Ht]. eexists; split; [|exact Heq]. lra.
  - induction k as [|k IH].
    + simpl. unfold tfull. rewrite Rminus_0_r. lra.
    + destruct (Hstep k) as [Heq Ht]. rewrite Heq, Rabs_mult.
      rewrite (Rabs_pos_eq (1 - _)) by lra. simpl pow.
      pose proof (Rabs_pos (g i - kx (kalman_iter q r g k) i)) as Hnn.
      apply Rle_trans with (r / (q + r) * Rabs (g i - kx (kalman_iter q r g k) i)).
      * apply Rmult_le_compat_r; lra.
      * replace ((Rabs (g i) + 1) * (r / (q + r) * (r / (q + r)) ^ k))
          with (r / (q + r) * ((Rabs (g i) + 1) * (r / (q + r)) ^ k)) by ring.
        apply Rmult_le_compat_l; lra.
Qed.

(** What is stored for a selected parameter is the iteration on its
    gradient. *)
Lemma kalman_stored m (lamb : R) n p g :
  NoDup m.*1 -> (n, p) ∈ m -> selected p = Some g ->
  forall k i,
    kalman_estimate m q r lamb n k i = kx (kalman_iter q r g k) i /\
    kalman_variance m q r lamb n k i = kP (kalman_iter q r g k) i.
Proof.
  intros Hnd Hin Hsel k i. unfold kalman_estimate, kalman_variance.
  destruct k as [|k]; [split; reflexivity|].
  destruct (kalman_calls_spec m q r lamb Hnd k) as [_ Hent].
  rewrite (Hent n p g Hin Hsel). split; reflexivity.
Qed.

(** C7.  [gradfilter_kalman] called again and again, from no state, on the
    same gradients, with process noise [q > 0] and measurement noise [r > 0].
    For a parameter with gradient [g] (names distinct) and every element [i]:
    no call raises and the entry exists after every call; each call multiplies
    the error [g i - x i] of the estimate by a factor strictly between 0 and
    1, so the estimate moves monotonically toward [g i] without passing it and
    its distance to [g i] never grows; the estimate tends to [g i]; the
    variance [P i] strictly decreases at every call, stays above
    [P* = (-q + sqrt(q^2 + 4 q r)) / 2], and tends to [P*]. *)
Theorem C7_kalman_convergence m (lamb : R) n p g :
  NoDup m.*1 -> (n, p) ∈ m -> selected p = Some g ->
  (forall k,
      out_raised (gradfilter_kalman m (kalman_calls m q r lamb k) q r lamb) = None /\
      is_Some (entry (kalman_calls m q r lamb (S k)) n)) /\
  (forall i k, exists t, 0 < t < 1 /\
      g i - kalman_estimate m q r lamb n (S k) i
      = t * (g i - kalman_estimate m q r lamb n k i)) /\
  (forall i k,
      Rabs (g i - kalman_estimate m q r lamb n (S k) i)
      <= Rabs (g i - kalman_estimate m q r lamb n k i)) /\
  (forall i, Un_cv (fun k => kalman_estimate m q r lamb n k i) (g i)) /\
  (forall i k,
      kalman_fixed_point q r < kalman_variance m q r lamb n (S k) i
                             < kalman_variance m q r lamb n k i) /\
  (forall i, Un_cv (fun k => kalman_variance m q r lamb n k i) (kalman_fixed_point q r)).
Proof.
  intros Hnd Hin Hsel.
  pose proof (kalman_stored m lamb n p g Hnd Hin Hsel) as Hstored.
  pose proof (noise_ratio_below_one q r Hq Hr) as Hratio.
  pose proof (fixed_point_below_noise q r Hq Hr) as Hbelow.
  split; [|split; [|split; [|split; [|split]]]].
  - intros k. destruct (kalman_calls_spec m q r lamb Hnd k) as [Hr' Hent].
    split; [exact Hr'|]. rewrite (Hent n p g Hin Hsel). now eexists.
  - intros i k. destruct (Hstored (S k) i) as [-> _], (Hstored k i) as [-> _].
    exact (proj1 (iter_estimate g i k)).
  - intros i k. destruct (Hstored (S k) i) as [-> _], (Hstored k i) as [-> _].
    destruct (proj1 (iter_estimate g i k)) as (t & Ht & ->).
    rewrite Rabs_mult, (Rabs_pos_eq t) by lra.
    pose proof (Rabs_pos (g i - kx (kalman_iter q r g k) i)). nra.
  - intros i. apply (geometric_cv _ (g i) (Rabs (g i) + 1) (r / (q + r))).
    + pose proof (Rabs_pos (g i)). lra.
    + lra.
    + intros k. destruct (Hstored k i) as [-> _].
      rewrite Rabs_minus_sym. exact (proj2 (iter_estimate g i k)).
  - intros i k. destruct (Hstored (S k) i) as [_ ->], (Hstored k i) as [_ ->].
    exact (proj1 (iter_variance g i k)).
  - intros i. apply (geometric_cv _ _ (r - kalman_fixed_point q r) (r / (q + r))).
    + lra.
    + lra.
    + intros k. destruct (Hstored k i) as [_ ->].
      destruct (iter_variance g i k) as [[Hlo Hhi] Hle].
      assert (kalman_fixed_point q r < kP (kalman_iter q r g k) i).
      { destruct k as [|k']; [simpl; unfold tscale, tfull; lra|].
        exact (proj1 (proj1 (iter_variance g i k'))). }
      rewrite Rabs_pos_eq by lra. exact Hle.
Qed.
End KalmanConvergence.

(** ** Zero gain: the identity, where the arithmetic is defined *)

Section ZeroGainIdentity.
Context {Idx : Type}.
Implicit Types (p : Param Idx) (g : Tensor Idx) (m : NNModule Idx).
Local Open Scope R_scope.



End ZeroGainIdentity.

(** ** One scalar parameter: the scenarios *)

Section Scalar.
Local Open Scope R_scope.

Lemma scalar_eq (a : Tensor unit) (c : R) : a tt = c -> a = scalar c.
Proof. intros H. apply tensor_ext. now intros []. Qed.

(** One call of [gradfilter_ma] on the one-parameter module with a state
    that holds the buffer of ["w"]. *)
Lemma ma_step_scalar_module (c : R) (d : deque (Tensor unit)) W (lamb : R)
    ft warmup trigger :
  gradfilter_ma (scalar_module c) (Some {[ "w" := d ]}) W lamb ft warmup trigger =
    let d' := deque_append d (scalar c) in
    if negb warmup || (Z.of_nat (deque_len d') =? W)%Z && negb trigger then
      match aggregate ft d' with
      | inl e => Outcome (scalar_module c) (Some {[ "w" := d' ]}) (Some e)
      | inr avg =>
          Outcome [("w", mkParam true (scalar 0)
                           (Some (tadd (scalar c) (tscale avg lamb))))]
                  (Some {[ "w" := d' ]}) None
      end
    else Outcome (scalar_module c) (Some {[ "w" := d' ]}) None.
Proof.
  unfold gradfilter_ma, scalar_module. simpl. unfold ma_body.
  rewrite lookup_singleton_eq, insert_singleton_eq. simpl.
  destruct (negb warmup || _ && negb trigger); [|reflexivity].
  now destruct (aggregate ft _).
Qed.

(** The first call creates the buffer [deque(maxlen=window_size)]. *)
Lemma ma_first_scalar_module (c : R) W (lamb : R) ft warmup trigger :
  (0 <= W)%Z ->
  gradfilter_ma (scalar_module c) None W lamb ft warmup trigger =
  gradfilter_ma (scalar_module c) (Some {[ "w" := Deque (Some (Z.to_nat W)) [] ]})
    W lamb ft warmup trigger.
Proof.
  intros HW. unfold gradfilter_ma, ma_init, deque_new. simpl.
  destruct (Z.ltb_spec W 0) as [Hneg|_]; [lia|]. reflexivity.
Qed.

(** Closes an equation between outcomes on the one-parameter module that
    differ only in how the scalar gradient is written. *)
Ltac scalar_outcome :=
  unfold scalar_module; do 5 f_equal; apply scalar_eq;
  unfold tadd, tscale, tdivs, tsum, scalar, tfull, deque_len; simpl;
  unfold tadd, tfull; lra.

(** C4.  One scalar parameter, gradient 1.0 at each of three calls of
    [gradfilter_ma] with [window_size = 2], [lamb = 1.0], mean, warmup on,
    trigger off, no prior state.  Call 1 returns the gradient 1.0 unmodified
    with buffer [1.0] (length 1 < 2); call 2 returns gradient 2.0 with buffer
    [1.0; 1.0]; call 3 returns 2.0 again, the oldest entry evicted and the
    buffer again [1.0; 1.0].  No call raises. *)
Theorem C4_moving_average_scenario :
  ma_call_1 =
    Outcome (scalar_module 1) (Some {[ "w" := Deque (Some 2%nat) [scalar 1] ]}) None /\
  ma_call_2 =
    Outcome (scalar_module 2)
      (Some {[ "w" := Deque (Some 2%nat) [scalar 1; scalar 1] ]}) None /\
  ma_call_3 =
    Outcome (scalar_module 2)
      (Some {[ "w" := Deque (Some 2%nat) [scalar 1; scalar 1] ]}) None.
Proof.
  assert (H1 : ma_call_1 = Outcome (scalar_module 1)
                 (Some {[ "w" := Deque (Some 2%nat) [scalar 1] ]}) None).
  { unfold ma_call_1. rewrite ma_first_scalar_module by lia.
    rewrite ma_step_scalar_module. reflexivity. }
  assert (H2 : ma_call_2 = Outcome (scalar_module 2)
                 (Some {[ "w" := Deque (Some 2%nat) [scalar 1; scalar 1] ]}) None).
  { unfold ma_call_2. rewrite H1. unfold out_state.
    rewrite ma_step_scalar_module. simpl. scalar_outcome. }
  split; [exact H1|]. split; [exact H2|].
  unfold ma_call_3. rewrite H2. unfold out_state.
  rewrite ma_step_scalar_module. simpl. scalar_outcome.
Qed.

(** C2 (the code departs from it).  With [warmup = false] the trigger is
    not consulted: on a first call with [trigger = true], window 2, gain 1
    and mean mode, the snapshot is appended and the gradient 1.0 is changed
    to 1.0 + 1.0 * 1.0 = 2.0. *)
Theorem C2_trigger_ignored_without_warmup :
  gradfilter_ma (scalar_module 1) None 2 1 "mean" false true =
    Outcome (scalar_module 2) (Some {[ "w" := Deque (Some 2%nat) [scalar 1] ]}) None.
Proof.
  rewrite ma_first_scalar_module by lia.
  rewrite ma_step_scalar_module. simpl. scalar_outcome.
Qed.

(** With warmup on, a triggered call on the same input appends the
    snapshot and leaves the gradient alone. *)
Lemma trigger_with_warmup_bypasses :
  gradfilter_ma (scalar_module 1) None 1 1 "mean" true true =
    Outcome (scalar_module 1) (Some {[ "w" := Deque (Some 1%nat) [scalar 1] ]}) None.
Proof.
  rewrite ma_first_scalar_module by lia.
  rewrite ma_step_scalar_module. reflexivity.
Qed.

(** C9, as first stated, fails for the aggregation mode: with the mode
    ["median"], window 2 and warmup on, the first call raises nothing and
    returns a freshly created state; the second call raises [ValueError]
    only after it has appended the snapshot to the caller's buffer. *)
Lemma C9_unrecognized_mode_mutates_state :
  gradfilter_ma (scalar_module 1) None 2 1 "median" true false =
    Outcome (scalar_module 1) (Some {[ "w" := Deque (Some 2%nat) [scalar 1] ]}) None /\
  gradfilter_ma (scalar_module 1) (Some {[ "w" := Deque (Some 2%nat) [scalar 1] ]})
      2 1 "median" true false =
    Outcome (scalar_module 1)
      (Some {[ "w" := Deque (Some 2%nat) [scalar 1; scalar 1] ]})
      (Some (ValueError "Unrecognized filter_type median")) /\
  ({[ "w" := Deque (Some 2%nat) [scalar 1; scalar 1] ]}
     : gmap string (deque (Tensor unit)))
    ≠ {[ "w" := Deque (Some 2%nat) [scalar 1] ]}.
Proof.
  split; [|split].
  - rewrite ma_first_scalar_module by lia.
    rewrite ma_step_scalar_module. reflexivity.
  - rewrite ma_step_scalar_module. reflexivity.
  - intros H. apply (f_equal (fun s => s !! "w")) in H.
    rewrite !lookup_singleton_eq in H. discriminate H.
Qed.
End Scalar.

(** ** One float64 element: where floating point departs from the reals *)

Section Binary64.
Local Open Scope float_scope.



(** C6, as first stated, fails in floating point.  First call of
    [gradfilter_ema] with the default [alpha = 0.98]
    ([0x1.f5c28f5c28f5cp-1] in binary64) on a gradient element 2.1
    ([0x1.0cccccccccccdp+1]): the accumulator stored is
    [2.1 * 0.98 + 2.1 * (1 - 0.98)], which rounds to
    [0x1.0ccccccccccccp+1], one unit in the last place below the
    gradient. *)
Lemma C6_seed_blend_rounds :
  (ema_first_element float_arith 0x1.0cccccccccccdp+1 0x1.f5c28f5c28f5cp-1 2).1
    = 0x1.0ccccccccccccp+1 /\
  PrimFloat.eqb
    (ema_first_element float_arith 0x1.0cccccccccccdp+1 0x1.f5c28f5c28f5cp-1 2).1
    0x1.0cccccccccccdp+1 = false.
Proof. split; vm_compute; reflexivity. Qed.
End Binary64.

(** ** The general statements at concrete inputs *)

Section Instances.
Local Open Scope R_scope.

Lemma frozen_module_names (c : R) : NoDup (frozen_module c).*1.
Proof.
  simpl. apply NoDup_cons. split.
  - intros Hin. apply list_elem_of_singleton in Hin. discriminate Hin.
  - apply NoDup_singleton.
Defined.

Lemma scalar_module_names (c : R) : NoDup (scalar_module c).*1.
Proof. simpl. apply NoDup_singleton. Defined.

(** [smoother] on a module with a trainable and a frozen parameter, first
    call, [beta = 0.98], [pp = 0.01]. *)
Lemma C3_smoother_first_call :
  NoDup (frozen_module 1).*1 /\
  smoother (frozen_module 1) None (98 / 100) (1 / 100) =
    Outcome (frozen_module 1)
      (Some (comprehension (fun _ gr => gr) (frozen_module 1))) None.
Proof.
  split; [apply frozen_module_names|].
  destruct (C3_smoother_is_identity (frozen_module 1) None (98 / 100) (1 / 100)
              (frozen_module_names 1)) as (_ & _ & H & _).
  exact H.
Defined.


(** First call of [gradfilter_ema] with [alpha = 0.98], [lamb = 2]. *)
Lemma C6_seed_of_w :
  out_raised (gradfilter_ema (scalar_module 1) None (98 / 100) 2 false) = None /\
  exists st acc,
    out_state (gradfilter_ema (scalar_module 1) None (98 / 100) 2 false) = Some st /\
    st !! "w" = Some acc /\
    acc tt = (ema_first_element real_arith 1 (98 / 100) 2).1 /\
    acc = scalar 1.
Proof.
  destruct (C6_ema_first_call_seed (scalar_module 1) (98 / 100) 2 "w"
              (mkParam true (scalar 0) (Some (scalar 1))) (scalar 1))
    as (Hr & _ & st & acc & Hst & Hacc & Hblend & Heq).
  - apply scalar_module_names.
  - apply list_elem_of_singleton. reflexivity.
  - reflexivity.
  - split; [exact Hr|]. exists st, acc.
    split; [exact Hst|]. split; [exact Hacc|]. split; [exact (Hblend tt)|exact Heq].
Defined.

(** Sum and mean over the buffer [1.0; 1.0]. *)
Lemma C8_buffer_of_two :
  aggregate "sum" (Deque (Some 2%nat) [scalar 1; scalar 1]) =
    inr (tscale (tdivs (tsum [scalar 1; scalar 1]) (INR 2)) (INR 2)).
Proof.
  apply (C8_sum_is_mean_times_length (Deque (Some 2%nat) [scalar 1; scalar 1])).
  reflexivity.
Defined.

(** The kind ["fir"], offered by the old command line, is handled by no
    branch of the training step; ["median"] is no aggregation mode: with
    window 2 and warmup on, the first call returns with the buffer [1.0],
    the second raises with the buffer [1.0; 1.0]. *)
Lemma C9_fir_and_median :
  filter_step (mkArgs "fir" 100 5 (98 / 100) (98 / 100) (1 / 100)
                 (1 / 10000) (1 / 100) false 0) 0 (scalar_module 1) None =
    Outcome (scalar_module 1) None
      (Some (ValueError "Invalid update filter type `fir`")) /\
  out_model (gradfilter_ma (scalar_module 1) None 1 5 "median" true false)
    = scalar_module 1 /\
  (exists st, ma_start 2 (scalar_module 1) None = inr st /\
              st !! "w" = Some (Deque (Some 2%nat) [])) /\
  (exists st',
      gradfilter_ma (scalar_module 1) None 2 1 "median" true false =
        Outcome (scalar_module 1) (Some st') None /\
      st' !! "w" = Some (Deque (Some 2%nat) [scalar 1])) /\
  (exists st',
      gradfilter_ma (scalar_module 1) (Some {[ "w" := Deque (Some 2%nat) [scalar 1] ]})
        2 1 "median" true false =
        Outcome (scalar_module 1) (Some st')
          (Some (ValueError "Unrecognized filter_type median")) /\
      st' !! "w" = Some (Deque (Some 2%nat) [scalar 1; scalar 1])) /\
  (exists st',
      gradfilter_ma (scalar_module 1) (Some ∅) 2 1 "median" true false =
        Outcome (scalar_module 1) (Some st') (Some (KeyError "w")) /\
      st' !! "w" = None).
Proof.
  destruct (@C9_invalid_configuration unit)
    as (Hkind & Hgrad & Hinit & Hret & Hraise & Hkey).
  split; [|split; [|split; [|split; [|split]]]].
  - apply (Hkind (mkArgs "fir" 100 5 (98 / 100) (98 / 100) (1 / 100)
                    (1 / 10000) (1 / 100) false 0)); discriminate.
  - apply Hgrad; discriminate.
  - destruct (Hinit (scalar_module 1) 2%Z (scalar_module_names 1)) as (st & Hst & Hent);
      [lia|].
    exists st. split; [exact Hst|].
    apply (Hent "w" (mkParam true (scalar 0) (Some (scalar 1))) (scalar 1));
      [apply list_elem_of_singleton|]; reflexivity.
  - destruct (Hret (scalar_module 1) None {[ "w" := Deque (Some 2%nat) [] ]}
                2%Z 1 "median" true false) as (st' & Hcall & Hent & _).
    + discriminate.
    + discriminate.
    + apply scalar_module_names.
    + reflexivity.
    + intros n p g Hin Hsel. apply list_elem_of_singleton in Hin.
      injection Hin as -> ->. injection Hsel as <-.
      exists (Deque (Some 2%nat) []). split; [apply lookup_singleton_eq|reflexivity].
    + exists st'. split; [exact Hcall|].
      apply (Hent "w" (mkParam true (scalar 0) (Some (scalar 1))) (scalar 1)
               (Deque (Some 2%nat) []));
        [apply list_elem_of_singleton; reflexivity|reflexivity|apply lookup_singleton_eq].
  - destruct (Hraise [] [] "w" (mkParam true (scalar 0) (Some (scalar 1))) (scalar 1)
                (Deque (Some 2%nat) [scalar 1])
                (Some {[ "w" := Deque (Some 2%nat) [scalar 1] ]})
                {[ "w" := Deque (Some 2%nat) [scalar 1] ]}
                2%Z 1 "median" true false) as (st' & Hcall & Hn & _).
    + discriminate.
    + discriminate.
    + apply scalar_module_names.
    + reflexivity.
    + intros n' p' g' Hin. inversion Hin.
    + reflexivity.
    + apply lookup_singleton_eq.
    + reflexivity.
    + exists st'. split; [exact Hcall|exact Hn].
  - destruct (Hkey [] [] "w" (mkParam true (scalar 0) (Some (scalar 1))) (scalar 1)
                (Some ∅) ∅ 2%Z 1 "median" true false) as (st' & Hcall & _ & Hframe).
    + discriminate.
    + discriminate.
    + apply scalar_module_names.
    + reflexivity.
    + intros n' p' g' Hin. inversion Hin.
    + reflexivity.
    + apply lookup_empty.
    + exists st'. split; [exact Hcall|].
      rewrite Hframe; [apply lookup_empty|]. intros p' Hin. inversion Hin.
Defined.

(** The frozen parameter ["b"] under each of the four filters. *)
Lemma C10_frozen_b :
  out_model (gradfilter_ma (frozen_module 1) None 2 1 "mean" true false) !! 1%nat
    = Some ("b", mkParam false (scalar 0) None) /\
  entry (out_state (gradfilter_ema (frozen_module 1) None (98 / 100) 2 false)) "b"
    = None /\
  out_raised (smoother (delete 1%nat (frozen_module 1)) None (98 / 100) (1 / 100))
    = out_raised (smoother (frozen_module 1) None (98 / 100) (1 / 100)) /\
  entry (out_state (gradfilter_kalman (frozen_module 1) None (1 / 10000) (1 / 100) 2))
    "b" = None.
Proof.
  destruct (C10_unselected_parameter_skipped (frozen_module 1) 1 "b"
              (mkParam false (scalar 0) None)
              (frozen_module_names 1) eq_refl eq_refl) as (Hma & Hema & Hsm & Hka).
  split; [|split; [|split]].
  - apply (Hma None 2%Z 1 "mean" true false).
  - apply (Hema None (98 / 100) 2 false).
  - apply (Hsm None (98 / 100) (1 / 100)).
  - apply (Hka None (1 / 10000) (1 / 100) 2).
Defined.
(** Repeated Kalman calls on gradient 1.0 with the default noises
    [Q = 1e-4], [R = 1e-2]. *)
Lemma C7_default_noises :
  Un_cv (fun k => kalman_estimate (scalar_module 1) (1 / 10000) (1 / 100) 2 "w" k tt) 1 /\
  Un_cv (fun k => kalman_variance (scalar_module 1) (1 / 10000) (1 / 100) 2 "w" k tt)
    (kalman_fixed_point (1 / 10000) (1 / 100)).
Proof.
  assert (Hq : 0 < 1 / 10000) by lra.
  assert (Hr : 0 < 1 / 100) by lra.
  destruct (C7_kalman_convergence (1 / 10000) (1 / 100) Hq Hr (scalar_module 1) 2 "w"
              (mkParam true (scalar 0) (Some (scalar 1))) (scalar 1)
              (scalar_module_names 1)
              (proj2 (list_elem_of_singleton _ _) eq_refl) eq_refl)
    as (_ & _ & _ & Hx & _ & HP).
  split; [exact (Hx tt)|exact (HP tt)].
Defined.
End Instances.

(** * Further properties of the filters *)

(** ** A call that returns, parameter by parameter *)

Section Returned.
Context {Idx : Type}.
Implicit Types (p : Param Idx) (g : Tensor Idx) (m : NNModule Idx).
Local Open Scope R_scope.

Lemma call_image_cons {V : Type} (out : Param Idx -> Tensor Idx -> V -> Param Idx)
    (upd : Tensor Idx -> V -> V) (st : gmap string V) n p m :
  call_image out upd st ((n, p) :: m) =
    (n, match selected p, st !! n with
        | Some g, Some e => out p g (upd g e)
        | _, _ => p
        end) :: call_image out upd st m.
Proof. reflexivity. Qed.

(** A loop that ends without a raise, over distinct names, with a body that
    rewrites its own entry by [upd], raises when the entry is missing and
    hands back [out p g] of the new entry: the module is the [call_image] and
    every selected parameter had an entry, now updated. *)
Lemma for_params_returned {V : Type}
    (body : string -> Param Idx -> Tensor Idx -> gmap string V ->
            Param Idx * gmap string V * option exn)
    (out : Param Idx -> Tensor Idx -> V -> Param Idx)
    (upd : Tensor Idx -> V -> V) m :
  body_local body ->
  (forall n p g s e, s !! n = Some e -> (body n p g s).1.2 !! n = Some (upd g e)) ->
  (forall n p g s, s !! n = None -> (body n p g s).2 <> None) ->
  (forall n p g s e, s !! n = Some e -> (body n p g s).2 = None ->
                     (body n p g s).1.1 = out p g (upd g e)) ->
  NoDup m.*1 ->
  forall st,
    (for_params body m st).2 = None ->
    (for_params body m st).1.1 = call_image out upd st m /\
    (forall n p g, (n, p) ∈ m -> selected p = Some g ->
        exists e, st !! n = Some e /\
                  (for_params body m st).1.2 !! n = Some (upd g e)).
Proof.
  intros Hloc Hent Hmiss Hout.
  induction m as [|[n0 p0] rest IH]; intros Hnd st Hret.
  - split; [reflexivity|]. intros n p g Hin. inversion Hin.
  - simpl in Hnd. apply NoDup_cons in Hnd as [Hfresh Hnd].
    assert (Hother : forall n p, (n, p) ∈ rest -> n ≠ n0).
    { intros n p Hin ->. apply Hfresh. apply list_elem_of_fmap. now exists (n0, p). }
    assert (Himage : forall s, (forall n, n ≠ n0 -> s !! n = st !! n) ->
                               call_image out upd s rest = call_image out upd st rest).
    { intros s Hs. unfold call_image. apply map_ext_in. intros [n p] Hin.
      apply list_elem_of_In in Hin. simpl. now rewrite (Hs n (Hother n p Hin)). }
    cbn [for_params] in Hret |- *. destruct (selected p0) as [g0|] eqn:Hsel0.
    + destruct (st !! n0) as [e0|] eqn:He0.
      2:{ pose proof (Hmiss n0 p0 g0 st He0) as Hraise.
          destruct (body n0 p0 g0 st) as [[p0' st'] [e|]]; [discriminate Hret|].
          now contradiction Hraise. }
      pose proof (Hent n0 p0 g0 st e0 He0) as Hnew.
      pose proof (Hout n0 p0 g0 st e0 He0) as Hparam.
      pose proof (Hloc n0 p0 g0 st) as Hframe0.
      destruct (body n0 p0 g0 st) as [[p0' st'] [e|]]; [discriminate Hret|].
      simpl in Hnew, Hparam, Hframe0. specialize (Hparam eq_refl). subst p0'.
      pose proof (for_params_state_frame body rest n0 Hloc
                    (fun p' Hin' => False_ind _ (Hother n0 p' Hin' eq_refl)) st') as Hkeep.
      specialize (IH Hnd st').
      destruct (for_params body rest st') as [[rest' st''] r'].
      simpl in Hret, IH, Hkeep. cbn [fst snd].
      destruct (IH Hret) as [Hmodel Hentries]. split.
      * rewrite Hmodel, (Himage st' Hframe0), call_image_cons.
        now rewrite Hsel0, He0.
      * intros n p g Hin Hsel. apply elem_of_cons in Hin as [Heq|Hin].
        -- injection Heq as -> ->. rewrite Hsel0 in Hsel. injection Hsel as <-.
           exists e0. split; [exact He0|]. now rewrite Hkeep.
        -- destruct (Hentries n p g Hin Hsel) as (e & He & Hfin).
           exists e. split; [|exact Hfin].
           now rewrite <- (Hframe0 n (Hother n p Hin)).
    + specialize (IH Hnd st).
      destruct (for_params body rest st) as [[rest' st''] r'].
      simpl in Hret, IH. cbn [fst snd].
      destruct (IH Hret) as [Hmodel Hentries]. split.
      * rewrite Hmodel, call_image_cons. now rewrite Hsel0.
      * intros n p g Hin Hsel. apply elem_of_cons in Hin as [Heq|Hin].
        -- injection Heq as -> ->. congruence.
        -- now apply (Hentries n p g).
Qed.
End Returned.

Section PerCall.
Context {Idx : Type}.
Implicit Types (p : Param Idx) (g : Tensor Idx) (m : NNModule Idx).
Local Open Scope R_scope.

(** The three bodies with a state: entry rewritten, missing entry raised,
    parameter read off the new entry. *)
Lemma ma_body_entry W (lamb : R) ft warmup trigger n p g
    (s : gmap string (deque (Tensor Idx))) d :
  s !! n = Some d ->
  (ma_body W lamb ft warmup trigger n p g s).1.2 !! n = Some (deque_append d g) /\
  ((ma_body W lamb ft warmup trigger n p g s).2 = None ->
   (ma_body W lamb ft warmup trigger n p g s).1.1
   = ma_grad W lamb ft warmup trigger p g (deque_append d g)).
Proof.
  intros Hd. unfold ma_body, ma_grad, ma_filters. rewrite Hd. cbv zeta.
  destruct (negb warmup || _ && negb trigger).
  - destruct (aggregate ft _) as [e|avg]; simpl; rewrite lookup_insert_eq;
      (split; [reflexivity|]); [discriminate|reflexivity].
  - simpl. rewrite lookup_insert_eq. now split.
Qed.

Lemma ema_body_entry (alpha lamb : R) n p g (s : gmap string (Tensor Idx)) acc :
  s !! n = Some acc ->
  ema_body alpha lamb false n p g s =
    (ema_grad lamb p g (ema_acc alpha g acc), <[n := ema_acc alpha g acc]> s, None).
Proof. intros Hacc. unfold ema_body. simpl. now rewrite Hacc. Qed.

Lemma kalman_body_entry (q r lamb : R) n p g (s : gmap string (KalmanEntry Idx)) e :
  s !! n = Some e ->
  kalman_body q r lamb n p g s =
    (kalman_grad lamb p g (kalman_update q r g e), <[n := kalman_update q r g e]> s, None).
Proof. intros He. unfold kalman_body. now rewrite He. Qed.

Lemma ma_call_returned m st W (lamb : R) ft warmup trigger :
  NoDup m.*1 ->
  out_raised (gradfilter_ma m (Some st) W lamb ft warmup trigger) = None ->
  out_model (gradfilter_ma m (Some st) W lamb ft warmup trigger)
    = call_image (ma_grad W lamb ft warmup trigger) (fun g d => deque_append d g) st m /\
  forall n p g, (n, p) ∈ m -> selected p = Some g ->
    exists d, st !! n = Some d /\
      entry (out_state (gradfilter_ma m (Some st) W lamb ft warmup trigger)) n
      = Some (deque_append d g).
Proof.
  intros Hnd. unfold gradfilter_ma.
  pose proof (for_params_returned (ma_body W lamb ft warmup trigger)
                (ma_grad W lamb ft warmup trigger) (fun g d => deque_append d g) m
                (ma_body_local W lamb ft warmup trigger)) as H.
  destruct (for_params _ m st) as [[m' st'] r'] eqn:Hloop. simpl. intros Hret.
  specialize (H (fun n p g s e He =>
                   proj1 (ma_body_entry W lamb ft warmup trigger n p g s e He))).
  assert (Hmiss : forall n p g (s : gmap string (deque (Tensor Idx))),
             s !! n = None -> (ma_body W lamb ft warmup trigger n p g s).2 <> None).
  { intros n p g s Hs. unfold ma_body. now rewrite Hs. }
  specialize (H Hmiss
                (fun n p g s e He =>
                   proj2 (ma_body_entry W lamb ft warmup trigger n p g s e He))
                Hnd st).
  rewrite Hloop in H. exact (H Hret).
Qed.

Lemma ema_call_returned m st (alpha lamb : R) :
  NoDup m.*1 ->
  out_raised (gradfilter_ema m (Some st) alpha lamb false) = None ->
  out_model (gradfilter_ema m (Some st) alpha lamb false)
    = call_image (ema_grad lamb) (ema_acc alpha) st m /\
  forall n p g, (n, p) ∈ m -> selected p = Some g ->
    exists acc, st !! n = Some acc /\
      entry (out_state (gradfilter_ema m (Some st) alpha lamb false)) n
      = Some (ema_acc alpha g acc).
Proof.
  intros Hnd. unfold gradfilter_ema.
  pose proof (for_params_returned (ema_body alpha lamb false)
                (ema_grad lamb) (ema_acc alpha) m
                (ema_body_local alpha lamb false)) as H.
  destruct (for_params _ m st) as [[m' st'] r'] eqn:Hloop. simpl. intros Hret.
  assert (Hent : forall n p g (s : gmap string (Tensor Idx)) e, s !! n = Some e ->
             (ema_body alpha lamb false n p g s).1.2 !! n = Some (ema_acc alpha g e)).
  { intros n p g s e He. rewrite (ema_body_entry alpha lamb n p g s e He). simpl.
    apply lookup_insert_eq. }
  assert (Hmiss : forall n p g (s : gmap string (Tensor Idx)),
             s !! n = None -> (ema_body alpha lamb false n p g s).2 <> None).
  { intros n p g s Hs. unfold ema_body. simpl. now rewrite Hs. }
  assert (Hout : forall n p g (s : gmap string (Tensor Idx)) e, s !! n = Some e ->
             (ema_body alpha lamb false n p g s).2 = None ->
             (ema_body alpha lamb false n p g s).1.1
             = ema_grad lamb p g (ema_acc alpha g e)).
  { intros n p g s e He _. now rewrite (ema_body_entry alpha lamb n p g s e He). }
  specialize (H Hent Hmiss Hout Hnd st). rewrite Hloop in H. exact (H Hret).
Qed.

Lemma kalman_call_returned m st (q r lamb : R) :
  NoDup m.*1 ->
  out_raised (gradfilter_kalman m (Some st) q r lamb) = None ->
  out_model (gradfilter_kalman m (Some st) q r lamb)
    = call_image (kalman_grad lamb) (kalman_update q r) st m /\
  forall n p g, (n, p) ∈ m -> selected p = Some g ->
    exists e, st !! n = Some e /\
      entry (out_state (gradfilter_kalman m (Some st) q r lamb)) n
      = Some (kalman_update q r g e).
Proof.
  intros Hnd. unfold gradfilter_kalman.
  pose proof (for_params_returned (kalman_body q r lamb)
                (kalman_grad lamb) (kalman_update q r) m
                (kalman_body_local q r lamb)) as H.
  destruct (for_params _ m st) as [[m' st'] r'] eqn:Hloop. simpl. intros Hret.
  assert (Hent : forall n p g (s : gmap string (KalmanEntry Idx)) e, s !! n = Some e ->
             (kalman_body q r lamb n p g s).1.2 !! n = Some (kalman_update q r g e)).
  { intros n p g s e He. rewrite (kalman_body_entry q r lamb n p g s e He). simpl.
    apply lookup_insert_eq. }
  assert (Hmiss : forall n p g (s : gmap string (KalmanEntry Idx)),
             s !! n = None -> (kalman_body q r lamb n p g s).2 <> None).
  { intros n p g s Hs. unfold kalman_body. now rewrite Hs. }
  assert (Hout : forall n p g (s : gmap string (KalmanEntry Idx)) e, s !! n = Some e ->
             (kalman_body q r lamb n p g s).2 = None ->
             (kalman_body q r lamb n p g s).1.1
             = kalman_grad lamb p g (kalman_update q r g e)).
  { intros n p g s e He _. now rewrite (kalman_body_entry q r lamb n p g s e He). }
  specialize (H Hent Hmiss Hout Hnd st). rewrite Hloop in H. exact (H Hret).
Qed.

(** X1.  What a returning call does, parameter by parameter (distinct
    names, state supplied).  [gradfilter_ma]: every selected parameter had a
    buffer, the call appended the snapshot to it, and the parameter's gradient
    is [g + aggregate * lamb] when the condition of line 24 holds on the new
    buffer and [g] otherwise.  [gradfilter_ema] (trigger off): the accumulator
    became [acc * alpha + g * (1 - alpha)] and the gradient
    [(g + acc' * lamb) / (1 + lamb)].  [gradfilter_kalman]: the entry is one
    Kalman update of the old one and the gradient [g + x' * lamb].  Parameters
    that are not selected are left alone. *)
Theorem X1_returning_call_per_parameter m :
  NoDup m.*1 ->
  (forall st W (lamb : R) ft warmup trigger,
      out_raised (gradfilter_ma m (Some st) W lamb ft warmup trigger) = None ->
      out_model (gradfilter_ma m (Some st) W lamb ft warmup trigger)
        = call_image (ma_grad W lamb ft warmup trigger)
            (fun g d => deque_append d g) st m /\
      forall n p g, (n, p) ∈ m -> selected p = Some g ->
        exists d, st !! n = Some d /\
          entry (out_state (gradfilter_ma m (Some st) W lamb ft warmup trigger)) n
          = Some (deque_append d g)) /\
  (forall st (alpha lamb : R),
      out_raised (gradfilter_ema m (Some st) alpha lamb false) = None ->
      out_model (gradfilter_ema m (Some st) alpha lamb false)
        = call_image (ema_grad lamb) (ema_acc alpha) st m /\
      forall n p g, (n, p) ∈ m -> selected p = Some g ->
        exists acc, st !! n = Some acc /\
          entry (out_state (gradfilter_ema m (Some st) alpha lamb false)) n
          = Some (ema_acc alpha g acc)) /\
  (forall st (q r lamb : R),
      out_raised (gradfilter_kalman m (Some st) q r lamb) = None ->
      out_model (gradfilter_kalman m (Some st) q r lamb)
        = call_image (kalman_grad lamb) (kalman_update q r) st m /\
      forall n p g, (n, p) ∈ m -> selected p = Some g ->
        exists e, st !! n = Some e /\
          entry (out_state (gradfilter_kalman m (Some st) q r lamb)) n
          = Some (kalman_update q r g e)).
Proof.
  intros Hnd. split; [|split].
  - intros st W lamb ft warmup trigger. now apply ma_call_returned.
  - intros st alpha lamb. now apply ema_call_returned.
  - intros st q r lamb. now apply kalman_call_returned.
Qed.
End PerCall.

(** ** Which entries exist, and what can be raised *)

Section Errors.
Context {Idx : Type}.
Implicit Types (p : Param Idx) (g : Tensor Idx) (m : NNModule Idx).
Local Open Scope R_scope.

(** A property of the state that every body application keeps holds when
    the loop ends, however it ends. *)
Lemma for_params_invariant {S : Type} (I : S -> Prop)
    (body : string -> Param Idx -> Tensor Idx -> S -> Param Idx * S * option exn) m :
  (forall n p g s, I s -> I (body n p g s).1.2) ->
  forall st, I st -> I (for_params body m st).1.2.
Proof.
  intros Hbody. induction m as [|[n p] rest IH]; intros st Hst; simpl; [exact Hst|].
  destruct (selected p) as [g|].
  - pose proof (Hbody n p g st Hst) as Hst'.
    destruct (body n p g st) as [[p' st'] [e|]]; simpl in *; [exact Hst'|].
    specialize (IH st' Hst').
    now destruct (for_params body rest st') as [[rest' st''] r'].
  - specialize (IH st Hst).
    now destruct (for_params body rest st) as [[rest' st''] r'].
Qed.

(** An exception that ends the loop was raised by the body at a selected
    parameter, in a state that has the kept property. *)
Lemma for_params_raise_source {S : Type} (I : S -> Prop)
    (body : string -> Param Idx -> Tensor Idx -> S -> Param Idx * S * option exn) m :
  (forall n p g s, I s -> I (body n p g s).1.2) ->
  forall st e, I st -> (for_params body m st).2 = Some e ->
    exists n p g s, (n, p) ∈ m /\ selected p = Some g /\ I s /\
                    (body n p g s).2 = Some e.
Proof.
  intros Hbody. induction m as [|[n p] rest IH]; intros st e Hst; simpl; [discriminate|].
  destruct (selected p) as [g|] eqn:Hsel.
  - pose proof (Hbody n p g st Hst) as Hst'.
    destruct (body n p g st) as [[p' st'] [e'|]] eqn:Hb; simpl in *.
    + intros [= ->]. exists n, p, g, st. rewrite Hb. repeat split; [left|..]; easy.
    + specialize (IH st' e Hst').
      destruct (for_params body rest st') as [[rest' st''] r']. simpl in *.
      intros Hr. destruct (IH Hr) as (n1 & p1 & g1 & s1 & Hin & H).
      exists n1, p1, g1, s1. split; [now right|exact H].
  - specialize (IH st e Hst).
    destruct (for_params body rest st) as [[rest' st''] r']. simpl in *.
    intros Hr. destruct (IH Hr) as (n1 & p1 & g1 & s1 & Hin & H).
    exists n1, p1, g1, s1. split; [now right|exact H].
Qed.

(** The three bodies keep the key set; [ma_body] keeps every [maxlen]. *)
Lemma ma_body_maxlens W (lamb : R) ft warmup trigger n p g
    (st s : gmap string (deque (Tensor Idx))) :
  (forall n', maxlen <$> s !! n' = maxlen <$> st !! n') ->
  forall n', maxlen <$> (ma_body W lamb ft warmup trigger n p g s).1.2 !! n'
             = maxlen <$> st !! n'.
Proof.
  intros Hs n'. unfold ma_body. destruct (s !! n) as [d|] eqn:Hd; [|apply Hs].
  assert (Hins : maxlen <$> <[n := deque_append d g]> s !! n' = maxlen <$> st !! n').
  { rewrite lookup_insert. destruct (decide (n = n')) as [<-|]; [|apply Hs].
    rewrite <- Hs, Hd. simpl. now rewrite deque_append_maxlen. }
  cbv zeta. destruct (negb warmup || _ && negb trigger); [|exact Hins].
  now destruct (aggregate ft _).
Qed.

Lemma ema_body_keys (alpha lamb : R) trigger n p g (st s : gmap string (Tensor Idx)) :
  dom s = dom st -> dom (ema_body alpha lamb trigger n p g s).1.2 = dom st.
Proof.
  intros Hs. unfold ema_body. destruct (negb trigger); [|exact Hs].
  destruct (s !! n) as [acc|] eqn:Hacc; [|exact Hs]. simpl.
  rewrite dom_insert_lookup_L; [exact Hs|]. now rewrite Hacc.
Qed.

Lemma kalman_body_keys (q r lamb : R) n p g (st s : gmap string (KalmanEntry Idx)) :
  dom s = dom st -> dom (kalman_body q r lamb n p g s).1.2 = dom st.
Proof.
  intros Hs. unfold kalman_body. destruct (s !! n) as [e|] eqn:He; [|exact Hs]. simpl.
  rewrite dom_insert_lookup_L; [exact Hs|]. now rewrite He.
Qed.

Lemma maxlens_keys (st s : gmap string (deque (Tensor Idx))) :
  (forall n, maxlen <$> s !! n = maxlen <$> st !! n) -> dom s = dom st.
Proof.
  intros H. apply set_eq. intros n. rewrite !elem_of_dom.
  rewrite <- (fmap_is_Some maxlen (s !! n)), <- (fmap_is_Some maxlen (st !! n)).
  now rewrite (H n).
Qed.

(** X2.  A supplied state keeps its set of keys, however the call ends:
    [gradfilter_ma], [gradfilter_ema] and [gradfilter_kalman] never add an
    entry to it and never remove one (and [gradfilter_ma] never changes the
    [maxlen] of a buffer); [smoother] hands the very state back. *)
Theorem X2_state_keys_are_fixed m :
  (forall st W (lamb : R) ft warmup trigger,
      exists st', out_state (gradfilter_ma m (Some st) W lamb ft warmup trigger)
                  = Some st' /\ dom st' = dom st /\
                  forall n, maxlen <$> st' !! n = maxlen <$> st !! n) /\
  (forall st (alpha lamb : R) trigger,
      exists st', out_state (gradfilter_ema m (Some st) alpha lamb trigger)
                  = Some st' /\ dom st' = dom st) /\
  (forall st (q r lamb : R),
      exists st', out_state (gradfilter_kalman m (Some st) q r lamb)
                  = Some st' /\ dom st' = dom st) /\
  (forall st (beta pp : R), out_state (smoother m (Some st) beta pp) = Some st).
Proof.
  split; [|split; [|split]].
  - intros st W lamb ft warmup trigger. unfold gradfilter_ma.
    pose proof (for_params_invariant
                  (fun s : gmap string (deque (Tensor Idx)) =>
                     forall n, maxlen <$> s !! n = maxlen <$> st !! n)
                  (ma_body W lamb ft warmup trigger) m
                  (fun n p g s Hs => ma_body_maxlens W lamb ft warmup trigger n p g st s Hs)
                  st (fun n => eq_refl)) as H.
    destruct (for_params _ m st) as [[m' st'] r']. simpl in *.
    exists st'. split; [reflexivity|]. split; [now apply maxlens_keys|exact H].
  - intros st alpha lamb trigger. unfold gradfilter_ema.
    pose proof (for_params_invariant (fun s : gmap string (Tensor Idx) => dom s = dom st)
                  (ema_body alpha lamb trigger) m
                  (fun n p g s Hs => ema_body_keys alpha lamb trigger n p g st s Hs)
                  st eq_refl) as H.
    destruct (for_params _ m st) as [[m' st'] r']. simpl in *. now exists st'.
  - intros st q r lamb. unfold gradfilter_kalman.
    pose proof (for_params_invariant
                  (fun s : gmap string (KalmanEntry Idx) => dom s = dom st)
                  (kalman_body q r lamb) m
                  (fun n p g s Hs => kalman_body_keys q r lamb n p g st s Hs)
                  st eq_refl) as H.
    destruct (for_params _ m st) as [[m' st'] r']. simpl in *. now exists st'.
  - intros st beta pp. unfold smoother.
    now destruct (for_params _ m (smoother_z m)) as [[m' z'] r'].
Qed.

Lemma kalman_raise_is_key_error m st (q r lamb : R) e :
  out_raised (gradfilter_kalman m (Some st) q r lamb) = Some e ->
  exists n p g, (n, p) ∈ m /\ selected p = Some g /\ st !! n = None /\ e = KeyError n.
Proof.
  unfold gradfilter_kalman.
  pose proof (for_params_raise_source
                (fun s : gmap string (KalmanEntry Idx) => dom s = dom st)
                (kalman_body q r lamb) m
                (fun n p g s Hs => kalman_body_keys q r lamb n p g st s Hs)
                st e eq_refl) as H.
  destruct (for_params _ m st) as [[m' st'] r']. simpl in *. intros Hr.
  destruct (H Hr) as (n & p & g & s & Hin & Hsel & Hdom & Hraise).
  exists n, p, g. split; [exact Hin|]. split; [exact Hsel|].
  unfold kalman_body in Hraise. destruct (s !! n) as [en|] eqn:Hn; [discriminate|].
  simpl in Hraise. injection Hraise as <-. split; [|reflexivity].
  apply not_elem_of_dom. rewrite <- Hdom. now apply not_elem_of_dom.
Qed.

Lemma ema_raise_is_key_error m st (alpha lamb : R) trigger e :
  out_raised (gradfilter_ema m (Some st) alpha lamb trigger) = Some e ->
  trigger = false /\
  exists n p g, (n, p) ∈ m /\ selected p = Some g /\ st !! n = None /\ e = KeyError n.
Proof.
  unfold gradfilter_ema.
  pose proof (for_params_raise_source
                (fun s : gmap string (Tensor Idx) => dom s = dom st)
                (ema_body alpha lamb trigger) m
                (fun n p g s Hs => ema_body_keys alpha lamb trigger n p g st s Hs)
                st e eq_refl) as H.
  destruct (for_params _ m st) as [[m' st'] r']. simpl in *. intros Hr.
  destruct (H Hr) as (n & p & g & s & Hin & Hsel & Hdom & Hraise).
  unfold ema_body in Hraise. destruct trigger; [discriminate|]. split; [reflexivity|].
  exists n, p, g. split; [exact Hin|]. split; [exact Hsel|]. simpl in Hraise.
  destruct (s !! n) as [acc|] eqn:Hn; [discriminate|].
  simpl in Hraise. injection Hraise as <-. split; [|reflexivity].
  apply not_elem_of_dom. rewrite <- Hdom. now apply not_elem_of_dom.
Qed.

(** X3.  When [gradfilter_kalman] and [gradfilter_ema] raise.  For a module
    with distinct names and a supplied state, [gradfilter_kalman] (and
    [gradfilter_ema] with the trigger off) returns exactly when the state
    has an entry for every selected parameter; whatever these two raise is
    the [KeyError] of a selected parameter that has no entry, as happens to a
    parameter that gets its first gradient after the state was created. *)
Theorem X3_key_error_exactly_on_missing_entry m :
  NoDup m.*1 ->
  (forall st (q r lamb : R),
      (out_raised (gradfilter_kalman m (Some st) q r lamb) = None <->
       forall n p g, (n, p) ∈ m -> selected p = Some g -> is_Some (st !! n)) /\
      (forall e, out_raised (gradfilter_kalman m (Some st) q r lamb) = Some e ->
         exists n p g, (n, p) ∈ m /\ selected p = Some g /\ st !! n = None /\
                       e = KeyError n)) /\
  (forall st (alpha lamb : R),
      (out_raised (gradfilter_ema m (Some st) alpha lamb false) = None <->
       forall n p g, (n, p) ∈ m -> selected p = Some g -> is_Some (st !! n)) /\
      (forall e, out_raised (gradfilter_ema m (Some st) alpha lamb false) = Some e ->
         exists n p g, (n, p) ∈ m /\ selected p = Some g /\ st !! n = None /\
                       e = KeyError n)).
Proof.
  intros Hnd. split.
  - intros st q r lamb. split; [split|].
    + intros Hret n p g Hin Hsel.
      destruct (kalman_call_returned m st q r lamb Hnd Hret) as [_ Hent].
      destruct (Hent n p g Hin Hsel) as (e & He & _). now exists e.
    + apply gradfilter_kalman_returns.
    + intros e. apply kalman_raise_is_key_error.
  - intros st alpha lamb. split; [split|].
    + intros Hret n p g Hin Hsel.
      destruct (ema_call_returned m st alpha lamb Hnd Hret) as [_ Hent].
      destruct (Hent n p g Hin Hsel) as (e & He & _). now exists e.
    + apply gradfilter_ema_returns.
    + intros e He. exact (proj2 (ema_raise_is_key_error m st alpha lamb false e He)).
Qed.

Lemma ma_body_raise W (lamb : R) ft warmup trigger n p g
    (s : gmap string (deque (Tensor Idx))) e :
  (ma_body W lamb ft warmup trigger n p g s).2 = Some e ->
  (s !! n = None /\ e = KeyError n) \/
  (exists d, s !! n = Some d /\
     ((e = ZeroDivisionError /\ ft = "mean" /\ maxlen d = Some 0%nat) \/
      (e = ValueError ("Unrecognized filter_type " ++ ft) /\
       ft ≠ "mean" /\ ft ≠ "sum"))).
Proof.
  unfold ma_body. destruct (s !! n) as [d|]; [|intros [= <-]; now left].
  cbv zeta. intros Hraise. right. exists d. split; [reflexivity|].
  destruct (negb warmup || _ && negb trigger); [|discriminate].
  unfold aggregate in Hraise.
  destruct (String.eqb ft "mean") eqn:Hmean.
  - apply String.eqb_eq in Hmean.
    destruct (Nat.eqb (deque_len (deque_append d g)) 0) eqn:Hlen; [|discriminate].
    simpl in Hraise. injection Hraise as <-. left. repeat split; [exact Hmean|].
    apply Nat.eqb_eq in Hlen.
    destruct (decide (maxlen d = Some 0%nat)) as [Hd|Hd]; [exact Hd|].
    now destruct (deque_append_nonempty d g Hd).
  - apply String.eqb_neq in Hmean.
    destruct (String.eqb ft "sum") eqn:Hsum; [discriminate|].
    apply String.eqb_neq in Hsum.
    simpl in Hraise. injection Hraise as <-. right. now repeat split.
Qed.

(** X4.  Everything [gradfilter_ma] can raise.  With a supplied state:
    the [KeyError] of a selected parameter without a buffer; or
    [ZeroDivisionError], in mean mode, at a selected parameter whose buffer
    has [maxlen = 0]; or the [ValueError] of an unrecognized [filter_type].
    On a first call (no state, distinct names): the [ValueError] of a negative
    [window_size]; or [ZeroDivisionError], in mean mode with
    [window_size = 0]; or the [ValueError] of an unrecognized [filter_type];
    never a [KeyError]. *)
Theorem X4_moving_average_errors m W (lamb : R) ft warmup trigger e :
  (forall st,
      out_raised (gradfilter_ma m (Some st) W lamb ft warmup trigger) = Some e ->
      (exists n p g, (n, p) ∈ m /\ selected p = Some g /\ st !! n = None /\
                     e = KeyError n) \/
      (e = ZeroDivisionError /\ ft = "mean" /\
       exists n p g d, (n, p) ∈ m /\ selected p = Some g /\ st !! n = Some d /\
                       maxlen d = Some 0%nat) \/
      (e = ValueError ("Unrecognized filter_type " ++ ft) /\
       ft ≠ "mean" /\ ft ≠ "sum")) /\
  (NoDup m.*1 ->
   out_raised (gradfilter_ma m None W lamb ft warmup trigger) = Some e ->
   (e = ValueError "maxlen must be non-negative" /\ (W < 0)%Z) \/
   (e = ZeroDivisionError /\ ft = "mean" /\ W = 0%Z) \/
   (e = ValueError ("Unrecognized filter_type " ++ ft) /\ ft ≠ "mean" /\ ft ≠ "sum")).
Proof.
  assert (Hsupplied : forall st,
      out_raised (gradfilter_ma m (Some st) W lamb ft warmup trigger) = Some e ->
      (exists n p g, (n, p) ∈ m /\ selected p = Some g /\ st !! n = None /\
                     e = KeyError n) \/
      (e = ZeroDivisionError /\ ft = "mean" /\
       exists n p g d, (n, p) ∈ m /\ selected p = Some g /\ st !! n = Some d /\
                       maxlen d = Some 0%nat) \/
      (e = ValueError ("Unrecognized filter_type " ++ ft) /\
       ft ≠ "mean" /\ ft ≠ "sum")).
  { intros st. unfold gradfilter_ma.
    pose proof (for_params_raise_source
                  (fun s : gmap string (deque (Tensor Idx)) =>
                     forall n, maxlen <$> s !! n = maxlen <$> st !! n)
                  (ma_body W lamb ft warmup trigger) m
                  (fun n p g s Hs => ma_body_maxlens W lamb ft warmup trigger n p g st s Hs)
                  st e (fun n => eq_refl)) as H.
    destruct (for_params _ m st) as [[m' st'] r']. simpl in *. intros Hr.
    destruct (H Hr) as (n & p & g & s & Hin & Hsel & Hlens & Hraise).
    specialize (Hlens n).
    destruct (ma_body_raise W lamb ft warmup trigger n p g s e Hraise)
      as [[Hn ->] | (d & Hd & [(-> & Hft & Hzero) | Hvalue])].
    - left. exists n, p, g. refine (conj Hin (conj Hsel (conj _ eq_refl))).
      rewrite Hn in Hlens. now destruct (st !! n).
    - right; left. repeat split; [exact Hft|].
      rewrite Hd in Hlens. destruct (st !! n) as [d0|] eqn:Hd0; [|discriminate].
      exists n, p, g, d0. simpl in Hlens. injection Hlens as Hlens.
      refine (conj Hin (conj Hsel (conj Hd0 _))). congruence.
    - right; right. exact Hvalue. }
  split; [exact Hsupplied|].
  intros Hnd. unfold gradfilter_ma at 1.
  destruct (ma_init W m) as [e0|st0] eqn:Hinit.
  - simpl. intros [= <-]. left. unfold ma_init, deque_new in Hinit.
    destruct (existsb _ m); [|discriminate].
    destruct (Z.ltb_spec W 0) as [Hneg|_]; [|discriminate].
    injection Hinit as <-. now split.
  - intros Hr.
    assert (Hcall : out_raised (gradfilter_ma m (Some st0) W lamb ft warmup trigger)
                    = Some e) by exact Hr.
    assert (Hentries : forall n p g, (n, p) ∈ m -> selected p = Some g ->
               (0 <= W)%Z /\ st0 !! n = Some (Deque (Some (Z.to_nat W)) [])).
    { intros n p g Hin Hsel. unfold ma_init, deque_new in Hinit.
      assert (Htrue : existsb (fun np : string * Param Idx =>
                                 bool_decide (is_Some (selected np.2))) m = true).
      { apply existsb_exists. exists (n, p). split; [now apply list_elem_of_In|].
        apply bool_decide_eq_true. simpl. rewrite Hsel. now eexists. }
      rewrite Htrue in Hinit.
      destruct (Z.ltb_spec W 0) as [Hneg|Hpos]; [discriminate|].
      injection Hinit as <-. split; [exact Hpos|].
      exact (comprehension_lookup _ m n p g Hnd Hin Hsel). }
    destruct (Hsupplied st0 Hcall)
      as [(n & p & g & Hin & Hsel & Hnone & _)
         | [(-> & Hft & n & p & g & d & Hin & Hsel & Hd & Hzero) | Hvalue]].
    + destruct (Hentries n p g Hin Hsel) as [_ Hsome]. congruence.
    + right; left. repeat split; [exact Hft|].
      destruct (Hentries n p g Hin Hsel) as [Hpos Hsome].
      rewrite Hsome in Hd. injection Hd as <-. simpl in Hzero.
      injection Hzero as Hzero. lia.
    + right; right. exact Hvalue.
Qed.
End Errors.

(** ** The window of the moving average *)

Section Window.
Context {A : Type}.

Lemma deque_append_items (d : deque A) (x : A) w :
  maxlen d = Some w ->
  deque_append d x = Deque (Some w) (drop (length (items d) + 1 - w) (items d ++ [x])).
Proof.
  intros Hw. unfold deque_append. rewrite Hw, length_app. reflexivity.
Qed.

(** X5.  The window is first-in first-out: after the snapshots [gs] have
    been appended, in order, to a fresh [deque(maxlen=w)], the buffer holds
    the last [w] of them in the order they came (all of them while there are
    at most [w]), and never more than [w]. *)
Theorem X5_window_holds_last_snapshots (w : nat) (gs : list A) :
  fold_left deque_append gs (Deque (Some w) []) =
    Deque (Some w) (drop (length gs - w) gs) /\
  deque_len (fold_left deque_append gs (Deque (Some w) [])) = Nat.min (length gs) w.
Proof.
  assert (H : fold_left deque_append gs (Deque (Some w) [])
              = Deque (Some w) (drop (length gs - w) gs)).
  { induction gs as [|x gs IH] using rev_ind; [reflexivity|].
    rewrite fold_left_app, IH. simpl.
    rewrite (deque_append_items (Deque (Some w) (drop (length gs - w) gs)) x w eq_refl).
    simpl. f_equal.
    rewrite length_drop, length_app. simpl.
    destruct (Nat.le_gt_cases (length gs) w) as [Hle|Hgt].
    - replace (length gs - w) with 0%nat by lia.
      replace (length gs - 0 + 1 - w)%nat with (length gs + 1 - w)%nat by lia.
      reflexivity.
    - replace (length gs - (length gs - w) + 1 - w)%nat with 1%nat by lia.
      rewrite <- drop_app_le by lia. rewrite drop_drop. f_equal. lia. }
  split; [exact H|].
  rewrite H. unfold deque_len. simpl. rewrite length_drop. lia.
Qed.
End Window.

Section WindowFill.
Context {Idx : Type}.
Implicit Types (p : Param Idx) (g : Tensor Idx) (m : NNModule Idx).
Local Open Scope R_scope.

Lemma fold_tadd_replicate g (j : nat) (a : Tensor Idx) :
  fold_left tadd (replicate j g) a = tadd a (tscale g (INR j)).
Proof.
  revert a. induction j as [|j IH]; intros a.
  - simpl. apply tensor_ext; intros i. unfold tadd, tscale. simpl. ring.
  - change (replicate (S j) g) with (g :: replicate j g). cbn [fold_left].
    rewrite IH. apply tensor_ext; intros i. unfold tadd, tscale.
    rewrite S_INR. ring.
Qed.

(** The aggregate of a window of [j >= 1] copies of [g]: [g] in mean mode,
    [j * g] in sum mode. *)
Lemma aggregate_replicate ft g (j : nat) mx :
  j ≠ 0%nat -> ft = "mean" \/ ft = "sum" ->
  aggregate ft (Deque mx (replicate j g)) =
    inr (tscale g (if String.eqb ft "mean" then 1 else INR j)).
Proof.
  intros Hj Hft. unfold aggregate, deque_len, tsum. simpl items.
  rewrite length_replicate, fold_tadd_replicate.
  destruct Hft as [-> | ->]; simpl.
  - apply Nat.eqb_neq in Hj. rewrite Hj. f_equal.
    apply tensor_ext; intros i. unfold tdivs, tadd, tscale, tfull. field.
    apply not_0_INR. now apply Nat.eqb_neq.
  - f_equal. apply tensor_ext; intros i. unfold tadd, tscale, tfull. ring.
Qed.

Lemma deque_append_replicate g (w j : nat) :
  (j <= w)%nat ->
  deque_append (Deque (Some w) (replicate j g)) g
  = Deque (Some w) (replicate (Nat.min (S j) w) g).
Proof.
  intros Hj. rewrite (deque_append_items (Deque (Some w) (replicate j g)) g w eq_refl).
  cbn [items]. f_equal.
  rewrite length_replicate.
  change (replicate j g ++ [g]) with (replicate j g ++ replicate 1 g).
  rewrite <- replicate_add, drop_replicate. f_equal. lia.
Qed.

Lemma ma_first_call m W (lamb : R) ft warmup trigger st0 :
  ma_init W m = inr st0 ->
  gradfilter_ma m None W lamb ft warmup trigger
  = gradfilter_ma m (Some st0) W lamb ft warmup trigger.
Proof. intros Hinit. unfold gradfilter_ma. now rewrite Hinit. Qed.

(** The image of a call on a state whose buffers all hold [j] copies of the
    parameter's own gradient. *)
Lemma call_image_replicate m (st : gmap string (deque (Tensor Idx))) W (lamb : R) ft
    (w j : nat) :
  w = Z.to_nat W -> (1 <= W)%Z -> (j <= w)%nat -> ft = "mean" \/ ft = "sum" ->
  (forall n p g, (n, p) ∈ m -> selected p = Some g ->
                 st !! n = Some (Deque (Some w) (replicate j g))) ->
  call_image (ma_grad W lamb ft true false) (fun g d => deque_append d g) st m =
    if (S j <? w)%nat then m
    else map (scale_grad (1 + (if String.eqb ft "mean" then 1 else INR w) * lamb)) m.
Proof.
  intros Hw HW Hj Hft Hst. unfold call_image.
  assert (Hpoint : forall np, np ∈ m ->
            (np.1, match selected np.2, st !! np.1 with
                   | Some g, Some e => ma_grad W lamb ft true false np.2 g (deque_append e g)
                   | _, _ => np.2
                   end)
            = if (S j <? w)%nat then np
              else scale_grad (1 + (if String.eqb ft "mean" then 1 else INR w) * lamb) np).
  { intros [n p] Hin. unfold scale_grad. simpl.
    destruct (selected p) as [g|] eqn:Hsel; [|now destruct (S j <? w)%nat].
    rewrite (Hst n p g Hin Hsel), (deque_append_replicate g w j Hj).
    unfold ma_grad, ma_filters, deque_len. cbn [items negb orb].
    rewrite length_replicate, andb_true_r.
    destruct (Nat.ltb_spec (S j) w) as [Hlt|Hge].
    - destruct (Z.eqb_spec (Z.of_nat (Nat.min (S j) w)) W) as [Heq|_]; [lia|].
      reflexivity.
    - destruct (Z.eqb_spec (Z.of_nat (Nat.min (S j) w)) W) as [_|Hne]; [|lia].
      rewrite aggregate_replicate by (lia || assumption).
      replace (Nat.min (S j) w) with w by lia.
      do 2 f_equal. apply tensor_ext; intros i. unfold tadd, tscale. ring. }
  destruct (S j <? w)%nat.
  - rewrite <- (map_id m) at 2. apply map_ext_in. intros np Hin.
    apply Hpoint. now apply list_elem_of_In.
  - apply map_ext_in. intros np Hin. apply Hpoint. now apply list_elem_of_In.
Qed.

(** X6.  The window fills, then the filter amplifies.  [gradfilter_ma]
    called again and again from no state on the same gradients, with
    [window_size = W >= 1], warmup on, trigger off, in mean or sum mode
    (distinct names).  The call number [k + 1] returns; it leaves every buffer
    with [min (k + 1) W] copies of the parameter's gradient; it leaves the
    gradients untouched while [k + 1 < W], and from call [W] on it multiplies
    every selected gradient by [1 + lamb] in mean mode and by [1 + W * lamb] in
    sum mode. *)
Theorem X6_window_fill_then_amplify m W (lamb : R) ft (k : nat) :
  NoDup m.*1 -> (1 <= W)%Z -> ft = "mean" \/ ft = "sum" ->
  out_raised (gradfilter_ma m (ma_calls m W lamb ft true false k)
                W lamb ft true false) = None /\
  (forall n p g, (n, p) ∈ m -> selected p = Some g ->
      entry (ma_calls m W lamb ft true false (S k)) n
      = Some (Deque (Some (Z.to_nat W)) (replicate (Nat.min (S k) (Z.to_nat W)) g))) /\
  out_model (gradfilter_ma m (ma_calls m W lamb ft true false k) W lamb ft true false)
  = if (S k <? Z.to_nat W)%nat then m
    else map (scale_grad
                (1 + (if String.eqb ft "mean" then 1 else INR (Z.to_nat W)) * lamb)) m.
Proof.
  intros Hnd HW Hft. set (w := Z.to_nat W).
  assert (Hcall : forall j st, (j <= w)%nat ->
             (forall n p g, (n, p) ∈ m -> selected p = Some g ->
                            st !! n = Some (Deque (Some w) (replicate j g))) ->
             out_raised (gradfilter_ma m (Some st) W lamb ft true false) = None /\
             (forall n p g, (n, p) ∈ m -> selected p = Some g ->
                 entry (out_state (gradfilter_ma m (Some st) W lamb ft true false)) n
                 = Some (Deque (Some w) (replicate (Nat.min (S j) w) g))) /\
             out_model (gradfilter_ma m (Some st) W lamb ft true false)
             = if (S j <? w)%nat then m
               else map (scale_grad
                           (1 + (if String.eqb ft "mean" then 1 else INR w) * lamb)) m).
  { intros j st Hj Hst.
    assert (Hret : out_raised (gradfilter_ma m (Some st) W lamb ft true false) = None).
    { apply gradfilter_ma_returns; [exact Hft|].
      intros n p g Hin Hsel. eexists; split; [exact (Hst n p g Hin Hsel)|].
      simpl. intros [= Hzero]. lia. }
    destruct (ma_call_returned m st W lamb ft true false Hnd Hret) as [Hmodel Hent].
    split; [exact Hret|]. split.
    - intros n p g Hin Hsel. destruct (Hent n p g Hin Hsel) as (d & Hd & ->).
      rewrite (Hst n p g Hin Hsel) in Hd. injection Hd as <-.
      now rewrite deque_append_replicate.
    - rewrite Hmodel. now apply (call_image_replicate m st W lamb ft w j). }
  assert (Hinv : forall j,
             exists st, (forall n p g, (n, p) ∈ m -> selected p = Some g ->
                            st !! n = Some (Deque (Some w) (replicate (Nat.min j w) g))) /\
                        gradfilter_ma m (ma_calls m W lamb ft true false j)
                          W lamb ft true false
                        = gradfilter_ma m (Some st) W lamb ft true false).
  { induction j as [|j (st & Hst & Heq)].
    - destruct (ma_init_entries m W Hnd) as (st0 & Hinit & Hst0); [lia|].
      exists st0. split; [exact Hst0|]. simpl. now apply ma_first_call.
    - destruct (Hcall (Nat.min j w) st) as (_ & Hent & _); [lia|exact Hst|].
      cbn [ma_calls]. rewrite Heq.
      destruct (out_state (gradfilter_ma m (Some st) W lamb ft true false))
        as [st'|] eqn:Hst'.
      + exists st'. split; [|reflexivity]. intros n p g Hin Hsel.
        specialize (Hent n p g Hin Hsel). cbn [entry] in Hent. rewrite Hent.
        now replace (Nat.min (S (Nat.min j w)) w) with (Nat.min (S j) w) by lia.
      + unfold gradfilter_ma in Hst'.
        destruct (for_params _ m st) as [[? ?] ?]. discriminate Hst'. }
  destruct (Hinv k) as (st & Hst & Heq).
  destruct (Hcall (Nat.min k w) st) as (Hret & Hent & Hmodel); [lia|exact Hst|].
  cbn [ma_calls]. rewrite Heq. split; [exact Hret|]. split.
  - intros n p g Hin Hsel. rewrite (Hent n p g Hin Hsel).
    now replace (Nat.min (S (Nat.min k w)) w) with (Nat.min (S k) w) by lia.
  - rewrite Hmodel.
    destruct (Nat.ltb_spec (S (Nat.min k w)) w), (Nat.ltb_spec (S k) w);
      (reflexivity || lia).
Qed.
End WindowFill.

(** ** Window of one; the exponential filter at its fixed point *)

Section Stateless.
Context {Idx : Type}.
Implicit Types (p : Param Idx) (g : Tensor Idx) (m : NNModule Idx).
Local Open Scope R_scope.

Lemma call_image_pointwise {V : Type}
    (out : Param Idx -> Tensor Idx -> V -> Param Idx) (upd : Tensor Idx -> V -> V)
    (st : gmap string V) m (f : string * Param Idx -> string * Param Idx) :
  (forall n p, (n, p) ∈ m ->
     (n, match selected p, st !! n with
         | Some g, Some e => out p g (upd g e)
         | _, _ => p
         end) = f (n, p)) ->
  call_image out upd st m = map f m.
Proof.
  intros H. unfold call_image. apply map_ext_in. intros [n p] Hin.
  apply H. now apply list_elem_of_In.
Qed.

Lemma call_image_elem {V : Type}
    (out : Param Idx -> Tensor Idx -> V -> Param Idx) (upd : Tensor Idx -> V -> V)
    (st : gmap string V) m n p g e :
  (n, p) ∈ m -> selected p = Some g -> st !! n = Some e ->
  (n, out p g (upd g e)) ∈ call_image out upd st m.
Proof.
  intros Hin Hsel He. unfold call_image. apply list_elem_of_fmap.
  exists (n, p). split; [|exact Hin]. simpl. now rewrite Hsel, He.
Qed.

Lemma deque_append_window_one (d : deque (Tensor Idx)) g :
  maxlen d = Some 1%nat -> deque_append d g = Deque (Some 1%nat) [g].
Proof.
  intros Hd. rewrite (deque_append_items d g 1 Hd). f_equal.
  replace (length (items d) + 1 - 1)%nat with (length (items d)) by lia.
  now rewrite drop_app_length.
Qed.

Lemma aggregate_single ft g mx :
  ft = "mean" \/ ft = "sum" -> aggregate ft (Deque mx [g]) = inr g.
Proof.
  intros Hft. change [g] with (replicate 1 g).
  rewrite (aggregate_replicate ft g 1 mx) by (lia || assumption). f_equal.
  apply tensor_ext; intros i. unfold tscale.
  destruct (String.eqb ft "mean"); simpl; ring.
Qed.

(** X7.  A window of one is a stateless amplifier.  With
    [window_size = 1], trigger off, mean or sum mode, and a state whose
    buffers have [maxlen = 1] (distinct names), every call returns, multiplies
    every selected gradient by [1 + lamb] whatever the buffers held and
    whatever the warmup flag, and leaves each buffer holding just the current
    gradient. *)
Theorem X7_window_of_one_amplifies m st (lamb : R) ft warmup :
  NoDup m.*1 -> ft = "mean" \/ ft = "sum" ->
  (forall n p g, (n, p) ∈ m -> selected p = Some g ->
                 exists d, st !! n = Some d /\ maxlen d = Some 1%nat) ->
  out_raised (gradfilter_ma m (Some st) 1 lamb ft warmup false) = None /\
  out_model (gradfilter_ma m (Some st) 1 lamb ft warmup false)
    = map (scale_grad (1 + lamb)) m /\
  forall n p g, (n, p) ∈ m -> selected p = Some g ->
    entry (out_state (gradfilter_ma m (Some st) 1 lamb ft warmup false)) n
    = Some (Deque (Some 1%nat) [g]).
Proof.
  intros Hnd Hft Hst.
  assert (Hret : out_raised (gradfilter_ma m (Some st) 1 lamb ft warmup false) = None).
  { apply gradfilter_ma_returns; [exact Hft|].
    intros n p g Hin Hsel. destruct (Hst n p g Hin Hsel) as (d & Hd & Hone).
    exists d. split; [exact Hd|]. congruence. }
  destruct (ma_call_returned m st 1 lamb ft warmup false Hnd Hret) as [Hmodel Hent].
  split; [exact Hret|]. split.
  - rewrite Hmodel. apply call_image_pointwise. intros n p Hin. unfold scale_grad. simpl.
    destruct (selected p) as [g|] eqn:Hsel; [|reflexivity].
    destruct (Hst n p g Hin Hsel) as (d & -> & Hone).
    rewrite (deque_append_window_one d g Hone).
    unfold ma_grad, ma_filters, deque_len. cbn [items length].
    rewrite (aggregate_single ft g _ Hft).
    replace (negb warmup || (Z.of_nat 1 =? 1)%Z && negb false) with true
      by (now destruct warmup).
    do 2 f_equal. apply tensor_ext; intros i. unfold tadd, tscale. ring.
  - intros n p g Hin Hsel. destruct (Hent n p g Hin Hsel) as (d & Hd & ->).
    destruct (Hst n p g Hin Hsel) as (d' & Hd' & Hone).
    rewrite Hd in Hd'. injection Hd' as <-.
    now rewrite (deque_append_window_one d g Hone).
Qed.

Lemma ema_acc_fixed (alpha : R) g : ema_acc alpha g g = g.
Proof. apply ema_blend_seed. Qed.

Lemma ema_grad_fixed (lamb : R) p g :
  1 + lamb <> 0 -> selected p = Some g -> ema_grad lamb p g g = p.
Proof.
  intros Hlamb Hsel. unfold ema_grad. apply (set_grad_pointwise p g _ Hsel).
  intros i. unfold tdivs, tadd, tscale. now field.
Qed.

Lemma ema_fixed_point_call m st (alpha lamb : R) :
  NoDup m.*1 -> 1 + lamb <> 0 ->
  (forall n p g, (n, p) ∈ m -> selected p = Some g -> st !! n = Some g) ->
  gradfilter_ema m (Some st) alpha lamb false = Outcome m (Some st) None.
Proof.
  intros Hnd Hlamb Hst. unfold gradfilter_ema.
  rewrite (for_params_noop (ema_body alpha lamb false) m st); [reflexivity|].
  intros n p g Hin Hsel.
  rewrite (ema_body_entry alpha lamb n p g st g (Hst n p g Hin Hsel)).
  rewrite ema_acc_fixed, (ema_grad_fixed lamb p g Hlamb Hsel).
  now rewrite (insert_id st n g (Hst n p g Hin Hsel)).
Qed.

(** X8.  The exponential filter has the current gradient as a fixed
    point: when [lamb] is not -1 and every accumulator equals its parameter's
    gradient, a call (trigger off, any [alpha]) changes neither the gradients
    nor the state.  The first call is such a call: it seeds the accumulators
    with the gradients, so it returns every gradient unchanged. *)
Theorem X8_ema_fixed_point m (alpha lamb : R) :
  NoDup m.*1 -> 1 + lamb <> 0 ->
  (forall st,
      (forall n p g, (n, p) ∈ m -> selected p = Some g -> st !! n = Some g) ->
      gradfilter_ema m (Some st) alpha lamb false = Outcome m (Some st) None) /\
  gradfilter_ema m None alpha lamb false
    = Outcome m (Some (comprehension (fun _ gr => gr) m)) None.
Proof.
  intros Hnd Hlamb. split.
  - intros st Hst. now apply ema_fixed_point_call.
  - change (gradfilter_ema m None alpha lamb false)
      with (gradfilter_ema m (Some (comprehension (fun _ gr => gr) m)) alpha lamb false).
    apply ema_fixed_point_call; [exact Hnd|exact Hlamb|].
    intros n p g Hin Hsel.
    exact (comprehension_lookup (fun _ gr => gr) m n p g Hnd Hin Hsel).
Qed.

(** X9.  The two ends of [alpha].  On a state with an entry for every
    selected parameter (distinct names, trigger off): with [alpha = 0] and
    [lamb] not -1 the call returns every gradient unchanged and each
    accumulator becomes the current gradient; with [alpha = 1] the call leaves
    the state as it was and sets each gradient to
    [(g + acc * lamb) / (1 + lamb)]. *)
Theorem X9_ema_alpha_zero_and_one m st (lamb : R) :
  NoDup m.*1 ->
  (forall n p g, (n, p) ∈ m -> selected p = Some g -> is_Some (st !! n)) ->
  (1 + lamb <> 0 ->
   out_model (gradfilter_ema m (Some st) 0 lamb false) = m /\
   out_raised (gradfilter_ema m (Some st) 0 lamb false) = None /\
   forall n p g, (n, p) ∈ m -> selected p = Some g ->
     entry (out_state (gradfilter_ema m (Some st) 0 lamb false)) n = Some g) /\
  gradfilter_ema m (Some st) 1 lamb false
    = Outcome (call_image (ema_grad lamb) (fun _ acc => acc) st m) (Some st) None.
Proof.
  intros Hnd Hst. split.
  - intros Hlamb.
    pose proof (gradfilter_ema_returns m st 0 lamb false Hst) as Hret.
    destruct (ema_call_returned m st 0 lamb Hnd Hret) as [Hmodel Hent].
    assert (Hacc : forall g acc, ema_acc 0 g acc = g).
    { intros g acc. apply tensor_ext; intros i. unfold ema_acc, tadd, tscale. ring. }
    split; [|split; [exact Hret|]].
    + rewrite Hmodel. rewrite <- (map_id m) at 2.
      apply call_image_pointwise. intros n p Hin.
      destruct (selected p) as [g|] eqn:Hsel; [|reflexivity].
      destruct (Hst n p g Hin Hsel) as [acc ->].
      now rewrite Hacc, (ema_grad_fixed lamb p g Hlamb Hsel).
    + intros n p g Hin Hsel. destruct (Hent n p g Hin Hsel) as (acc & _ & ->).
      now rewrite Hacc.
  - unfold gradfilter_ema.
    rewrite (for_params_fixed_state (ema_body 1 lamb false) m st).
    + f_equal. unfold call_image. apply map_ext_in. intros [n p] Hin.
      apply list_elem_of_In in Hin. simpl.
      destruct (selected p) as [g|] eqn:Hsel; [|reflexivity].
      destruct (Hst n p g Hin Hsel) as [acc Hacc].
      rewrite (ema_body_entry 1 lamb n p g st acc Hacc), Hacc. simpl.
      do 2 f_equal. apply tensor_ext; intros i. unfold ema_acc, tadd, tscale. ring.
    + intros n p g Hin Hsel. destruct (Hst n p g Hin Hsel) as [acc Hacc].
      rewrite (ema_body_entry 1 lamb n p g st acc Hacc). simpl. split; [|reflexivity].
      replace (ema_acc 1 g acc) with acc
        by (apply tensor_ext; intros i; unfold ema_acc, tadd, tscale; ring).
      now apply insert_id.
Qed.

(** X10.  The exponential filter never amplifies.  For [alpha] in [0,1]
    and [lamb >= 0], after a returning call (distinct names, trigger off) the
    new accumulator of a selected parameter lies, element by element, between
    the old accumulator and the gradient, and the new gradient lies between
    the incoming gradient and the new accumulator, hence between the incoming
    gradient and the old accumulator. *)
Theorem X10_ema_stays_between m st (alpha lamb : R) n p g acc :
  NoDup m.*1 -> 0 <= alpha <= 1 -> 0 <= lamb ->
  out_raised (gradfilter_ema m (Some st) alpha lamb false) = None ->
  (n, p) ∈ m -> selected p = Some g -> st !! n = Some acc ->
  exists acc' g',
    entry (out_state (gradfilter_ema m (Some st) alpha lamb false)) n = Some acc' /\
    (n, set_grad p g') ∈ out_model (gradfilter_ema m (Some st) alpha lamb false) /\
    forall i,
      Rmin (acc i) (g i) <= acc' i <= Rmax (acc i) (g i) /\
      Rmin (g i) (acc' i) <= g' i <= Rmax (g i) (acc' i) /\
      Rmin (acc i) (g i) <= g' i <= Rmax (acc i) (g i).
Proof.
  intros Hnd Halpha Hlamb Hret Hin Hsel Hacc.
  destruct (ema_call_returned m st alpha lamb Hnd Hret) as [Hmodel Hent].
  exists (ema_acc alpha g acc),
         (tdivs (tadd g (tscale (ema_acc alpha g acc) lamb)) (1 + lamb)).
  split; [|split].
  - destruct (Hent n p g Hin Hsel) as (acc0 & Hacc0 & Hnew).
    pose proof (eq_trans (eq_sym Hacc0) Hacc) as Hsame.
    injection Hsame as ->. exact Hnew.
  - rewrite Hmodel.
    exact (call_image_elem (ema_grad lamb) (ema_acc alpha) st m n p g acc Hin Hsel Hacc).
  - intros i. unfold ema_acc, tdivs, tadd, tscale.
    set (a := acc i). set (x := g i).
    assert (Hdiv : (x + (a * alpha + x * (1 - alpha)) * lamb) / (1 + lamb)
                   = x + lamb / (1 + lamb) * alpha * (a - x)) by (field; lra).
    assert (Ht : 0 <= lamb / (1 + lamb) <= 1).
    { split; [unfold Rdiv; apply Rmult_le_pos;
                [lra|left; apply Rinv_0_lt_compat; lra]|].
      apply (Rmult_le_reg_r (1 + lamb)); [lra|]. field_simplify; lra. }
    assert (Hta : 0 <= lamb / (1 + lamb) * alpha <= 1) by nra.
    rewrite Hdiv. set (t := lamb / (1 + lamb)) in *.
    assert (Hblend : a * alpha + x * (1 - alpha) = x + alpha * (a - x)) by ring.
    rewrite Hblend.
    unfold Rmin, Rmax.
    repeat destruct (Rle_dec _ _); repeat split; nra.
Qed.
End Stateless.

(** ** More on the Kalman filter *)

Section KalmanMore.
Context {Idx : Type}.
Implicit Types (p : Param Idx) (g : Tensor Idx) (m : NNModule Idx).
Local Open Scope R_scope.

Lemma kalman_update_bounds (q r : R) g (e : KalmanEntry Idx) (i : Idx) :
  0 < q -> 0 < r -> 0 <= kP e i ->
  0 < kP (kalman_update q r g e) i < r /\
  Rmin (kx e i) (g i) <= kx (kalman_update q r g e) i <= Rmax (kx e i) (g i).
Proof.
  intros Hq Hr HP. unfold kalman_update, tmul, ssub, tdiv, tadd, tsub, tfull. simpl.
  set (P := kP e i) in *. set (x := kx e i).
  assert (HK : 0 < (P + q) / (P + q + r) < 1).
  { split; [apply Rdiv_lt_0_compat; lra|].
    apply (Rmult_lt_reg_r (P + q + r)); [lra|]. field_simplify; lra. }
  set (K := (P + q) / (P + q + r)) in *.
  assert (HKP : K * (P + q + r) = P + q) by (unfold K; field; lra).
  split.
  - split; nra.
  - unfold Rmin, Rmax. destruct (Rle_dec x (g i)); split; nra.
Qed.

(** X11.  One Kalman call keeps the variance in range.  With
    [process_noise > 0] and [measurement_noise > 0], after a returning call
    (distinct names), for a selected parameter and an element whose stored
    variance was not negative: the new variance is positive and below the
    measurement noise, and the new estimate lies between the old estimate and
    the gradient (the gain is between 0 and 1). *)
Theorem X11_kalman_call_keeps_variance_in_range m st (q r lamb : R) n p g e :
  NoDup m.*1 -> 0 < q -> 0 < r ->
  out_raised (gradfilter_kalman m (Some st) q r lamb) = None ->
  (n, p) ∈ m -> selected p = Some g -> st !! n = Some e ->
  exists e',
    entry (out_state (gradfilter_kalman m (Some st) q r lamb)) n = Some e' /\
    (n, set_grad p (tadd g (tscale (kx e') lamb)))
      ∈ out_model (gradfilter_kalman m (Some st) q r lamb) /\
    forall i, 0 <= kP e i ->
      0 < kP e' i < r /\
      Rmin (kx e i) (g i) <= kx e' i <= Rmax (kx e i) (g i).
Proof.
  intros Hnd Hq Hr Hret Hin Hsel He.
  destruct (kalman_call_returned m st q r lamb Hnd Hret) as [Hmodel Hent].
  exists (kalman_update q r g e). split; [|split].
  - destruct (Hent n p g Hin Hsel) as (e0 & He0 & Hnew).
    pose proof (eq_trans (eq_sym He0) He) as Hsame.
    injection Hsame as ->. exact Hnew.
  - rewrite Hmodel.
    exact (call_image_elem (kalman_grad lamb) (kalman_update q r) st m n p g e
             Hin Hsel He).
  - intros i HP. now apply kalman_update_bounds.
Qed.

Lemma kalman_iter_variance_free (q r : R) g g' (k : nat) (i i' : Idx) :
  kP (kalman_iter q r g k) i = kP (kalman_iter q r g' k) i'.
Proof.
  induction k as [|k IH]; [reflexivity|].
  simpl. unfold tmul, ssub, tdiv, tadd, tfull. now rewrite IH.
Qed.

(** X12.  The stored variance does not depend on the gradients.  After
    the same number of calls from no state, with the same two noises, the
    variance of any element of any selected parameter is the same number, in
    any two modules (distinct names), whatever their gradients and whatever
    [lamb]. *)
Theorem X12_kalman_variance_ignores_gradients m m' (q r lamb lamb' : R)
    n n' p p' g g' (k : nat) (i i' : Idx) :
  NoDup m.*1 -> (n, p) ∈ m -> selected p = Some g ->
  NoDup m'.*1 -> (n', p') ∈ m' -> selected p' = Some g' ->
  kalman_variance m q r lamb n k i = kalman_variance m' q r lamb' n' k i'.
Proof.
  intros Hnd Hin Hsel Hnd' Hin' Hsel'.
  destruct (kalman_stored q r m lamb n p g Hnd Hin Hsel k i) as [_ ->].
  destruct (kalman_stored q r m' lamb' n' p' g' Hnd' Hin' Hsel' k i') as [_ ->].
  apply kalman_iter_variance_free.
Qed.

Lemma kalman_call_gradient m (q r lamb : R) n p g (k : nat) :
  NoDup m.*1 -> (n, p) ∈ m -> selected p = Some g ->
  (n, set_grad p (tadd g (tscale (kx (kalman_iter q r g (S k))) lamb)))
    ∈ out_model (gradfilter_kalman m (kalman_calls m q r lamb k) q r lamb).
Proof.
  intros Hnd Hin Hsel.
  destruct (kalman_calls_spec m q r lamb Hnd k) as [Hret _].
  assert (Hstate : exists st,
             gradfilter_kalman m (kalman_calls m q r lamb k) q r lamb
             = gradfilter_kalman m (Some st) q r lamb /\
             st !! n = Some (kalman_iter q r g k)).
  { destruct k as [|k].
    - exists (kalman_init r m). split; [reflexivity|].
      unfold kalman_init. now rewrite (comprehension_lookup _ m n p g Hnd Hin Hsel).
    - destruct (kalman_calls_spec m q r lamb Hnd k) as [_ Hent].
      specialize (Hent n p g Hin Hsel).
      destruct (kalman_calls m q r lamb (S k)) as [st|]; [|discriminate Hent].
      exists st. split; [reflexivity|exact Hent]. }
  destruct Hstate as (st & Heq & Hst). rewrite Heq in Hret |- *.
  destruct (kalman_call_returned m st q r lamb Hnd Hret) as [-> _].
  exact (call_image_elem (kalman_grad lamb) (kalman_update q r) st m n p g _
           Hin Hsel Hst).
Qed.

(** X13.  What the optimizer receives from the Kalman filter on a
    constant gradient.  With noises [q > 0], [r > 0], calls from no state on
    the same gradients (distinct names): call [k + 1] hands back, for a
    selected parameter, the gradient [g + x * lamb] with [x] the estimate it
    has just stored; element by element this tends to [(1 + lamb) * g]. *)
Theorem X13_kalman_output_tends_to_amplified_gradient m (q r lamb : R) n p g :
  0 < q -> 0 < r ->
  NoDup m.*1 -> (n, p) ∈ m -> selected p = Some g ->
  (forall k,
      (n, set_grad p (tadd g (tscale (kalman_estimate m q r lamb n (S k)) lamb)))
        ∈ out_model (gradfilter_kalman m (kalman_calls m q r lamb k) q r lamb)) /\
  (forall i,
      Un_cv (fun k => tadd g (tscale (kalman_estimate m q r lamb n (S k)) lamb) i)
            ((1 + lamb) * g i)).
Proof.
  intros Hq Hr Hnd Hin Hsel.
  assert (Hest : forall k, kalman_estimate m q r lamb n k = kx (kalman_iter q r g k)).
  { intros k. apply tensor_ext; intros i.
    exact (proj1 (kalman_stored q r m lamb n p g Hnd Hin Hsel k i)). }
  pose proof (noise_ratio_below_one q r Hq Hr) as Hratio.
  split.
  - intros k. rewrite Hest. now apply kalman_call_gradient.
  - intros i.
    apply (geometric_cv _ _ ((Rabs lamb + 1) * (Rabs (g i) + 1)) (r / (q + r))).
    + pose proof (Rabs_pos lamb). pose proof (Rabs_pos (g i)). nra.
    + lra.
    + intros k. rewrite Hest. unfold tadd, tscale.
      replace (g i + kx (kalman_iter q r g (S k)) i * lamb - (1 + lamb) * g i)
        with (- lamb * (g i - kx (kalman_iter q r g (S k)) i)) by ring.
      rewrite Rabs_mult, Rabs_Ropp.
      pose proof (proj2 (iter_estimate q r Hq Hr g i (S k))) as Hbound.
      pose proof (proj2 (iter_estimate q r Hq Hr g i k)) as Hbound0.
      pose proof (Rabs_pos lamb) as Hl.
      pose proof (Rabs_pos (g i - kx (kalman_iter q r g (S k)) i)) as Hd.
      pose proof (Rabs_pos (g i)) as Hg.
      assert (Hpow : 0 <= (r / (q + r)) ^ k) by (apply pow_le; lra).
      simpl pow in Hbound.
      apply Rle_trans with (Rabs lamb * ((Rabs (g i) + 1) * (r / (q + r)) ^ k)).
      * apply Rmult_le_compat_l; [exact Hl|].
        eapply Rle_trans; [exact Hbound|].
        replace ((Rabs (g i) + 1) * (r / (q + r) * (r / (q + r)) ^ k))
          with (r / (q + r) * ((Rabs (g i) + 1) * (r / (q + r)) ^ k)) by ring.
        assert (0 <= (Rabs (g i) + 1) * (r / (q + r)) ^ k)
          by (apply Rmult_le_pos; lra).
        nra.
      * rewrite <- Rmult_assoc. apply Rmult_le_compat_r; [exact Hpow|].
        apply Rmult_le_compat_r; lra.
Qed.
End KalmanMore.

(** ** The training step in its first stage *)

Section StageOne.
Context {Idx : Type}.
Implicit Types (p : Param Idx) (g : Tensor Idx) (m : NNModule Idx).
Local Open Scope R_scope.

Lemma ma_triggered_warmup_keeps_gradients m grads W (lamb : R) ft :
  out_model (gradfilter_ma m grads W lamb ft true true) = m.
Proof.
  unfold gradfilter_ma.
  destruct (match grads with Some g => inr g | None => ma_init W m end) as [e|st];
    [reflexivity|].
  assert (H : (for_params (ma_body W lamb ft true true) m st).1.1 = m).
  { apply for_params_model_id. intros n p g s _. unfold ma_body.
    destruct (s !! n) as [d|]; [|reflexivity]. simpl. now rewrite andb_false_r. }
  now destruct (for_params _ m st) as [[m' g'] r'].
Qed.

Lemma ema_triggered_keeps_gradients m grads (alpha lamb : R) :
  out_model (gradfilter_ema m grads alpha lamb true) = m.
Proof.
  unfold gradfilter_ema.
  set (st := match grads with Some g => g | None => _ end).
  rewrite (for_params_noop (ema_body alpha lamb true) m st); [reflexivity|].
  intros n p g _ _. reflexivity.
Qed.

(** X14.  The first stage of a two-stage run.  While
    [i < args.starting_point] with [args.two_stage] set, the training step
    with the filter ["ma"] or ["ema"] hands every gradient to the optimizer as
    the backward pass left it, whatever the state variable holds; with
    ["ema"] and a state from an earlier step the state is not touched either,
    and on the very first step the state becomes the snapshot of that step's
    gradients.  (The step calls [gradfilter_ma] with warmup on, so the case in
    which the trigger is ignored cannot arise from the training loop.) *)
Theorem X14_first_stage_leaves_gradients (args : Args) (i : Z) m
    (grads : option (FilterState Idx)) :
  args_two_stage args = true -> (i < args_starting_point args)%Z ->
  (args_filter args = "ma" -> out_model (filter_step args i m grads) = m) /\
  (args_filter args = "ema" ->
     out_model (filter_step args i m grads) = m /\
     (forall st, grads = Some (TensorState st) ->
                 filter_step args i m grads = Outcome m grads None) /\
     (grads = None ->
      filter_step args i m grads =
        Outcome m (Some (TensorState (comprehension (fun _ gr => gr) m))) None)).
Proof.
  intros Htwo Hi. apply Z.ltb_lt in Hi. split.
  - intros Hma. unfold filter_step. rewrite Hma, Htwo, Hi. simpl.
    destruct grads as [[st|st|st]|]; simpl;
      (reflexivity || apply ma_triggered_warmup_keeps_gradients).
  - intros Hema. unfold filter_step. rewrite Hema, Htwo, Hi. simpl.
    split; [|split].
    + destruct grads as [[st|st|st]|]; simpl;
        (reflexivity || apply ema_triggered_keeps_gradients).
    + intros st ->. unfold lift_outcome, gradfilter_ema.
      rewrite (for_params_noop (ema_body (args_alpha args) (args_lamb args) true) m st);
        [reflexivity|].
      intros n p g _ _. reflexivity.
    + intros ->. unfold lift_outcome, gradfilter_ema.
      rewrite (for_params_noop (ema_body (args_alpha args) (args_lamb args) true) m);
        [reflexivity|].
      intros n p g _ _. reflexivity.
Qed.
End StageOne.

(** * The data set *)

Section Dataset.
Local Open Scope Z_scope.

Lemma cartesian_prod_elem (xs ys : list Z) (a b : Z) :
  (a, b) ∈ cartesian_prod xs ys <-> a ∈ xs /\ b ∈ ys.
Proof.
  unfold cartesian_prod. rewrite list_elem_of_In, in_flat_map. split.
  - intros (x & Hx & Hin). apply in_map_iff in Hin as (y & [= <- <-] & Hy).
    split; now apply list_elem_of_In.
  - intros [Ha Hb]. exists a. split; [now apply list_elem_of_In|].
    apply in_map_iff. exists b. split; [reflexivity|now apply list_elem_of_In].
Qed.

Lemma cartesian_prod_length (xs ys : list Z) :
  length (cartesian_prod xs ys) = (length xs * length ys)%nat.
Proof.
  unfold cartesian_prod. induction xs as [|x xs IH]; [reflexivity|].
  simpl. rewrite length_app, length_map, IH. reflexivity.
Qed.

Lemma cartesian_prod_NoDup (xs ys : list Z) :
  NoDup xs -> NoDup ys -> NoDup (cartesian_prod xs ys).
Proof.
  intros Hxs Hys. induction Hxs as [|x xs Hx Hxs IH]; [constructor|].
  change (cartesian_prod (x :: xs) ys)
    with (map (fun y => (x, y)) ys ++ cartesian_prod xs ys).
  apply NoDup_app. split; [|split; [|exact IH]].
  - apply (NoDup_fmap_2_strong (fun y => (x, y))); [|exact Hys].
    now intros y1 y2 _ _ [= ->].
  - intros [a b] Hin Hin'. apply list_elem_of_fmap in Hin as (y & [= -> ->] & _).
    apply cartesian_prod_elem in Hin' as [Hin' _]. contradiction.
Qed.

Lemma zip_with_fst_snd {C : Type} (f : Z -> Z -> C) (l : list (Z * Z)) :
  zip_with f l.*1 l.*2 = map (fun ab => f ab.1 ab.2) l.
Proof.
  induction l as [|[a b] l IH]; [reflexivity|].
  rewrite !fmap_cons. cbn [zip_with map fst snd]. f_equal. exact IH.
Qed.

(** The rows of the data set for [p >= 1]. *)
Lemma dataset_rows (p eq_token op_token : Z) :
  1 <= p ->
  let xy := cartesian_prod (seqZ 0 p) (seqZ 1 (p - 1)) in
  multiplication_mod_p_data p eq_token op_token =
    Some [xy.*1; map (fun _ => op_token) xy.*1; xy.*2; map (fun _ => eq_token) xy.*1;
          map (fun ab => (ab.1 ^ 2 + ab.1 * ab.2 + ab.2 ^ 2) mod p) xy] /\
  length xy = Z.to_nat (p * (p - 1)) /\
  NoDup xy /\
  (forall a b, (a, b) ∈ xy <-> 0 <= a < p /\ 1 <= b < p).
Proof.
  intros Hp xy. split; [|split; [|split]].
  - unfold multiplication_mod_p_data, arange.
    destruct (Z.ltb_spec p 0) as [Hneg|_]; [lia|].
    destruct (Z.ltb_spec p 1) as [Hneg|_]; [lia|].
    rewrite Z.sub_0_r. fold xy. cbv zeta.
    rewrite zip_with_fst_snd.
    rewrite (map_ext (fun _ : Z => 1 * eq_token) (fun _ => eq_token)) by (intros; lia).
    rewrite (map_ext (fun _ : Z => 1 * op_token) (fun _ => op_token)) by (intros; lia).
    reflexivity.
  - subst xy. rewrite cartesian_prod_length, !length_seqZ. nia.
  - apply cartesian_prod_NoDup; apply NoDup_seqZ.
  - intros a b. subst xy. rewrite cartesian_prod_elem, !elem_of_seqZ. lia.
Qed.

Lemma dataset_column (xy : list (Z * Z)) (f : Z * Z -> Z) (c : Z) (j : nat) (a b : Z) :
  xy.*1 !! j = Some a -> xy.*2 !! j = Some b ->
  xy !! j = Some (a, b) /\
  map (fun _ => c) xy.*1 !! j = Some c /\
  map f xy !! j = Some (f (a, b)).
Proof.
  intros Ha Hb.
  apply list_lookup_fmap_Some in Ha as ([a1 b1] & Heq1 & Hj).
  apply list_lookup_fmap_Some in Hb as ([a2 b2] & Heq2 & Hj2).
  rewrite Hj in Hj2. injection Hj2 as <- <-. simpl in Heq1, Heq2. subst a b.
  split; [exact Hj|]. split.
  - change (map (fun _ : Z => c) xy.*1) with ((fun _ : Z => c) <$> xy.*1).
    rewrite list_lookup_fmap, list_lookup_fmap, Hj. reflexivity.
  - change (map f xy) with (f <$> xy). now rewrite list_lookup_fmap, Hj.
Qed.

(** X15.  The data set.  For [p < 1] the call fails ([torch.arange]
    refuses the empty-below range).  For [p >= 1] it returns five rows [x],
    [op], [y], [eq], [result] of [p * (p - 1)] entries each; the columns
    [(x, y)] are exactly the pairs with [0 <= x < p] and [1 <= y < p], each
    once; and every column carries the two tokens and
    [(x^2 + x*y + y^2) mod p] as its answer. *)
Theorem X15_dataset_structure (p eq_token op_token : Z) :
  (p < 1 -> multiplication_mod_p_data p eq_token op_token = None) /\
  (1 <= p ->
   exists x op y eq res,
     multiplication_mod_p_data p eq_token op_token = Some [x; op; y; eq; res] /\
     length x = Z.to_nat (p * (p - 1)) /\
     length op = length x /\ length y = length x /\
     length eq = length x /\ length res = length x /\
     NoDup (zip x y) /\
     (forall a b, (a, b) ∈ zip x y <-> 0 <= a < p /\ 1 <= b < p) /\
     (forall j a b, x !! j = Some a -> y !! j = Some b ->
        op !! j = Some op_token /\ eq !! j = Some eq_token /\
        res !! j = Some ((a ^ 2 + a * b + b ^ 2) mod p))).
Proof.
  split.
  - intros Hp. unfold multiplication_mod_p_data, arange.
    destruct (Z.ltb_spec p 0) as [_|_]; [reflexivity|].
    destruct (Z.ltb_spec p 1) as [_|Hge]; [reflexivity|lia].
  - intros Hp. destruct (dataset_rows p eq_token op_token Hp) as (Hdata & Hlen & Hnd & Hin).
    set (xy := cartesian_prod (seqZ 0 p) (seqZ 1 (p - 1))) in *.
    exists xy.*1, (map (fun _ => op_token) xy.*1), xy.*2,
           (map (fun _ => eq_token) xy.*1),
           (map (fun ab => (ab.1 ^ 2 + ab.1 * ab.2 + ab.2 ^ 2) mod p) xy).
    split; [exact Hdata|].
    rewrite ?length_map, ?length_fmap, zip_fst_snd.
    repeat (split; [first [exact Hlen | reflexivity | exact Hnd | exact Hin]|]).
    intros j a b Ha Hb.
    destruct (dataset_column xy (fun ab => (ab.1 ^ 2 + ab.1 * ab.2 + ab.2 ^ 2) mod p)
                op_token j a b Ha Hb) as (_ & Hop & Hres).
    destruct (dataset_column xy (fun ab => (ab.1 ^ 2 + ab.1 * ab.2 + ab.2 ^ 2) mod p)
                eq_token j a b Ha Hb) as (_ & Heq & _).
    split; [exact Hop|]. split; [exact Heq|exact Hres].
Qed.

(** X16.  Every token of the data set is in the vocabulary.  Called as
    [main] calls it, with [eq_token = p] and [op_token = p + 1], for
    [p >= 1]: every entry of every row is at least 0 and below [p + 2], the
    number of tokens the model is built with; the answers are below [p]. *)
Theorem X16_dataset_tokens_in_vocabulary (p : Z) (rows : list (list Z)) :
  1 <= p ->
  multiplication_mod_p_data p p (p + 1) = Some rows ->
  (forall row t, row ∈ rows -> t ∈ row -> 0 <= t < p + 2) /\
  (forall t, t ∈ default [] (rows !! 4%nat) -> 0 <= t < p).
Proof.
  intros Hp Hrows.
  destruct (dataset_rows p p (p + 1) Hp) as (Hdata & _ & _ & Hin).
  set (xy := cartesian_prod (seqZ 0 p) (seqZ 1 (p - 1))) in *.
  rewrite Hdata in Hrows. injection Hrows as <-.
  assert (Hfst : forall t, t ∈ xy.*1 -> 0 <= t < p).
  { intros t Ht. apply list_elem_of_fmap in Ht as ([a b] & -> & Hab).
    apply Hin in Hab. simpl. lia. }
  assert (Hsnd : forall t, t ∈ xy.*2 -> 1 <= t < p).
  { intros t Ht. apply list_elem_of_fmap in Ht as ([a b] & -> & Hab).
    apply Hin in Hab. simpl. lia. }
  assert (Hres : forall t,
             t ∈ map (fun ab => (ab.1 ^ 2 + ab.1 * ab.2 + ab.2 ^ 2) mod p) xy ->
             0 <= t < p).
  { intros t Ht. apply list_elem_of_In, in_map_iff in Ht as (ab & <- & _).
    apply Z.mod_pos_bound. lia. }
  split; [|exact Hres].
  intros row t Hrow Ht.
  repeat (apply elem_of_cons in Hrow as [-> | Hrow]).
  - apply Hfst in Ht. lia.
  - apply list_elem_of_In, in_map_iff in Ht as (? & <- & _). lia.
  - apply Hsnd in Ht. lia.
  - apply list_elem_of_In, in_map_iff in Ht as (? & <- & _). lia.
  - apply Hres in Ht. lia.
  - inversion Hrow.
Qed.

(** X17.  The operation of the data set is symmetric.  For [p >= 1] and
    any [a], [b] with [1 <= a, b < p] the data set has a column for [(a, b)]
    and a column for [(b, a)], and the two carry the same answer: the answer
    is [(x^2 + x*y + y^2) mod p], not the quotient the docstring names. *)
Theorem X17_dataset_answers_are_symmetric (p eq_token op_token a b : Z)
    (x op y eq res : list Z) :
  1 <= p -> 1 <= a < p -> 1 <= b < p ->
  multiplication_mod_p_data p eq_token op_token = Some [x; op; y; eq; res] ->
  exists j j' c,
    x !! j = Some a /\ y !! j = Some b /\ res !! j = Some c /\
    x !! j' = Some b /\ y !! j' = Some a /\ res !! j' = Some c.
Proof.
  intros Hp Ha Hb Hrows.
  destruct (dataset_rows p eq_token op_token Hp) as (Hdata & _ & _ & Hin).
  set (xy := cartesian_prod (seqZ 0 p) (seqZ 1 (p - 1))) in *.
  rewrite Hdata in Hrows. injection Hrows as <- <- <- <- <-.
  assert (Hcol : forall u v, 1 <= u < p -> 1 <= v < p ->
             exists j, xy.*1 !! j = Some u /\ xy.*2 !! j = Some v /\
               map (fun ab => (ab.1 ^ 2 + ab.1 * ab.2 + ab.2 ^ 2) mod p) xy !! j
               = Some ((u ^ 2 + u * v + v ^ 2) mod p)).
  { intros u v Hu Hv.
    assert (Huv : (u, v) ∈ xy) by (apply Hin; lia).
    apply list_elem_of_lookup in Huv as [j Hj]. exists j.
    split; [exact (list_lookup_fmap_Some_2 fst xy j (u, v) Hj)|].
    split; [exact (list_lookup_fmap_Some_2 snd xy j (u, v) Hj)|].
    exact (list_lookup_fmap_Some_2
             (fun ab : Z * Z => (ab.1 ^ 2 + ab.1 * ab.2 + ab.2 ^ 2) mod p)
             xy j (u, v) Hj). }
  destruct (Hcol a b Ha Hb) as (j & Hxa & Hyb & Hrj).
  destruct (Hcol b a Hb Ha) as (j' & Hxb & Hya & Hrj').
  exists j, j', ((a ^ 2 + a * b + b ^ 2) mod p).
  repeat (split; [assumption|]).
  rewrite Hrj'. do 2 f_equal. ring.
Qed.
End Dataset.

(** * The schedule of the training loops *)

Section Schedule.
Local Open Scope R_scope.

Lemma lr_lambda_low (u : Z) : (u <= 10)%Z -> lr_lambda u = IZR u / 10.
Proof.
  intros Hu. unfold lr_lambda. destruct (Z.gtb_spec u 10) as [Hgt|_]; [lia|reflexivity].
Qed.

Lemma lr_lambda_high (u : Z) : (10 < u)%Z -> lr_lambda u = 1.
Proof.
  intros Hu. unfold lr_lambda. destruct (Z.gtb_spec u 10) as [_|Hle]; [reflexivity|lia].
Qed.

(** X18.  The learning-rate factor is a linear warm-up over ten updates.
    It is 0 at update 0 (the first optimizer step moves nothing), it never
    decreases, it stays within [0, 1] for updates that are not negative, and it
    is 1 exactly from update 10 on. *)
Theorem X18_learning_rate_warmup :
  lr_lambda 0 = 0 /\
  (forall u, (0 <= u)%Z -> 0 <= lr_lambda u <= 1) /\
  (forall u v, (u <= v)%Z -> lr_lambda u <= lr_lambda v) /\
  (forall u, lr_lambda u = 1 <-> (10 <= u)%Z).
Proof.
  assert (Hlow : forall u, (u <= 10)%Z -> lr_lambda u <= 1 /\ IZR u = 10 * lr_lambda u).
  { intros u Hu. rewrite (lr_lambda_low u Hu). apply IZR_le in Hu. split; lra. }
  split; [|split; [|split]].
  - rewrite lr_lambda_low by lia. lra.
  - intros u Hu. destruct (Z.le_gt_cases u 10) as [Hle|Hgt].
    + destruct (Hlow u Hle) as [H1 H2]. apply IZR_le in Hu. lra.
    + rewrite lr_lambda_high by lia. lra.
  - intros u v Huv. destruct (Z.le_gt_cases v 10) as [Hle|Hgt].
    + destruct (Hlow u ltac:(lia)) as [_ Hu], (Hlow v Hle) as [_ Hv].
      apply IZR_le in Huv. lra.
    + rewrite (lr_lambda_high v) by lia.
      destruct (Z.le_gt_cases u 10) as [Hle|Hgt'].
      * exact (proj1 (Hlow u Hle)).
      * rewrite lr_lambda_high by lia. lra.
  - intros u. split.
    + intros Hone. destruct (Z.le_gt_cases u 10) as [Hle|Hgt]; [|lia].
      destruct (Hlow u Hle) as [_ Hu]. rewrite Hone in Hu.
      assert (u = 10%Z) by (apply eq_IZR; lra). lia.
    + intros Hu. destruct (Z.eq_dec u 10%Z) as [->|Hne].
      * rewrite lr_lambda_low by lia. lra.
      * apply lr_lambda_high. lia.
Qed.

(** X19.  When the training loop of [main_transformer.py] plots and saves.
    Without [save_weights] it does so exactly at the epochs [e] with
    [e mod 100 = 90], so a run of at most 90 epochs never does, and the last
    epoch gets its turn only when the number of epochs is 91 modulo 100.  With
    [save_weights] it does so at every epoch up to 100, afterwards at the
    epochs with [(e + 1) mod 100 = 0], and always at the last epoch. *)
Theorem X19_saving_schedule (e num_epochs : Z) :
  (0 <= e)%Z ->
  (do_save false e num_epochs = true <-> (e mod 100 = 90)%Z) /\
  ((e < num_epochs)%Z -> (num_epochs <= 90)%Z -> do_save false e num_epochs = false) /\
  (do_save false (num_epochs - 1) num_epochs = true ->
   (num_epochs mod 100 = 91)%Z) /\
  do_save true (num_epochs - 1) num_epochs = true /\
  ((e <= 100)%Z -> do_save true e num_epochs = true) /\
  ((100 < e)%Z -> (e < num_epochs - 1)%Z ->
   (do_save true e num_epochs = true <-> ((e + 1) mod 100 = 0)%Z)).
Proof.
  intros He.
  assert (Hoff : forall x, do_save false x num_epochs = true <-> ((x + 10) mod 100 = 0)%Z).
  { intros x. unfold do_save. apply Z.eqb_eq. }
  assert (Hshift : forall x, ((x + 10) mod 100 = 0 <-> x mod 100 = 90)%Z).
  { intros x. pose proof (Z.mod_pos_bound x 100 ltac:(lia)).
    pose proof (Z.mod_pos_bound (x + 10) 100 ltac:(lia)).
    pose proof (Z.div_mod x 100 ltac:(lia)).
    pose proof (Z.div_mod (x + 10) 100 ltac:(lia)). lia. }
  split; [|split; [|split; [|split; [|split]]]].
  - now rewrite Hoff, Hshift.
  - intros Hlt Hshort. apply not_true_is_false. rewrite Hoff, Hshift.
    rewrite Z.mod_small by lia. lia.
  - rewrite Hoff, Hshift. intros H.
    pose proof (Z.mod_pos_bound (num_epochs - 1) 100 ltac:(lia)).
    pose proof (Z.mod_pos_bound num_epochs 100 ltac:(lia)).
    pose proof (Z.div_mod (num_epochs - 1) 100 ltac:(lia)).
    pose proof (Z.div_mod num_epochs 100 ltac:(lia)). lia.
  - unfold do_save. rewrite Z.eqb_refl. apply orb_true_r.
  - intros Hle. unfold do_save. apply Z.leb_le in Hle. now rewrite Hle.
  - intros Hgt Hlast. unfold do_save.
    destruct (Z.leb_spec e 100) as [Hle|_]; [lia|].
    destruct (Z.gtb_spec e 100) as [_|Hle]; [|lia].
    destruct (Z.eqb_spec e (num_epochs - 1)) as [Heq|_]; [lia|].
    simpl. rewrite orb_false_r. apply Z.eqb_eq.
Qed.
End Schedule.

(** * [compute_sparsity] *)

Section Sparsity.
Local Open Scope R_scope.

Lemma fold_left_add_from (f : list R -> nat) (params : list (list R)) (a : nat) :
  fold_left (fun acc t => acc + f t)%nat params a
  = (a + fold_left (fun acc t => acc + f t)%nat params 0)%nat.
Proof.
  revert a. induction params as [|t params IH]; intros a; simpl; [lia|].
  rewrite (IH (a + f t)%nat), (IH (f t)). lia.
Qed.

Lemma count_zeros_le (t : list R) : (count_zeros t <= length t)%nat.
Proof.
  unfold count_zeros. induction t as [|x t IH]; [reflexivity|].
  simpl. destruct (Req_dec_T x 0); simpl; lia.
Qed.

Lemma count_zeros_all (t : list R) :
  count_zeros t = length t <-> forall x, x ∈ t -> x = 0.
Proof.
  unfold count_zeros. induction t as [|x t IH]; simpl.
  - split; [intros _ y Hy; inversion Hy|reflexivity].
  - pose proof (count_zeros_le t) as Hle. unfold count_zeros in Hle.
    destruct (Req_dec_T x 0) as [Hx|Hx]; simpl.
    + split.
      * intros Hlen y Hy. apply elem_of_cons in Hy as [->|Hy]; [exact Hx|].
        apply IH; [lia|exact Hy].
      * intros Hall. f_equal. apply IH. intros y Hy. apply Hall. now right.
    + split; [lia|]. intros Hall. destruct Hx. apply Hall. now left.
Qed.

Lemma count_zeros_none (t : list R) :
  count_zeros t = 0%nat <-> forall x, x ∈ t -> x <> 0.
Proof.
  unfold count_zeros. induction t as [|x t IH]; simpl.
  - split; [intros _ y Hy; inversion Hy|reflexivity].
  - destruct (Req_dec_T x 0) as [Hx|Hx]; simpl.
    + split; [discriminate|]. intros Hnone. destruct (Hnone x); [now left|exact Hx].
    + split.
      * intros Hzero y Hy. apply elem_of_cons in Hy as [->|Hy]; [exact Hx|].
        now apply IH.
      * intros Hnone. apply IH. intros y Hy. apply Hnone. now right.
Qed.

(** The two counters of the loop, against the parameters. *)
Lemma sparsity_counters (params : list (list R)) :
  let total := fold_left (fun acc t => acc + length t)%nat params 0%nat in
  let zeros := fold_left (fun acc t => acc + count_zeros t)%nat params 0%nat in
  (zeros <= total)%nat /\
  (total = 0%nat <-> forall t, t ∈ params -> t = []) /\
  (zeros = total <-> forall t x, t ∈ params -> x ∈ t -> x = 0) /\
  (zeros = 0%nat <-> forall t x, t ∈ params -> x ∈ t -> x <> 0).
Proof.
  induction params as [|t params (Hle & Hempty & Hall & Hnone)]; simpl.
  - repeat split; try (intros; reflexivity); try lia;
      intros _ t; intros; match goal with H : _ ∈ [] |- _ => inversion H end.
  - rewrite (fold_left_add_from length params (length t)).
    rewrite (fold_left_add_from count_zeros params (count_zeros t)).
    pose proof (count_zeros_le t) as Ht.
    pose proof (count_zeros_all t) as Htall.
    pose proof (count_zeros_none t) as Htnone.
    split; [lia|]. split; [|split].
    + split.
      * intros Hzero t' Hin. apply elem_of_cons in Hin as [->|Hin].
        -- apply length_zero_iff_nil. lia.
        -- apply Hempty; [lia|exact Hin].
      * intros Hnil. rewrite (Hnil t) by left. simpl.
        apply Hempty. intros t' Hin. apply Hnil. now right.
    + split.
      * intros Heq t' x Hin Hx. apply elem_of_cons in Hin as [->|Hin].
        -- apply Htall; [lia|exact Hx].
        -- apply (proj1 Hall ltac:(lia) t' x Hin Hx).
      * intros Hzero.
        assert (count_zeros t = length t)
          by (apply Htall; intros x Hx; apply (Hzero t x); [left|exact Hx]).
        assert (fold_left (fun acc t0 => acc + count_zeros t0)%nat params 0%nat
                = fold_left (fun acc t0 => acc + length t0)%nat params 0%nat)
          by (apply Hall; intros t' x Hin Hx; apply (Hzero t' x); [now right|exact Hx]).
        lia.
    + split.
      * intros Hzero t' x Hin Hx. apply elem_of_cons in Hin as [->|Hin].
        -- apply Htnone; [lia|exact Hx].
        -- apply (proj1 Hnone ltac:(lia) t' x Hin Hx).
      * intros Hnz.
        assert (count_zeros t = 0%nat)
          by (apply Htnone; intros x Hx; apply (Hnz t x); [left|exact Hx]).
        assert (fold_left (fun acc t0 => acc + count_zeros t0)%nat params 0%nat = 0%nat)
          by (apply Hnone; intros t' x Hin Hx; apply (Hnz t' x); [now right|exact Hx]).
        lia.
Qed.

(** X20.  [compute_sparsity].  It raises [ZeroDivisionError] exactly when
    the model has no element at all (no parameter, or only empty ones).
    Otherwise the sparsity is a number in [0, 1]; it is 1 exactly when every
    element of every parameter is zero and 0 exactly when none is. *)
Theorem X20_sparsity_is_a_fraction (params : list (list R)) :
  (compute_sparsity params = inl ZeroDivisionError <->
   forall t, t ∈ params -> t = []) /\
  (forall s, compute_sparsity params = inr s ->
     0 <= s <= 1 /\
     (s = 1 <-> forall t x, t ∈ params -> x ∈ t -> x = 0) /\
     (s = 0 <-> forall t x, t ∈ params -> x ∈ t -> x <> 0)).
Proof.
  destruct (sparsity_counters params) as (Hle & Hempty & Hall & Hnone).
  unfold compute_sparsity.
  set (total := fold_left (fun acc t => acc + length t)%nat params 0%nat) in *.
  set (zeros := fold_left (fun acc t => acc + count_zeros t)%nat params 0%nat) in *.
  destruct (Nat.eqb_spec total 0) as [Hzero|Hpos].
  - split; [|intros s; discriminate].
    split; [intros _; now apply Hempty|reflexivity].
  - split; [split; [discriminate|intros Hnil; now apply Hempty in Hnil]|].
    intros s [= <-].
    assert (Htotal : 0 < INR total) by (apply lt_0_INR; lia).
    assert (Hzeros : 0 <= INR zeros <= INR total)
      by (split; [apply pos_INR|now apply le_INR]).
    split; [|split].
    + split.
      * apply Rmult_le_reg_r with (INR total); [exact Htotal|].
        field_simplify; lra.
      * apply Rmult_le_reg_r with (INR total); [exact Htotal|].
        field_simplify; lra.
    + rewrite <- Hall. split.
      * intros Hone. apply INR_eq.
        apply (Rmult_eq_compat_r (INR total)) in Hone.
        field_simplify in Hone; lra.
      * intros ->. field. lra.
    + rewrite <- Hnone. split.
      * intros Hnull. apply INR_eq. simpl.
        apply (Rmult_eq_compat_r (INR total)) in Hnull.
        field_simplify in Hnull; lra.
      * intros ->. simpl. field. lra.
Qed.
End Sparsity.

(** * The command line of the experiment runner and the label of the old
      script *)

Section CommandLine.

Lemma experiment_cmd_from (config : list (string * config_value)) (cmd : list string) :
  fold_left (fun cmd kv => cmd ++ cmd_of_entry kv) config cmd
  = cmd ++ flat_map cmd_of_entry config.
Proof.
  revert cmd. induction config as [|kv config IH]; intros cmd; simpl.
  - now rewrite app_nil_r.
  - now rewrite IH, app_assoc.
Qed.

Lemma experiment_cmd_app (c1 c2 : list (string * config_value)) :
  experiment_cmd (c1 ++ c2) = experiment_cmd c1 ++ flat_map cmd_of_entry c2.
Proof.
  unfold experiment_cmd. rewrite !experiment_cmd_from, flat_map_app.
  now rewrite app_assoc.
Qed.

(** X21.  The command line follows the configuration entry by entry.
    An entry whose value is [False] leaves no trace in the command; one whose
    value is [True] contributes the bare flag [--key]; any other entry
    contributes [--key] immediately followed by [str(value)]; the entries
    before it and after it contribute as they would on their own. *)
Theorem X21_command_line_follows_config (c1 c2 : list (string * config_value))
    (k repr : string) :
  experiment_cmd (c1 ++ (k, CBool false) :: c2) = experiment_cmd (c1 ++ c2) /\
  experiment_cmd (c1 ++ (k, CBool true) :: c2)
    = experiment_cmd c1 ++ [("--" ++ k)%string] ++ flat_map cmd_of_entry c2 /\
  experiment_cmd (c1 ++ (k, CValue repr) :: c2)
    = experiment_cmd c1 ++ [("--" ++ k)%string; repr] ++ flat_map cmd_of_entry c2.
Proof.
  rewrite !experiment_cmd_app. simpl. repeat split.
Qed.

(** X22.  One choice of the old command line cannot be run.  Of the six
    values the [--filter] option accepts, the label code gives a suffix to
    five and raises [ValueError] for ["fir"], and only for it, before
    training starts. *)
Theorem X22_fir_has_no_label (f w a l b pp kal : string) :
  f ∈ filter_choices ->
  (filter_suffix f w a l b pp kal
   = inl (ValueError ("Unrecognized filter type " ++ f)%string)
   <-> f = "fir"%string) /\
  (f <> "fir"%string -> exists suffix, filter_suffix f w a l b pp kal = inr suffix).
Proof.
  intros Hin. unfold filter_choices in Hin.
  assert (Hcases : f = "none"%string \/ f = "ma"%string \/ f = "ema"%string \/
                   f = "fir"%string \/ f = "smoother"%string \/ f = "kalman"%string).
  { repeat (apply elem_of_cons in Hin as [-> | Hin]); [tauto .. | inversion Hin]. }
  destruct Hcases as [-> | [-> | [-> | [-> | [-> | ->]]]]]; unfold filter_suffix; simpl.
  - split; [split; intros H; discriminate H|intros _; now eexists].
  - split; [split; intros H; discriminate H|intros _; now eexists].
  - split; [split; intros H; discriminate H|intros _; now eexists].
  - split; [split; reflexivity|intros Hne; now destruct Hne].
  - split; [split; intros H; discriminate H|intros _; now eexists].
  - split; [split; intros H; discriminate H|intros _; now eexists].
Qed.
End CommandLine.

(** * The further properties at concrete inputs *)

Section MoreInstances.
Local Open Scope R_scope.

Lemma w_in_scalar_module (c : R) :
  ("w", mkParam true (scalar 0) (Some (scalar c))) ∈ scalar_module c.
Proof. apply list_elem_of_singleton. reflexivity. Defined.

Lemma scalar_module_entry {V : Type} (c : R) (v : V) n p g :
  (n, p) ∈ scalar_module c -> selected p = Some g ->
  ({[ "w" := v ]} : gmap string V) !! n = Some v.
Proof.
  intros Hin _. apply list_elem_of_singleton in Hin. injection Hin as -> _.
  apply lookup_singleton_eq.
Defined.

(** One exponential call on accumulator 0 and gradient 1. *)
Lemma X1_ema_call_on_w :
  out_model (gradfilter_ema (scalar_module 1) (Some {[ "w" := scalar 0 ]}) (1 / 2) 2 false)
  = call_image (ema_grad 2) (ema_acc (1 / 2)) {[ "w" := scalar 0 ]} (scalar_module 1).
Proof.
  destruct (X1_returning_call_per_parameter (scalar_module 1) (scalar_module_names 1))
    as (_ & Hema & _).
  apply (Hema {[ "w" := scalar 0 ]} (1 / 2) 2).
  apply gradfilter_ema_returns. intros n p g Hin Hsel.
  rewrite (scalar_module_entry 1 (scalar 0) n p g Hin Hsel). now eexists.
Defined.

(** A Kalman call on a state without the entry of ["w"]. *)
Lemma X3_missing_w :
  exists n p g, (n, p) ∈ scalar_module 1 /\ selected p = Some g /\
                (∅ : gmap string (KalmanEntry unit)) !! n = None /\
                KeyError "w" = KeyError n.
Proof.
  destruct (X3_key_error_exactly_on_missing_entry (scalar_module 1)
              (scalar_module_names 1)) as (Hkalman & _).
  destruct (Hkalman ∅ (1 / 10000) (1 / 100) 2) as [_ Hraise].
  apply (Hraise (KeyError "w")). reflexivity.
Defined.

(** A moving-average call on a state without the buffer of ["w"]. *)
Lemma X4_missing_buffer :
  (exists n p g, (n, p) ∈ scalar_module 1 /\ selected p = Some g /\
                 (∅ : gmap string (deque (Tensor unit))) !! n = None /\
                 KeyError "w" = KeyError n) \/
  (KeyError "w" = ZeroDivisionError /\ "mean"%string = "mean"%string /\
   exists n p g d, (n, p) ∈ scalar_module 1 /\ selected p = Some g /\
                   (∅ : gmap string (deque (Tensor unit))) !! n = Some d /\
                   maxlen d = Some 0%nat) \/
  (KeyError "w" = ValueError "Unrecognized filter_type mean" /\
   "mean"%string ≠ "mean"%string /\ "mean"%string ≠ "sum"%string).
Proof.
  apply (proj1 (X4_moving_average_errors (scalar_module 1) 2 1 "mean" true false
                  (KeyError "w")) ∅).
  reflexivity.
Defined.

(** The second call with window 2: the window is full, the gradient doubles. *)
Lemma X6_second_call :
  out_model (gradfilter_ma (scalar_module 1)
               (ma_calls (scalar_module 1) 2 1 "mean" true false 1) 2 1 "mean" true false)
  = map (scale_grad (1 + 1 * 1)) (scalar_module 1).
Proof.
  destruct (X6_window_fill_then_amplify (scalar_module 1) 2 1 "mean" 1
              (scalar_module_names 1)) as (_ & _ & Hmodel); [lia|now left|].
  exact Hmodel.
Defined.

(** Window 1 on a buffer that held 5.0. *)
Lemma X7_window_one_on_w :
  out_model (gradfilter_ma (scalar_module 1) (Some {[ "w" := Deque (Some 1%nat) [scalar 5] ]})
               1 2 "mean" true false)
  = map (scale_grad (1 + 2)) (scalar_module 1).
Proof.
  destruct (X7_window_of_one_amplifies (scalar_module 1)
              {[ "w" := Deque (Some 1%nat) [scalar 5] ]} 2 "mean" true
              (scalar_module_names 1)) as (_ & Hmodel & _); [now left| |exact Hmodel].
  intros n p g Hin Hsel. eexists.
  split; [exact (scalar_module_entry 1 _ n p g Hin Hsel)|reflexivity].
Defined.

(** The first exponential call with [alpha = 0.98], [lamb = 2]. *)
Lemma X8_first_ema_call :
  gradfilter_ema (scalar_module 1) None (98 / 100) 2 false
  = Outcome (scalar_module 1)
      (Some (comprehension (fun _ gr => gr) (scalar_module 1))) None.
Proof.
  apply (X8_ema_fixed_point (scalar_module 1) (98 / 100) 2 (scalar_module_names 1)).
  lra.
Defined.

(** [alpha = 1] on accumulator 0. *)
Lemma X9_alpha_one_on_w :
  gradfilter_ema (scalar_module 1) (Some {[ "w" := scalar 0 ]}) 1 2 false
  = Outcome (call_image (ema_grad 2) (fun _ acc => acc) {[ "w" := scalar 0 ]}
               (scalar_module 1))
      (Some {[ "w" := scalar 0 ]}) None.
Proof.
  apply (X9_ema_alpha_zero_and_one (scalar_module 1) {[ "w" := scalar 0 ]} 2
           (scalar_module_names 1)).
  intros n p g Hin Hsel.
  rewrite (scalar_module_entry 1 (scalar 0) n p g Hin Hsel). now eexists.
Defined.

(** Accumulator 0, gradient 1, [alpha = 0.5], [lamb = 2]. *)
Lemma X10_between_on_w :
  exists acc' g',
    entry (out_state (gradfilter_ema (scalar_module 1) (Some {[ "w" := scalar 0 ]})
                        (1 / 2) 2 false)) "w" = Some acc' /\
    ("w", set_grad (mkParam true (scalar 0) (Some (scalar 1))) g')
      ∈ out_model (gradfilter_ema (scalar_module 1) (Some {[ "w" := scalar 0 ]})
                     (1 / 2) 2 false) /\
    forall i,
      Rmin (scalar 0 i) (scalar 1 i) <= acc' i <= Rmax (scalar 0 i) (scalar 1 i) /\
      Rmin (scalar 1 i) (acc' i) <= g' i <= Rmax (scalar 1 i) (acc' i) /\
      Rmin (scalar 0 i) (scalar 1 i) <= g' i <= Rmax (scalar 0 i) (scalar 1 i).
Proof.
  apply (X10_ema_stays_between (scalar_module 1) {[ "w" := scalar 0 ]} (1 / 2) 2 "w"
           (mkParam true (scalar 0) (Some (scalar 1))) (scalar 1) (scalar 0)
           (scalar_module_names 1)).
  - lra.
  - lra.
  - apply gradfilter_ema_returns. intros n p g Hin Hsel.
    rewrite (scalar_module_entry 1 (scalar 0) n p g Hin Hsel). now eexists.
  - apply w_in_scalar_module.
  - reflexivity.
  - apply lookup_singleton_eq.
Defined.

(** One Kalman call on the initial entry, default noises. *)
Lemma X11_first_kalman_call :
  exists e',
    entry (out_state (gradfilter_kalman (scalar_module 1)
                        (Some {[ "w" := KEntry (scalar 0) (scalar (1 / 100)) ]})
                        (1 / 10000) (1 / 100) 2)) "w" = Some e' /\
    ("w", set_grad (mkParam true (scalar 0) (Some (scalar 1)))
            (tadd (scalar 1) (tscale (kx e') 2)))
      ∈ out_model (gradfilter_kalman (scalar_module 1)
                     (Some {[ "w" := KEntry (scalar 0) (scalar (1 / 100)) ]})
                     (1 / 10000) (1 / 100) 2) /\
    forall i, 0 <= kP (KEntry (scalar 0) (scalar (1 / 100))) i ->
      0 < kP e' i < 1 / 100 /\
      Rmin (kx (KEntry (scalar 0) (scalar (1 / 100))) i) (scalar 1 i) <= kx e' i
        <= Rmax (kx (KEntry (scalar 0) (scalar (1 / 100))) i) (scalar 1 i).
Proof.
  apply (X11_kalman_call_keeps_variance_in_range (scalar_module 1)
           {[ "w" := KEntry (scalar 0) (scalar (1 / 100)) ]} (1 / 10000) (1 / 100) 2 "w"
           (mkParam true (scalar 0) (Some (scalar 1))) (scalar 1)
           (KEntry (scalar 0) (scalar (1 / 100))) (scalar_module_names 1)).
  - lra.
  - lra.
  - apply gradfilter_kalman_returns. intros n p g Hin Hsel.
    rewrite (scalar_module_entry 1 _ n p g Hin Hsel). now eexists.
  - apply w_in_scalar_module.
  - reflexivity.
  - apply lookup_singleton_eq.
Defined.

(** Gradient 1 with gain 2 against gradient 7 with gain 5. *)
Lemma X12_same_variance :
  kalman_variance (scalar_module 1) (1 / 10000) (1 / 100) 2 "w" 3 tt
  = kalman_variance (scalar_module 7) (1 / 10000) (1 / 100) 5 "w" 3 tt.
Proof.
  apply (X12_kalman_variance_ignores_gradients (scalar_module 1) (scalar_module 7)
           (1 / 10000) (1 / 100) 2 5 "w" "w"
           (mkParam true (scalar 0) (Some (scalar 1)))
           (mkParam true (scalar 0) (Some (scalar 7))) (scalar 1) (scalar 7) 3 tt tt).
  - apply scalar_module_names.
  - apply w_in_scalar_module.
  - reflexivity.
  - apply scalar_module_names.
  - apply w_in_scalar_module.
  - reflexivity.
Defined.

(** Gradient 1, gain 2: the output tends to 3. *)
Lemma X13_output_tends_to_three :
  Un_cv (fun k => tadd (scalar 1)
                    (tscale (kalman_estimate (scalar_module 1) (1 / 10000) (1 / 100) 2
                               "w" (S k)) 2) tt)
        ((1 + 2) * scalar 1 tt).
Proof.
  assert (Hq : 0 < 1 / 10000) by lra.
  assert (Hr : 0 < 1 / 100) by lra.
  destruct (X13_kalman_output_tends_to_amplified_gradient (scalar_module 1)
              (1 / 10000) (1 / 100) 2 "w"
              (mkParam true (scalar 0) (Some (scalar 1))) (scalar 1) Hq Hr
              (scalar_module_names 1) (w_in_scalar_module 1) eq_refl) as [_ Hcv].
  exact (Hcv tt).
Defined.

(** Step 0 of a two-stage run that starts filtering at step 5. *)
Lemma X14_step_zero :
  out_model (filter_step (mkArgs "ma" 100 5 (98 / 100) (98 / 100) (1 / 100)
                            (1 / 10000) (1 / 100) true 5) 0 (scalar_module 1) None)
  = scalar_module 1.
Proof.
  destruct (X14_first_stage_leaves_gradients
              (mkArgs "ma" 100 5 (98 / 100) (98 / 100) (1 / 100)
                 (1 / 10000) (1 / 100) true 5) 0 (scalar_module 1) None eq_refl)
    as [Hma _]; [simpl; lia|].
  now apply Hma.
Defined.

(** The data set for [p = 97]. *)
Lemma X15_p_97 :
  exists rows, multiplication_mod_p_data 97 97 98 = Some rows /\ length rows = 5%nat.
Proof.
  destruct (proj2 (X15_dataset_structure 97 97 98)) as (x & op & y & eq & res & Hdata & _);
    [lia|].
  eexists. split; [exact Hdata|reflexivity].
Defined.

Lemma X16_p_5 :
  (1 <= 5)%Z /\
  forall row t, row ∈ default [] (multiplication_mod_p_data 5 5 6) -> t ∈ row ->
                (0 <= t < 5 + 2)%Z.
Proof.
  split; [lia|].
  destruct (multiplication_mod_p_data 5 5 6) as [rows|] eqn:Hrows.
  - apply (X16_dataset_tokens_in_vocabulary 5 rows); [lia|exact Hrows].
  - intros row t Hrow. inversion Hrow.
Defined.

Lemma X17_p_5 :
  exists j j' c,
    default [] (default [] (multiplication_mod_p_data 5 5 6) !! 0%nat) !! j = Some 2%Z /\
    default [] (default [] (multiplication_mod_p_data 5 5 6) !! 2%nat) !! j = Some 3%Z /\
    default [] (default [] (multiplication_mod_p_data 5 5 6) !! 4%nat) !! j = Some c /\
    default [] (default [] (multiplication_mod_p_data 5 5 6) !! 0%nat) !! j' = Some 3%Z /\
    default [] (default [] (multiplication_mod_p_data 5 5 6) !! 2%nat) !! j' = Some 2%Z /\
    default [] (default [] (multiplication_mod_p_data 5 5 6) !! 4%nat) !! j' = Some c.
Proof.
  destruct (dataset_rows 5 5 6) as (Hdata & _); [lia|].
  rewrite Hdata.
  refine (X17_dataset_answers_are_symmetric 5 5 6 2 3 _ _ _ _ _ _ _ _ Hdata); lia.
Defined.

Lemma X18_update_five : 0 <= lr_lambda 5 <= 1.
Proof. apply (proj1 (proj2 X18_learning_rate_warmup) 5%Z). lia. Defined.

Lemma X19_fifty_epochs : do_save false 49 50 = false.
Proof.
  destruct (X19_saving_schedule 49 50) as (_ & Hshort & _); [lia|].
  apply Hshort; lia.
Defined.

Lemma sparsity_of_zero_one : compute_sparsity [[0; 1]] = inr (INR 1 / INR 2).
Proof.
  unfold compute_sparsity, count_zeros. simpl.
  destruct (Req_dec_T 0 0) as [_|Hne]; [|now destruct Hne].
  destruct (Req_dec_T 1 0) as [Heq|_]; [lra|]. reflexivity.
Defined.

Lemma X20_half_zero :
  compute_sparsity [[0; 1]] = inr (INR 1 / INR 2) /\ 0 <= INR 1 / INR 2 <= 1.
Proof.
  split; [exact sparsity_of_zero_one|].
  exact (proj1 (proj2 (X20_sparsity_is_a_fraction [[0; 1]]) (INR 1 / INR 2)
                  sparsity_of_zero_one)).
Defined.

Lemma X22_ema_has_a_label :
  exists suffix, filter_suffix "ema" "_w100" "_a0990" "_l5" "_beta0.98" "_pp0.01"
                   "_p10e-04_m10e-02" = inr suffix.
Proof.
  destruct (X22_fir_has_no_label "ema" "_w100" "_a0990" "_l5" "_beta0.98" "_pp0.01"
              "_p10e-04_m10e-02") as [_ Hlabel].
  - unfold filter_choices. do 2 right. left.
  - apply Hlabel. discriminate.
Defined.
End MoreInstances.
